(** * DAG1 poset engine: a shallow embedding of [src/poset]

    The development follows the Go sources of the poset package: the
    in-memory store ([InmemStore]), the insertion path ([InsertEvent] with
    the frame assignment, [ClothoChecking], [AtroposTimeSelection] and
    [AssignAtroposTime2]), the Lamport clock ([lamportTimestamp]), the
    signature pool ([ProcessSigPool]), the frames ([MakeFrame]), [Reset]
    and the small getters and setters of [Poset].  The definitions come
    first, then the predicates and the examples that the theorems speak
    of, then the theorems.

    Conventions.
    - [int64] and [uint64] values are integers of [Z]; additions and
      subtractions that Go performs on [int64] are wrapped with [int64].
    - An [EventHash] (a 32-byte array) is the big-endian integer it
      spells; the zero hash is [0].  Maps keyed by the hexadecimal
      spelling of a hash are keyed by the hash itself.
    - Go maps are [gmap]s; a [range] loop over a map visits the entries in
      the order given by the [range] field of the environment, which is
      only known to be a permutation of the entries.
    - The LRU caches of the in-memory store are maps without eviction.
    - The state database behind [ApplyInternalTransactions] is outside the
      available sources: the model has the state root that a commit
      returns, not what the commit writes to the database.
    - A function that returns [(T, error)] returns a pair whose second
      component is an [option error]; [None] is Go's [nil].
    - Code of the repository that is outside the available sources (the
      event, peers, block and rolling-index files) is a field of the class
      [Env]; the instance [specEnv] spells these fields out from the
      specification. *)

From stdpp Require Import gmap strings list fin_maps sorting.
From Stdlib Require Import ZArith Lia.

Local Open Scope Z_scope.

(** ** Machine integers *)

Definition int64 (z : Z) : Z := (z + 2 ^ 63) mod 2 ^ 64 - 2 ^ 63.

Definition uint64 (z : Z) : Z := z mod 2 ^ 64.

Definition MaxInt64 : Z := 2 ^ 63 - 1.

Definition MinInt64 : Z := - 2 ^ 63.

(** ** Errors ([common.StoreErr], [fmt.Errorf]) *)

Inductive StoreErrType :=
| KeyNotFound
| TooLate
| PassedIndex
| SkippedIndex
| NoRoot
| UnknownParticipant
| Empty
| KeyAlreadyExists.

Inductive error :=
| StoreErr (dataType : string) (errType : StoreErrType)
| Errorf (format : string)
| Wrapf (format : string) (cause : error).

Global Instance StoreErrType_eq_dec : EqDecision StoreErrType.
Proof. solve_decision. Defined.

(** [common.Is(err, t)]: [err] is a store error of kind [t]. *)
Definition Is (err : option error) (t : StoreErrType) : bool :=
  match err with
  | Some (StoreErr _ t') => bool_decide (t' = t)
  | _ => false
  end.

(** The outcome of a call that may return a value, return an error, or stop
    the process ([panic], [logger.Fatal]). *)
Inductive outcome (A : Type) :=
| Ret (a : A)
| Fail (e : error)
| Abort.

Arguments Ret {A} a.
Arguments Fail {A} e.
Arguments Abort {A}.

(** ** Flag tables *)

Abbreviation EventHash := Z (only parsing).

Abbreviation FlagTable := (gmap Z Z) (only parsing).

(** The serialized form of a flag table, as far as the engine looks at it:
    bytes produced by [FlagTable.Marshal], or bytes that [Unmarshal]
    rejects. *)
Inductive TableBytes :=
| Marshal (ft : gmap Z Z)
| Malformed.

Definition NewFlagTable : gmap Z Z := ∅.

Definition Unmarshal (b : TableBytes) : gmap Z Z * option error :=
  match b with
  | Marshal ft => (ft, None)
  | Malformed => (∅, Some (Errorf "proto: cannot parse flag table"))
  end.

(** ** Events (the messages of [event.proto]) *)

Module BlockSignature.
Record t := mk {
  Validator : string;
  Index : Z;
  Signature : string
}.
End BlockSignature.

Module EventBody.
Record t := mk {
  Transactions : list string;
  SelfParent : Z;          (* Parents[0] *)
  OtherParent : Z;         (* Parents[1] *)
  Creator : string;
  Index : Z;
  BlockSignatures : list BlockSignature.t
}.
End EventBody.

Module EventMessage.
Record t := mk {
  Body : EventBody.t;
  SignatureR : Z;
  SignatureS : Z;
  SelfParentIndex : Z;
  OtherParentCreatorID : Z;
  OtherParentIndex : Z;
  CreatorID : Z;
  TopologicalIndex : Z;
  Hash : Z
}.
End EventMessage.

Module Event.
Record t := mk {
  Message : EventMessage.t;
  LamportTimestamp : Z;
  Frame : Z;
  FlagTableBytes : TableBytes;
  RootTableBytes : TableBytes;
  Root : bool;
  Clotho : bool;
  Atropos : bool;
  AtroposTimestamp : Z;
  FrameReceived : Z
}.

Definition SelfParent (e : t) : Z := EventBody.SelfParent (EventMessage.Body (Message e)).
Definition OtherParent (e : t) : Z := EventBody.OtherParent (EventMessage.Body (Message e)).
Definition GetCreator (e : t) : string := EventBody.Creator (EventMessage.Body (Message e)).
Definition Index (e : t) : Z := EventBody.Index (EventMessage.Body (Message e)).
Definition Transactions (e : t) : list string :=
  EventBody.Transactions (EventMessage.Body (Message e)).
Definition BlockSignatures (e : t) : list BlockSignature.t :=
  EventBody.BlockSignatures (EventMessage.Body (Message e)).
Definition Hash (e : t) : Z := EventMessage.Hash (Message e).
Definition CreatorID (e : t) : Z := EventMessage.CreatorID (Message e).
Definition GetLamportTimestamp (e : t) : Z := LamportTimestamp e.
Definition GetFlagTable (e : t) : gmap Z Z * option error := Unmarshal (FlagTableBytes e).
Definition GetRootTable (e : t) : gmap Z Z * option error := Unmarshal (RootTableBytes e).

Definition withMessage (e : t) (m : EventMessage.t) : t :=
  mk m (LamportTimestamp e) (Frame e) (FlagTableBytes e) (RootTableBytes e)
     (Root e) (Clotho e) (Atropos e) (AtroposTimestamp e) (FrameReceived e).
Definition SetLamportTimestamp (e : t) (v : Z) : t :=
  mk (Message e) v (Frame e) (FlagTableBytes e) (RootTableBytes e)
     (Root e) (Clotho e) (Atropos e) (AtroposTimestamp e) (FrameReceived e).
Definition withFrame (e : t) (v : Z) : t :=
  mk (Message e) (LamportTimestamp e) v (FlagTableBytes e) (RootTableBytes e)
     (Root e) (Clotho e) (Atropos e) (AtroposTimestamp e) (FrameReceived e).
Definition withFlagTableBytes (e : t) (v : TableBytes) : t :=
  mk (Message e) (LamportTimestamp e) (Frame e) v (RootTableBytes e)
     (Root e) (Clotho e) (Atropos e) (AtroposTimestamp e) (FrameReceived e).
Definition withRootTableBytes (e : t) (v : TableBytes) : t :=
  mk (Message e) (LamportTimestamp e) (Frame e) (FlagTableBytes e) v
     (Root e) (Clotho e) (Atropos e) (AtroposTimestamp e) (FrameReceived e).
Definition withRoot (e : t) (v : bool) : t :=
  mk (Message e) (LamportTimestamp e) (Frame e) (FlagTableBytes e) (RootTableBytes e)
     v (Clotho e) (Atropos e) (AtroposTimestamp e) (FrameReceived e).
Definition withClotho (e : t) (v : bool) : t :=
  mk (Message e) (LamportTimestamp e) (Frame e) (FlagTableBytes e) (RootTableBytes e)
     (Root e) v (Atropos e) (AtroposTimestamp e) (FrameReceived e).
Definition withAtropos (e : t) (v : bool) : t :=
  mk (Message e) (LamportTimestamp e) (Frame e) (FlagTableBytes e) (RootTableBytes e)
     (Root e) (Clotho e) v (AtroposTimestamp e) (FrameReceived e).
Definition withAtroposTimestamp (e : t) (v : Z) : t :=
  mk (Message e) (LamportTimestamp e) (Frame e) (FlagTableBytes e) (RootTableBytes e)
     (Root e) (Clotho e) (Atropos e) v (FrameReceived e).
Definition withFrameReceived (e : t) (v : Z) : t :=
  mk (Message e) (LamportTimestamp e) (Frame e) (FlagTableBytes e) (RootTableBytes e)
     (Root e) (Clotho e) (Atropos e) (AtroposTimestamp e) v.

(** [event.Message.TopologicalIndex = i] *)
Definition withTopologicalIndex (e : t) (i : Z) : t :=
  let m := Message e in
  withMessage e
    (EventMessage.mk (EventMessage.Body m) (EventMessage.SignatureR m)
       (EventMessage.SignatureS m) (EventMessage.SelfParentIndex m)
       (EventMessage.OtherParentCreatorID m) (EventMessage.OtherParentIndex m)
       (EventMessage.CreatorID m) i (EventMessage.Hash m)).

(** [event.SetWireInfo(selfParentIndex, otherParentCreatorID,
    otherParentIndex, creatorID)] *)
Definition SetWireInfo (e : t) (spi opc opi cid : Z) : t :=
  let m := Message e in
  withMessage e
    (EventMessage.mk (EventMessage.Body m) (EventMessage.SignatureR m)
       (EventMessage.SignatureS m) spi opc opi cid
       (EventMessage.TopologicalIndex m) (EventMessage.Hash m)).

(** The zero value [Event{}] that the store hands back with an error. *)
Definition zero : t :=
  mk (EventMessage.mk (EventBody.mk [] 0 0 EmptyString 0 []) 0 0 0 0 0 0 0 0)
     0 0 (Marshal ∅) (Marshal ∅) false false false 0 0.
End Event.

(** ** Roots *)

Module RootEvent.
Record t := mk {
  Hash : Z;
  CreatorID : Z;
  Index : Z;
  LamportTimestamp : Z;
  Round : Z
}.
End RootEvent.

Module Root.
Record t := mk {
  NextRound : Z;
  SelfParent : RootEvent.t;
  Others : gmap Z RootEvent.t      (* keyed by the hash of the event *)
}.
Definition zero : t := mk 0 (RootEvent.mk 0 0 0 0 0) ∅.
End Root.

(** ** Peers *)

Module Peer.
Record t := mk {
  ID : Z;
  NetAddr : string;
  PubKeyHex : string
}.
End Peer.

Module Peers.
Record t := mk {
  ByPubKey : gmap string Peer.t
}.
Definition ReadByPubKey (ps : t) (k : string) : option Peer.t := ByPubKey ps !! k.
Definition Len (ps : t) : Z := Z.of_nat (size (ByPubKey ps)).
End Peers.

(** ** Blocks *)

Module Block.
Record t := mk {
  Index : Z;
  RoundReceived : Z;
  Transactions : list string;
  Signatures : gmap string string      (* validator hex => signature *)
}.
End Block.

(** ** Frames *)

Module Frame.
Record t := mk {
  Round : Z;
  Roots : list Root.t;
  Events : list EventMessage.t;
  StateHash : Z
}.
Definition zero : t := mk 0 [] [] 0.
End Frame.

(** ** The environment: Go's map iteration and the files outside the sources *)

Class Env := {
  (** the order in which a [range] loop visits a map *)
  range : ∀ {A : Type}, gmap Z A → list (Z * A);
  range_perm : ∀ (A : Type) (m : gmap Z A), range m ≡ₚ map_to_list m;
  (** event.go *)
  Verify : Event.t → bool * option error;
  IsLoaded : Event.t → bool;
  MergeFlagTable : Event.t → gmap Z Z → Z → gmap Z Z * option error;
  ToEvent : EventMessage.t → Event.t;
  LamportTimestampNIL : Z;
  FrameNIL : Z;
  NewBaseRoot : Z → Root.t;
  HashBytes : TableBytes → Z;
  (** peers *)
  SuperMajority : Peers.t → Z;
  TrustCount : Peers.t → Z;
  ToPeerSlice : Peers.t → list Peer.t;
  ToPubKeySlice : Peers.t → list string;
  (** the state database behind [ApplyInternalTransactions]: the state root
      reached from a previous root by the internal transactions of the
      events *)
  commitState : Peers.t → Z → list Event.t → Z * option error;
  FakeGenesis : Peers.t → Z;
  (** the store's helpers: badger's key-not-found test, the per-participant
      event index and the rolling index of consensus events *)
  isDBKeyNotFound : option error → bool;
  ParticipantEventsCache : Type;
  NewParticipantEventsCache : Peers.t → ParticipantEventsCache;
  pecReset : ParticipantEventsCache → ParticipantEventsCache * option error;
  pecSet : ParticipantEventsCache → string → Z → Z → ParticipantEventsCache * option error;
  pecGetLast : ParticipantEventsCache → string → Z * option error;
  RollingIndex : Type;
  NewRollingIndex : RollingIndex;
  riSet : RollingIndex → Z → Z → RollingIndex * option error;
  (** block.go *)
  BlockVerify : Block.t → BlockSignature.t → bool * option error;
  BlockSetSignature : Block.t → BlockSignature.t → Block.t * option error
}.

(** A loop body that may [continue] ([Ret tt]), return an error or stop the
    process; the loop stops at the first outcome that is not [Ret]. *)
Fixpoint forEach {S X : Type} (body : S → X → S * outcome unit) (l : list X) (s : S)
  : S * outcome unit :=
  match l with
  | [] => (s, Ret tt)
  | x :: l' =>
      match body s x with
      | (s', Ret _) => forEach body l' s'
      | r => r
      end
  end.

(** ** The in-memory store *)

Record RoundCreated := mkRoundCreated { Queued : bool }.

Section Store.
Context `{Env}.

Record InmemStore := mkInmemStore {
  eventCache : gmap Z Event.t;
  roundCreatedCache : gmap Z RoundCreated;
  roundReceivedCache : gmap Z (list Z);
  blockCache : gmap Z Block.t;
  frameCache : gmap Z Frame.t;
  clothoCheckCache : gmap (Z * Z) Z;           (* (frame, hash) => hash *)
  clothoCheckCreatorCache : gmap (Z * Z) Z;    (* (frame, creator id) => hash *)
  timeTableCache : gmap Z (gmap Z Z);
  consensusCache : RollingIndex;
  totConsensusEvents : Z;
  participantEventsCache : ParticipantEventsCache;
  rootsByParticipant : gmap string Root.t;
  lastRound : Z;
  lastConsensusEvents : gmap string Z;
  lastBlock : Z;
  stateRoot : Z
}.

Definition withEventCache (s : InmemStore) (v : gmap Z Event.t) : InmemStore :=
  mkInmemStore v (roundCreatedCache s) (roundReceivedCache s) (blockCache s) (frameCache s)
    (clothoCheckCache s) (clothoCheckCreatorCache s) (timeTableCache s)
    (consensusCache s) (totConsensusEvents s) (participantEventsCache s)
    (rootsByParticipant s) (lastRound s) (lastConsensusEvents s) (lastBlock s) (stateRoot s).

Definition withParticipantEventsCache (s : InmemStore) (v : ParticipantEventsCache)
  : InmemStore :=
  mkInmemStore (eventCache s) (roundCreatedCache s) (roundReceivedCache s) (blockCache s) (frameCache s)
    (clothoCheckCache s) (clothoCheckCreatorCache s) (timeTableCache s)
    (consensusCache s) (totConsensusEvents s) v
    (rootsByParticipant s) (lastRound s) (lastConsensusEvents s) (lastBlock s) (stateRoot s).

Definition withRoundCreated (s : InmemStore) (v : gmap Z RoundCreated) (l : Z)
  : InmemStore :=
  mkInmemStore (eventCache s) v (roundReceivedCache s) (blockCache s) (frameCache s)
    (clothoCheckCache s) (clothoCheckCreatorCache s) (timeTableCache s)
    (consensusCache s) (totConsensusEvents s) (participantEventsCache s)
    (rootsByParticipant s) l (lastConsensusEvents s) (lastBlock s) (stateRoot s).

Definition withBlocks (s : InmemStore) (v : gmap Z Block.t) (l : Z) : InmemStore :=
  mkInmemStore (eventCache s) (roundCreatedCache s) (roundReceivedCache s) v (frameCache s)
    (clothoCheckCache s) (clothoCheckCreatorCache s) (timeTableCache s)
    (consensusCache s) (totConsensusEvents s) (participantEventsCache s)
    (rootsByParticipant s) (lastRound s) (lastConsensusEvents s) l (stateRoot s).

Definition withClothoChecks (s : InmemStore) (v w : gmap (Z * Z) Z) : InmemStore :=
  mkInmemStore (eventCache s) (roundCreatedCache s) (roundReceivedCache s) (blockCache s) (frameCache s)
    v w (timeTableCache s)
    (consensusCache s) (totConsensusEvents s) (participantEventsCache s)
    (rootsByParticipant s) (lastRound s) (lastConsensusEvents s) (lastBlock s) (stateRoot s).

Definition withTimeTableCache (s : InmemStore) (v : gmap Z (gmap Z Z)) : InmemStore :=
  mkInmemStore (eventCache s) (roundCreatedCache s) (roundReceivedCache s) (blockCache s) (frameCache s)
    (clothoCheckCache s) (clothoCheckCreatorCache s) v
    (consensusCache s) (totConsensusEvents s) (participantEventsCache s)
    (rootsByParticipant s) (lastRound s) (lastConsensusEvents s) (lastBlock s) (stateRoot s).

Definition withConsensus (s : InmemStore) (c : RollingIndex) (n : Z) (l : gmap string Z)
  : InmemStore :=
  mkInmemStore (eventCache s) (roundCreatedCache s) (roundReceivedCache s) (blockCache s) (frameCache s)
    (clothoCheckCache s) (clothoCheckCreatorCache s) (timeTableCache s)
    c n (participantEventsCache s)
    (rootsByParticipant s) (lastRound s) l (lastBlock s) (stateRoot s).

Definition withFrameCache (s : InmemStore) (v : gmap Z Frame.t) : InmemStore :=
  mkInmemStore (eventCache s) (roundCreatedCache s) (roundReceivedCache s) (blockCache s)
    v (clothoCheckCache s) (clothoCheckCreatorCache s) (timeTableCache s)
    (consensusCache s) (totConsensusEvents s) (participantEventsCache s)
    (rootsByParticipant s) (lastRound s) (lastConsensusEvents s) (lastBlock s)
    (stateRoot s).

(** [RootsBySelfParent]: the roots keyed by the hash of their self-parent
    descriptor (the store rebuilds this map whenever the roots change). *)
Definition RootsBySelfParent (s : InmemStore) : gmap Z Root.t :=
  foldr (λ kr acc, <[RootEvent.Hash (Root.SelfParent kr.2) := kr.2]> acc) ∅
    (map_to_list (rootsByParticipant s)).

Definition GetEventBlock (s : InmemStore) (hash : Z) : Event.t * option error :=
  match eventCache s !! hash with
  | Some e => (e, None)
  | None => (Event.zero, Some (StoreErr "EventCache" KeyNotFound))
  end.

Definition addParticipantEvent (s : InmemStore) (participant : string) (hash index : Z)
  : InmemStore * option error :=
  let '(c, err) := pecSet (participantEventsCache s) participant hash index in
  (withParticipantEventsCache s c, err).

Definition SetEvent (s : InmemStore) (event : Event.t) : InmemStore * option error :=
  let eventHash := Event.Hash event in
  let '(_, err) := GetEventBlock s eventHash in
  if bool_decide (err ≠ None) && negb (Is err KeyNotFound) then (s, err)
  else
    let '(s1, err1) :=
      if Is err KeyNotFound
      then addParticipantEvent s (Event.GetCreator event) eventHash (Event.Index event)
      else (s, None) in
    match err1 with
    | Some e => (s1, Some e)
    | None => (withEventCache s1 (<[eventHash := event]> (eventCache s1)), None)
    end.

Definition LastEventFrom (s : InmemStore) (participant : string)
  : Z * bool * option error :=
  let '(last, err) := pecGetLast (participantEventsCache s) participant in
  if bool_decide (err = None) || negb (Is err Empty) then (last, false, err)
  else
    match rootsByParticipant s !! participant with
    | Some root => (RootEvent.Hash (Root.SelfParent root), true, None)
    | None => (last, false, Some (StoreErr "InmemStore.Roots" NoRoot))
    end.

Definition AddConsensusEvent (s : InmemStore) (event : Event.t) : InmemStore * option error :=
  let '(c, err) := riSet (consensusCache s) (Event.Hash event) (totConsensusEvents s) in
  match err with
  | Some e => (withConsensus s c (totConsensusEvents s) (lastConsensusEvents s), Some e)
  | None =>
      (withConsensus s c (int64 (totConsensusEvents s + 1))
         (<[Event.GetCreator event := Event.Hash event]> (lastConsensusEvents s)), None)
  end.

Definition SetRoundCreated (s : InmemStore) (r : Z) (round : RoundCreated)
  : InmemStore * option error :=
  (withRoundCreated s (<[r := round]> (roundCreatedCache s))
     (if r >? lastRound s then r else lastRound s), None).

Definition GetRoot (s : InmemStore) (participant : string) : Root.t * option error :=
  match rootsByParticipant s !! participant with
  | Some r => (r, None)
  | None => (Root.zero, Some (StoreErr "RootCache" KeyNotFound))
  end.

Definition GetBlock (s : InmemStore) (index : Z) : Block.t * option error :=
  match blockCache s !! index with
  | Some b => (b, None)
  | None => (Block.mk 0 0 [] ∅, Some (StoreErr "BlockCache" KeyNotFound))
  end.

Definition SetBlock (s : InmemStore) (block : Block.t) : InmemStore * option error :=
  let index := Block.Index block in
  let '(_, err) := GetBlock s index in
  if bool_decide (err ≠ None) && negb (Is err KeyNotFound) then (s, err)
  else
    (withBlocks s (<[index := block]> (blockCache s))
       (if index >? lastBlock s then index else lastBlock s), None).

Definition AddClothoCheck (s : InmemStore) (frame creatorID hash : Z)
  : InmemStore * option error :=
  (withClothoChecks s (<[(frame, hash) := hash]> (clothoCheckCache s))
     (<[(frame, creatorID) := hash]> (clothoCheckCreatorCache s)), None).

Definition GetClothoCheck (s : InmemStore) (frame phash : Z) : Z * option error :=
  match clothoCheckCache s !! (frame, phash) with
  | Some h => (h, None)
  | None => (0, Some (StoreErr "ClothoCheckCache" KeyNotFound))
  end.

Definition GetClothoCreatorCheck (s : InmemStore) (frame creatorID : Z) : Z * option error :=
  match clothoCheckCreatorCache s !! (frame, creatorID) with
  | Some h => (h, None)
  | None => (0, Some (StoreErr "ClothoCheckCreatorCache" KeyNotFound))
  end.

Definition AddTimeTable (s : InmemStore) (hashTo hashFrom lamportTime : Z)
  : InmemStore * option error :=
  let ft := default NewFlagTable (timeTableCache s !! hashTo) in
  (withTimeTableCache s (<[hashTo := <[hashFrom := lamportTime]> ft]> (timeTableCache s)),
   None).

Definition GetTimeTable (s : InmemStore) (hash : Z) : gmap Z Z * option error :=
  match timeTableCache s !! hash with
  | Some ft => (ft, None)
  | None => (∅, Some (StoreErr "GetTimeTableCache" KeyNotFound))
  end.

Definition LastConsensusEventFrom (s : InmemStore) (participant : string)
  : Z * bool * option error :=
  match lastConsensusEvents s !! participant with
  | Some last => (last, false, None)
  | None =>
      match rootsByParticipant s !! participant with
      | Some root => (RootEvent.Hash (Root.SelfParent root), true, None)
      | None => (0, false, Some (StoreErr "InmemStore.Roots" NoRoot))
      end
  end.

Definition GetRoundReceived (s : InmemStore) (r : Z) : list Z * option error :=
  match roundReceivedCache s !! r with
  | Some rounds => (rounds, None)
  | None => ([], Some (StoreErr "RoundReceivedCache" KeyNotFound))
  end.

Definition GetFrame (s : InmemStore) (index : Z) : Frame.t * option error :=
  match frameCache s !! index with
  | Some f => (f, None)
  | None => (Frame.zero, Some (StoreErr "FrameCache" KeyNotFound))
  end.

Definition SetFrame (s : InmemStore) (frame : Frame.t) : InmemStore * option error :=
  let index := Frame.Round frame in
  let '(_, err) := GetFrame s index in
  if bool_decide (err ≠ None) && negb (Is err KeyNotFound) then (s, err)
  else (withFrameCache s (<[index := frame]> (frameCache s)), None).

Definition StateRoot (s : InmemStore) : Z := stateRoot s.

Definition NewInmemStore (participants : Peers.t) : InmemStore :=
  mkInmemStore ∅ ∅ ∅ ∅ ∅ ∅ ∅ ∅ NewRollingIndex 0
    (NewParticipantEventsCache participants)
    ((λ pid, NewBaseRoot (Peer.ID pid)) <$> Peers.ByPubKey participants)
    (-1) ∅ (-1) (FakeGenesis participants).

(** [InmemStore.Reset]: the block and frame caches, the last consensus
    events and their count are kept. *)
Definition StoreReset (s : InmemStore) (roots : gmap string Root.t)
  : InmemStore * option error :=
  let '(c, err) := pecReset (participantEventsCache s) in
  (mkInmemStore ∅ ∅ ∅ (blockCache s) (frameCache s) ∅ ∅ ∅ NewRollingIndex
     (totConsensusEvents s) c roots (-1) (lastConsensusEvents s) (-1) (stateRoot s),
   err).

End Store.

(** ** The poset *)

(** [CountMap] (clotho => lamport time => number of votes) and its [Inc]. *)
Definition NewCountMap : gmap Z (gmap Z Z) := ∅.

Definition Inc (cm : gmap Z (gmap Z Z)) (key val : Z) : gmap Z (gmap Z Z) :=
  let inner := default ∅ (cm !! key) in
  <[key := <[val := uint64 (default 0 (inner !! val) + 1)]> inner]> cm.

Definition incCcTemp (ccTemp : gmap Z (gmap Z Z)) (frame hash : Z) : gmap Z (gmap Z Z) :=
  let inner := default ∅ (ccTemp !! frame) in
  match inner !! hash with
  | Some v => <[frame := <[hash := int64 (v + 1)]> inner]> ccTemp
  | None => <[frame := <[hash := 1]> inner]> ccTemp
  end.

Definition updateCcList (ccList : gmap Z (gmap Z Z)) (frame hash val : Z)
  : gmap Z (gmap Z Z) :=
  let inner := default ∅ (ccList !! frame) in
  match inner !! hash with
  | Some cval =>
      if cval <? val then <[frame := <[hash := val]> inner]> ccList
      else <[frame := inner]> ccList
  | None => <[frame := <[hash := val]> inner]> ccList
  end.

Section Poset.
Context `{Env}.

Record Poset := mkPoset {
  Participants : Peers.t;
  Store : InmemStore;
  UndeterminedEvents : list Z;
  LastConsensusRound : option Z;
  FirstConsensusRound : option Z;
  AnchorBlock : option Z;
  SigPool : list BlockSignature.t;
  ConsensusTransactions : Z;
  pendingLoadedEvents : Z;
  topologicalIndex : Z;
  roundCache : gmap Z Z;
  timestampCache : gmap Z Z
}.

Definition withStore (p : Poset) (s : InmemStore) : Poset :=
  mkPoset (Participants p) s (UndeterminedEvents p) (LastConsensusRound p)
    (FirstConsensusRound p) (AnchorBlock p) (SigPool p) (ConsensusTransactions p)
    (pendingLoadedEvents p) (topologicalIndex p) (roundCache p) (timestampCache p).

Definition withUndeterminedEvents (p : Poset) (v : list Z) : Poset :=
  mkPoset (Participants p) (Store p) v (LastConsensusRound p)
    (FirstConsensusRound p) (AnchorBlock p) (SigPool p) (ConsensusTransactions p)
    (pendingLoadedEvents p) (topologicalIndex p) (roundCache p) (timestampCache p).

Definition withConsensusRounds (p : Poset) (l f : option Z) : Poset :=
  mkPoset (Participants p) (Store p) (UndeterminedEvents p) l f
    (AnchorBlock p) (SigPool p) (ConsensusTransactions p)
    (pendingLoadedEvents p) (topologicalIndex p) (roundCache p) (timestampCache p).

Definition withAnchorBlock (p : Poset) (v : option Z) : Poset :=
  mkPoset (Participants p) (Store p) (UndeterminedEvents p) (LastConsensusRound p)
    (FirstConsensusRound p) v (SigPool p) (ConsensusTransactions p)
    (pendingLoadedEvents p) (topologicalIndex p) (roundCache p) (timestampCache p).

Definition withSigPool (p : Poset) (v : list BlockSignature.t) : Poset :=
  mkPoset (Participants p) (Store p) (UndeterminedEvents p) (LastConsensusRound p)
    (FirstConsensusRound p) (AnchorBlock p) v (ConsensusTransactions p)
    (pendingLoadedEvents p) (topologicalIndex p) (roundCache p) (timestampCache p).

Definition withConsensusTransactions (p : Poset) (v : Z) : Poset :=
  mkPoset (Participants p) (Store p) (UndeterminedEvents p) (LastConsensusRound p)
    (FirstConsensusRound p) (AnchorBlock p) (SigPool p) v
    (pendingLoadedEvents p) (topologicalIndex p) (roundCache p) (timestampCache p).

Definition withPendingLoadedEvents (p : Poset) (v : Z) : Poset :=
  mkPoset (Participants p) (Store p) (UndeterminedEvents p) (LastConsensusRound p)
    (FirstConsensusRound p) (AnchorBlock p) (SigPool p) (ConsensusTransactions p)
    v (topologicalIndex p) (roundCache p) (timestampCache p).

Definition withTopologicalIndex (p : Poset) (v : Z) : Poset :=
  mkPoset (Participants p) (Store p) (UndeterminedEvents p) (LastConsensusRound p)
    (FirstConsensusRound p) (AnchorBlock p) (SigPool p) (ConsensusTransactions p)
    (pendingLoadedEvents p) v (roundCache p) (timestampCache p).

Definition withRoundCache (p : Poset) (v : gmap Z Z) : Poset :=
  mkPoset (Participants p) (Store p) (UndeterminedEvents p) (LastConsensusRound p)
    (FirstConsensusRound p) (AnchorBlock p) (SigPool p) (ConsensusTransactions p)
    (pendingLoadedEvents p) (topologicalIndex p) v (timestampCache p).

Definition withTimestampCache (p : Poset) (v : gmap Z Z) : Poset :=
  mkPoset (Participants p) (Store p) (UndeterminedEvents p) (LastConsensusRound p)
    (FirstConsensusRound p) (AnchorBlock p) (SigPool p) (ConsensusTransactions p)
    (pendingLoadedEvents p) (topologicalIndex p) (roundCache p) v.

(** *** Setters and getters *)

Definition setLastConsensusRound (p : Poset) (i : Z) : Poset :=
  withConsensusRounds p (Some i)
    (match FirstConsensusRound p with
     | None => Some i
     | Some f => Some f
     end).

Definition setAnchorBlock (p : Poset) (i : Z) : Poset := withAnchorBlock p (Some i).

Definition GetLastConsensusRound (p : Poset) : Z :=
  match LastConsensusRound p with
  | None => -2        (* -2 is less that undefined round index, -1 *)
  | Some i => i
  end.

Definition GetSuperMajority (p : Poset) : Z := SuperMajority (Participants p).

Definition GetTrustCount (p : Poset) : Z := TrustCount (Participants p).

Definition NextTopologicalIndex (p : Poset) : Poset * Z :=
  (withTopologicalIndex p (int64 (topologicalIndex p + 1)), topologicalIndex p).

(** *** The parent checks *)

Definition checkSelfParent (p : Poset) (event : Event.t) : option error :=
  let selfParent := Event.SelfParent event in
  let creator := Event.GetCreator event in
  let '(creatorLastKnown, _, err) := LastEventFrom (Store p) creator in
  match err with
  | Some e => Some e
  | None =>
      if bool_decide (selfParent = creatorLastKnown) then None
      else Some (Errorf "self-parent not last known event by creator")
  end.

Definition checkOtherParent (p : Poset) (event : Event.t) : option error :=
  let otherParent := Event.OtherParent event in
  if negb (otherParent =? 0) then
    let '(_, err) := GetEventBlock (Store p) otherParent in
    match err with
    | Some _ =>
        let '(root, err) := GetRoot (Store p) (Event.GetCreator event) in
        match err with
        | Some e => Some e
        | None =>
            match Root.Others root !! Event.Hash event with
            | Some other =>
                if otherParent =? RootEvent.Hash other then None
                else Some (Errorf "other-parent not known")
            | None => Some (Errorf "other-parent not known")
            end
        end
    | None => None
    end
  else None.

Definition setWireInfo (p : Poset) (event : Event.t) : Event.t * option error :=
  match Peers.ReadByPubKey (Participants p) (Event.GetCreator event) with
  | None => (event, Some (Errorf "creator %s not found"))
  | Some creator =>
      let '(selfParent, err) := GetEventBlock (Store p) (Event.SelfParent event) in
      match err with
      | Some e => (event, Some e)
      | None =>
          let '(otherParent, err) := GetEventBlock (Store p) (Event.OtherParent event) in
          match err with
          | Some e => (event, Some e)
          | None =>
              match Peers.ReadByPubKey (Participants p) (Event.GetCreator otherParent) with
              | None => (event, Some (Errorf "creator %s not found"))
              | Some otherParentCreator =>
                  (Event.SetWireInfo event (Event.Index selfParent)
                     (Peer.ID otherParentCreator) (Event.Index otherParent)
                     (Peer.ID creator), None)
              end
          end
      end
  end.

(** *** Atropos time *)

Definition accountEvent (p : Poset) (ev : Event.t) : Poset * outcome unit :=
  let p1 := setLastConsensusRound p (Event.Frame ev) in
  let p2 := if IsLoaded ev
            then withPendingLoadedEvents p1 (int64 (pendingLoadedEvents p1 - 1))
            else p1 in
  let '(s, err) := AddConsensusEvent (Store p2) ev in
  match err with
  | Some _ => (withStore p2 s, Abort)                         (* panic(err) *)
  | None =>
      let p3 := withStore p2 s in
      (withConsensusTransactions p3
         (uint64 (ConsensusTransactions p3 + Z.of_nat (length (Event.Transactions ev)))),
       Ret tt)
  end.

(** One parent of [AssignAtroposTime2]: [parent] was found in the store;
    [recurse] is the recursive call.  The result carries the parent as it
    was written back. *)
Definition followParent (recurse : Poset → Event.t → Z → Poset * outcome Z)
    (p : Poset) (parent : Event.t) (frame : Z) : Poset * outcome Event.t :=
  let '(parent1, follow1) :=
    if Event.FrameReceived parent =? 0
    then (Event.withFrameReceived parent frame, true)
    else (parent, false) in
  let step2 : Poset * outcome (Event.t * bool) :=
    if Event.AtroposTimestamp parent1 =? 0 then
      match recurse p parent1 frame with
      | (p1, Ret atroposTime) =>
          let parent2 := Event.withAtroposTimestamp parent1 atroposTime in
          match accountEvent p1 parent2 with
          | (p2, Ret _) => (p2, Ret (parent2, true))
          | (p2, Fail e) => (p2, Fail e)
          | (p2, Abort) => (p2, Abort)
          end
      | (p1, Fail e) => (p1, Fail e)
      | (p1, Abort) => (p1, Abort)
      end
    else (p, Ret (parent1, follow1)) in
  match step2 with
  | (p2, Ret (parent2, follow)) =>
      if follow then
        match SetEvent (Store p2) parent2 with
        | (s, Some _) => (withStore p2 s, Abort)              (* logger.Fatal *)
        | (s, None) => (withStore p2 s, Ret parent2)
        end
      else (p2, Ret parent2)
  | (p2, Fail e) => (p2, Fail e)
  | (p2, Abort) => (p2, Abort)
  end.

(** [AssignAtroposTime2]; the recursion follows the parents that have no
    atropos timestamp and is bounded by [fuel] (running out of it stands for
    a call stack that never unwinds). *)
Fixpoint AssignAtroposTime2 (fuel : nat) (p : Poset) (e : Event.t) (frame : Z)
  : Poset * outcome Z :=
  match fuel with
  | O => (p, Abort)
  | S fuel' =>
      let '(selfParent, selfErr) := GetEventBlock (Store p) (Event.SelfParent e) in
      let r1 : Poset * outcome unit :=
        match selfErr with
        | None =>
            match followParent (AssignAtroposTime2 fuel') p selfParent frame with
            | (p1, Ret _) => (p1, Ret tt)
            | (p1, Fail e') => (p1, Fail e')
            | (p1, Abort) => (p1, Abort)
            end
        | Some _ => (p, Ret tt)
        end in
      match r1 with
      | (p1, Ret _) =>
          let '(otherParent, otherErr) := GetEventBlock (Store p1) (Event.OtherParent e) in
          match otherErr with
          | None =>
              match followParent (AssignAtroposTime2 fuel') p1 otherParent frame with
              | (p2, Ret otherParent') => (p2, Ret (Event.LamportTimestamp otherParent'))
              | (p2, Fail e') => (p2, Fail e')
              | (p2, Abort) => (p2, Abort)
              end
          | Some _ => (p1, Ret (Event.LamportTimestamp e))
          end
      | (p1, Fail e') => (p1, Fail e')
      | (p1, Abort) => (p1, Abort)
      end
  end.

(** *** Clotho checking *)

Definition ccLevel3 (s : InmemStore) (ccTemp : gmap Z (gmap Z Z)) (kv : Z * Z)
  : gmap Z (gmap Z Z) * outcome unit :=
  let '(rrkey, rrval) := kv in
  let '(_, err) := GetClothoCheck s rrval rrkey in
  if isDBKeyNotFound err then (ccTemp, Ret tt)
  else
    match err with
    | Some e => (ccTemp, Fail (Wrapf "ClothoChecking(): GetClothoCheck(rrval, rrkey): %v" e))
    | None => (incCcTemp ccTemp rrval rrkey, Ret tt)
    end.

Definition ccLevel2 (s : InmemStore) (ccTemp : gmap Z (gmap Z Z)) (kv : Z * Z)
  : gmap Z (gmap Z Z) * outcome unit :=
  let '(rkey, rval) := kv in
  let '(prevPrevRoot, err) := GetClothoCheck s rval rkey in
  if isDBKeyNotFound err then (ccTemp, Ret tt)
  else
    match err with
    | Some e => (ccTemp, Fail (Wrapf "ClothoChecking(): GetClothoCheck(rval, rkey): %v" e))
    | None =>
        let '(prevPrevRootEvent, err) := GetEventBlock s prevPrevRoot in
        match err with
        | Some e => (ccTemp, Fail (Wrapf "GetEventBlock(prevPrevRoot): %v" e))
        | None =>
            let '(prevPrevRootTable, err) := Event.GetRootTable prevPrevRootEvent in
            match err with
            | Some e =>
                (ccTemp,
                 Fail (Wrapf "ClothoChecking() prevPrevRootEvent.GetRootTable(): %v" e))
            | None => forEach (ccLevel3 s) (range prevPrevRootTable) ccTemp
            end
        end
    end.

(** The merge of one [ccTemp] into [ccList]. *)
Definition mergeCcTemp (ccTemp ccList : gmap Z (gmap Z Z)) : gmap Z (gmap Z Z) :=
  foldl (λ acc fm,
           foldl (λ acc' hv, updateCcList acc' fm.1 hv.1 hv.2) acc (range fm.2))
        ccList (range ccTemp).

Definition ccLevel1 (s : InmemStore) (ccList : gmap Z (gmap Z Z)) (kv : Z * Z)
  : gmap Z (gmap Z Z) * outcome unit :=
  let '(key, val) := kv in
  let '(prevRoot, err) := GetClothoCheck s val key in
  if isDBKeyNotFound err then (ccList, Ret tt)
  else
    match err with
    | Some e => (ccList, Fail (Wrapf "ClothoChecking(): GetClothoCheck(): %v" e))
    | None =>
        let '(prevRootEvent, err) := GetEventBlock s prevRoot in
        match err with
        | Some e => (ccList, Fail (Wrapf "GetEventBlock(prevRoot): %v" e))
        | None =>
            let '(prevRootTable, err) := Event.GetRootTable prevRootEvent in
            match err with
            | Some e =>
                (ccList, Fail (Wrapf "ClothoChecking() prevRootEvent.GetRootTable(): %v" e))
            | None =>
                match forEach (ccLevel2 s) (range prevRootTable) ∅ with
                | (ccTemp, Ret _) => (mergeCcTemp ccTemp ccList, Ret tt)
                | (_, Fail e) => (ccList, Fail e)
                | (_, Abort) => (ccList, Abort)
                end
            end
        end
    end.

(** The body of the last loop: one [(key, val)] of [ccList[frame]]. *)
Definition ccPromote (superMajority : Z) (e : Event.t) (frame : Z)
    (s : InmemStore) (kv : Z * Z) : InmemStore * outcome unit :=
  let '(key, val) := kv in
  if uint64 val >=? superMajority then
    let '(rootKey, err) := GetClothoCheck s frame key in
    match err with
    | Some e' => (s, Fail (Wrapf "ClothoChecking(): GetClothoCheck(frame, key): %v" e'))
    | None =>
        let '(root, err) := GetEventBlock s rootKey in
        match err with
        | Some e' => (s, Fail (Wrapf "ClothoChecking() GetEventBlock(key): %v" e'))
        | None =>
            if negb (Event.Clotho root) then
              let root' := Event.withClotho root true in
              match SetEvent s root' with
              | (s1, Some e') => (s1, Fail (Wrapf "ClothoChecking() SetEvent(): %v" e'))
              | (s1, None) =>
                  ((AddTimeTable s1 (Event.Hash e) (Event.Hash root')
                      (Event.LamportTimestamp e)).1, Ret tt)
              end
            else
              ((AddTimeTable s (Event.Hash e) (Event.Hash root)
                  (Event.LamportTimestamp e)).1, Ret tt)
        end
    end
  else (s, Ret tt).

Definition ClothoChecking (p : Poset) (e : Event.t) : Poset * outcome unit :=
  let '(rootTable, err) := Event.GetRootTable e in
  match err with
  | Some e' => (p, Fail (Wrapf "ClothoChecking() e.GetRootTable(): %v" e'))
  | None =>
      match forEach (ccLevel1 (Store p)) (range rootTable) ∅ with
      | (ccList, Ret _) =>
          let '(s, r) :=
            forEach (λ s fm, forEach (ccPromote (GetSuperMajority p) e fm.1) (range fm.2) s)
              (range ccList) (Store p) in
          (withStore p s, r)
      | (_, Fail e') => (p, Fail e')
      | (_, Abort) => (p, Abort)
      end
  end.

(** *** Atropos time selection *)

(** The coin round: the least time among the votes. *)
Definition coinVote (val : gmap Z Z) : Z * Z :=
  foldl (λ acc tc,
           let '(maxVal, maxInd) := acc in
           let '(time, count) := tc in
           if maxVal =? 0 then (count, time)
           else if time <? maxInd then (maxVal, time)
           else (maxVal, maxInd))
        (0, 0) (range val).

(** A regular round: the most frequent time, the least one among ties. *)
Definition majorityVote (val : gmap Z Z) : Z * Z :=
  foldl (λ acc tc,
           let '(maxVal, maxInd) := acc in
           let '(time, count) := tc in
           if (maxVal =? 0) || (count >? maxVal) then (count, time)
           else if (count =? maxVal) && (time <? maxInd) then (maxVal, time)
           else (maxVal, maxInd))
        (0, 0) (range val).

(** The first loop: the votes of the roots in [e]'s root table. *)
Definition collectVotes (s : InmemStore) (cm : gmap Z (gmap Z Z)) (kv : Z * Z)
  : gmap Z (gmap Z Z) * outcome unit :=
  let '(prevKey, _) := kv in
  let '(timeTable, err) := GetTimeTable s prevKey in
  match err with
  | Some e => (cm, Fail e)
  | None => (foldl (λ acc kv', Inc acc kv'.1 kv'.2) cm (range timeTable), Ret tt)
  end.

(** The promotion of [clotho] to atropos (the body of
    [if !clotho.Atropos] under [maxVal >= p.GetSuperMajority()]). *)
Definition promoteAtropos (fuel : nat) (p : Poset) (clotho : Event.t)
  : Poset * outcome unit :=
  let clotho1 := Event.withFrameReceived (Event.withAtropos clotho true)
                   (Event.Frame clotho) in
  let r1 : Poset * outcome unit :=
    if Event.AtroposTimestamp clotho1 =? 0 then accountEvent p clotho1 else (p, Ret tt) in
  match r1 with
  | (p1, Ret _) =>
      match AssignAtroposTime2 fuel p1 clotho1 (Event.Frame clotho1) with
      | (p2, Ret atroposTime) =>
          let clotho2 := Event.withAtroposTimestamp clotho1 atroposTime in
          match SetEvent (Store p2) clotho2 with
          | (s, Some _) => (withStore p2 s, Abort)            (* logger.Fatal *)
          | (s, None) => (withStore p2 s, Ret tt)
          end
      | (p2, Fail e) => (p2, Fail e)
      | (p2, Abort) => (p2, Abort)
      end
  | r => r
  end.

(** The body of the second loop: the votes [val] collected for [key]. *)
Definition atroposStep (fuel : nat) (e : Event.t) (p : Poset) (kv : Z * gmap Z Z)
  : Poset * outcome unit :=
  let '(key, val) := kv in
  let c := 4 in
  let '(clotho, err) := GetEventBlock (Store p) key in
  match err with
  | Some _ => (p, Ret tt)
  | None =>
      if Event.Atropos clotho then (p, Ret tt)
      else if Z.rem (int64 (Event.Frame e - Event.Frame clotho)) c =? 0 then
        let '(_, maxInd) := coinVote val in
        (withStore p (AddTimeTable (Store p) (Event.Hash e) key maxInd).1, Ret tt)
      else
        let '(maxVal, maxInd) := majorityVote val in
        if maxVal >=? GetSuperMajority p then
          if negb (Event.Atropos clotho) then promoteAtropos fuel p clotho
          else (p, Ret tt)
        else (withStore p (AddTimeTable (Store p) (Event.Hash e) key maxInd).1, Ret tt)
  end.

Definition AtroposTimeSelection (fuel : nat) (p : Poset) (e : Event.t)
  : Poset * outcome unit :=
  let '(rootTable, err) := Event.GetRootTable e in
  match err with
  | Some e' => (p, Fail e')
  | None =>
      match forEach (collectVotes (Store p)) (range rootTable) NewCountMap with
      | (countMap, Ret _) => forEach (atroposStep fuel e) (range countMap) p
      | (_, Fail e') => (p, Fail e')
      | (_, Abort) => (p, Abort)
      end
  end.

End Poset.

(** ** Insertion *)

Section Insert.
Context `{Env}.

(** What the frame assignment of [InsertEvent] computes. *)
Record FrameAssignment := mkFrameAssignment {
  faFlagTable : gmap Z Z;
  faRootTable : gmap Z Z;
  faRoot : bool;
  faFrame : Z
}.

(** The three-way comparison of the parents' frames in [InsertEvent];
    [parentEvent] and [otherParentEvent] are what the store returned for the
    two parents (the zero event for a parent it does not hold). *)
Definition assignFrame (p : Poset) (parentEvent otherParentEvent : Event.t)
  : outcome FrameAssignment :=
  if Event.Frame parentEvent =? Event.Frame otherParentEvent then
    let '(otherFlagTable, err) := Event.GetFlagTable otherParentEvent in
    match err with
    | Some e => Fail (Wrapf "AddSelfEventBlock() otherParentEvent.GetFlagTable(): %v" e)
    | None =>
        let '(flagTable, err) :=
          MergeFlagTable parentEvent otherFlagTable (Event.Frame parentEvent) in
        match err with
        | Some e => Fail (Wrapf "AddSelfEventBlock() parentEvent.MergeFlagTable(): %v" e)
        | None =>
            if Z.of_nat (size flagTable) >=? GetSuperMajority p then
              Ret (mkFrameAssignment NewFlagTable flagTable true
                     (int64 (Event.Frame parentEvent + 1)))
            else
              Ret (mkFrameAssignment flagTable ∅ false (Event.Frame parentEvent))
        end
    end
  else if Event.Frame parentEvent >? Event.Frame otherParentEvent then
    let '(flagTable, err) := Event.GetFlagTable parentEvent in
    match err with
    | Some e => Fail (Wrapf "parentEvent.GetFlagTable(): %v" e)
    | None => Ret (mkFrameAssignment flagTable ∅ false (Event.Frame parentEvent))
    end
  else
    let Frame := Event.Frame otherParentEvent in
    let '(otherRoot, err) :=
      GetClothoCreatorCheck (Store p) (Event.Frame otherParentEvent)
        (Event.CreatorID otherParentEvent) in
    match err with
    | Some e => Fail (Wrapf "GetClothoCheck(otherParentEvent.Frame=%v, otherHead=%v): %v" e)
    | None =>
        let '(otherRootEvent, _) := GetEventBlock (Store p) otherRoot in
        let '(otherRootTable, err) := Event.GetRootTable otherRootEvent in
        match err with
        | Some e => Fail (Wrapf "otherRootEvent.GetFlagTable(): %v" e)
        | None =>
            let '(rootTable, err) :=
              MergeFlagTable parentEvent otherRootTable (int64 (Frame - 1)) in
            match err with
            | Some e =>
                Fail (Wrapf "AddSelfEventBlock() parentEvent.MergeFlagTable(otherRootTable): %v" e)
            | None =>
                let '(flagTable, err) := Event.GetFlagTable otherParentEvent in
                match err with
                | Some e => Fail (Wrapf "otherParentEvent.GetFlagTable(): %v" e)
                | None => Ret (mkFrameAssignment flagTable rootTable true Frame)
                end
            end
        end
    end.

(** The event as [InsertEvent] hands it to the store: root flag, frame, the
    two tables and, when it has none yet, the Lamport timestamp. *)
Definition stampEvent (event parentEvent otherParentEvent : Event.t)
    (fa : FrameAssignment) : Event.t :=
  let event1 := Event.withRoot event (faRoot fa) in
  let flagTable :=
    if faRoot fa then <[Event.Hash event := faFrame fa]> (faFlagTable fa)
    else faFlagTable fa in
  let event2 := Event.withFrame event1 (faFrame fa) in
  let event3 := Event.withFlagTableBytes event2 (Marshal flagTable) in
  let event4 := Event.withRootTableBytes event3 (Marshal (faRootTable fa)) in
  if Event.GetLamportTimestamp event4 =? LamportTimestampNIL then
    let plt := Event.GetLamportTimestamp parentEvent in
    let opLT := Event.GetLamportTimestamp otherParentEvent in
    let plt := if opLT >? plt then opLT else plt in
    Event.SetLamportTimestamp event4 (int64 (plt + 1))
  else event4.

(** The body of [if Root] in [InsertEvent]: the new root enters the
    clotho-check index, then [ClothoChecking] and [AtroposTimeSelection]
    run on it. *)
Definition rootChecks (fuel : nat) (p : Poset) (event : Event.t) (Frame : Z)
  : Poset * outcome unit :=
  let '(s, err) :=
    AddClothoCheck (Store p) Frame (Event.CreatorID event) (Event.Hash event) in
  match err with
  | Some _ => (withStore p s, Abort)                          (* panic(err) *)
  | None =>
      match ClothoChecking (withStore p s) event with
      | (p1, Ret _) =>
          match AtroposTimeSelection fuel p1 event with
          | (p2, Ret _) => (p2, Ret tt)
          | (p2, Fail e) => (p2, Fail (Wrapf "AtroposTimeSelection(newHead):%v" e))
          | (p2, Abort) => (p2, Abort)
          end
      | (p1, Fail e) => (p1, Fail (Wrapf "CheckClotho(newHead):%v" e))
      | (p1, Abort) => (p1, Abort)
      end
  end.

(** The last statements of [InsertEvent]: the event joins the undetermined
    events, the loaded events are counted, the block signatures go to the
    pool. *)
Definition enqueueEvent (p : Poset) (event : Event.t) : Poset :=
  let p2 := withUndeterminedEvents p (UndeterminedEvents p ++ [Event.Hash event]) in
  let p3 := if IsLoaded event
            then withPendingLoadedEvents p2 (int64 (pendingLoadedEvents p2 + 1))
            else p2 in
  withSigPool p3 (SigPool p3 ++ Event.BlockSignatures event).

(** The part of [InsertEvent] that follows [Store.SetRoundCreated]. *)
Definition finishInsert (fuel : nat) (p : Poset) (event : Event.t) (Root : bool)
    (Frame : Z) : Poset * outcome unit :=
  match (if Root then rootChecks fuel p event Frame else (p, Ret tt)) with
  | (p1, Ret _) => (enqueueEvent p1 event, Ret tt)
  | r' => r'
  end.

(** [InsertEvent] up to the call of [Store.SetEvent]: the signature and
    the parents are checked, the frame is assigned, the event is stamped and
    numbered, and the wire information is set when asked for. *)
Definition prepareInsert (p : Poset) (event : Event.t) (setWireInfo_ : bool)
  : Poset * outcome (Event.t * FrameAssignment) :=
  match Verify event with
  | (false, Some err) => (p, Fail err)
  | (false, None) => (p, Fail (Errorf "invalid Event signature"))
  | (true, _) =>
  match checkSelfParent p event with
  | Some err => (p, Fail (Wrapf "CheckSelfParent: %s" err))
  | None =>
  match checkOtherParent p event with
  | Some err => (p, Fail (Wrapf "CheckOtherParent: %s" err))
  | None =>
  let '(parentEvent, _) := GetEventBlock (Store p) (Event.SelfParent event) in
  let '(otherParentEvent, _) := GetEventBlock (Store p) (Event.OtherParent event) in
  match assignFrame p parentEvent otherParentEvent with
  | Fail err => (p, Fail err)
  | Abort => (p, Abort)
  | Ret fa =>
  let event1 := stampEvent event parentEvent otherParentEvent fa in
  let '(p1, index) := NextTopologicalIndex p in
  let event2 := Event.withTopologicalIndex event1 index in
  let '(event3, err) :=
    if setWireInfo_ then setWireInfo p1 event2 else (event2, None) in
  match err with
  | Some e => (p1, Fail (Wrapf "SetWireInfo: %s" e))
  | None => (p1, Ret (event3, fa))
  end end end end end.

Definition InsertEvent (fuel : nat) (p : Poset) (event : Event.t) (setWireInfo_ : bool)
  : Poset * outcome unit :=
  match prepareInsert p event setWireInfo_ with
  | (p1, Ret (event3, fa)) =>
      match SetEvent (Store p1) event3 with
      | (s, Some e) => (withStore p1 s, Fail (Wrapf "SetEvent: %s" e))
      | (s, None) =>
          match SetRoundCreated s (faFrame fa) (mkRoundCreated false) with
          | (s', Some e) => (withStore p1 s', Fail e)
          | (s', None) =>
              finishInsert fuel (withStore p1 s') event3 (faRoot fa) (faFrame fa)
          end
      end
  | (p1, Fail e) => (p1, Fail e)
  | (p1, Abort) => (p1, Abort)
  end.

End Insert.

(** ** The Lamport clock *)

Section Lamport.
Context `{Env}.

(** [lamportTimestamp2]; [recurse] is [lamportTimestamp] on a parent.  The
    integer that Go returns beside an error is dropped. *)
Definition lamportTimestamp2 (recurse : Poset → Z → Poset * outcome Z)
    (p : Poset) (x : Z) : Poset * outcome Z :=
  match RootsBySelfParent (Store p) !! x with
  | Some r => (p, Ret (RootEvent.LamportTimestamp (Root.SelfParent r)))
  | None =>
  let '(ex, err) := GetEventBlock (Store p) x in
  match err with
  | Some e => (p, Fail e)
  | None =>
  let '(root, err) := GetRoot (Store p) (Event.GetCreator ex) in
  match err with
  | Some e => (p, Fail e)
  | None =>
  let selfParent := Event.SelfParent ex in
  let r1 : Poset * outcome Z :=
    if selfParent =? RootEvent.Hash (Root.SelfParent root)
    then (p, Ret (RootEvent.LamportTimestamp (Root.SelfParent root)))
    else recurse p selfParent in
  match r1 with
  | (p1, Ret plt) =>
      let otherParent := Event.OtherParent ex in
      if negb (otherParent =? 0) then
        let r2 : Poset * outcome Z :=
          match (GetEventBlock (Store p1) otherParent).2 with
          | None => recurse p1 otherParent
          | Some _ =>
              match Root.Others root !! x with
              | Some other =>
                  if otherParent =? RootEvent.Hash other
                  then (p1, Ret (RootEvent.LamportTimestamp other))
                  else (p1, Ret MinInt64)
              | None => (p1, Ret MinInt64)
              end
          end in
        match r2 with
        | (p2, Ret opLT) =>
            (p2, Ret (int64 ((if opLT >? plt then opLT else plt) + 1)))
        | r => r
        end
      else (p1, Ret (int64 (plt + 1)))
  | r => r
  end end end end.

(** [lamportTimestamp]: the cached clock.  The mutual recursion with
    [lamportTimestamp2] is bounded by [fuel]. *)
Fixpoint lamportTimestamp (fuel : nat) (p : Poset) (x : Z) : Poset * outcome Z :=
  match timestampCache p !! x with
  | Some c => (p, Ret c)
  | None =>
      match fuel with
      | O => (p, Abort)
      | S fuel' =>
          match lamportTimestamp2 (lamportTimestamp fuel') p x with
          | (p1, Ret r) => (withTimestampCache p1 (<[x := r]> (timestampCache p1)), Ret r)
          | r => r
          end
      end
  end.

End Lamport.

(** ** The signature pool *)

Section SigPool.
Context `{Env}.

(** [fmt.Sprintf("0x%X", bs.Validator)]: the [Validator] field holds the
    public key in that spelling. *)
Definition validatorHex (bs : BlockSignature.t) : string := BlockSignature.Validator bs.

Definition removeProcessedSignatures (p : Poset) (processedSignatures : gset Z) : Poset :=
  withSigPool p
    (filter (λ bs, BlockSignature.Index bs ∉ processedSignatures) (SigPool p)).

(** The body of the loop of [ProcessSigPool] for the signature [bs] at
    position [i]; the state is the poset with the set of processed
    positions. *)
Definition processSignature (st : Poset * gset Z) (ibs : Z * BlockSignature.t)
  : (Poset * gset Z) * outcome unit :=
  let '(p, processedSignatures) := st in
  let '(i, bs) := ibs in
  match Peers.ReadByPubKey (Participants p) (validatorHex bs) with
  | None => (st, Ret tt)
  | Some _ =>
      if bool_decide (AnchorBlock p = None)
         || (BlockSignature.Index bs >? default 0 (AnchorBlock p)) then
        let '(block, err) := GetBlock (Store p) (BlockSignature.Index bs) in
        match err with
        | Some _ => (st, Ret tt)
        | None =>
            match BlockVerify block bs with
            | (_, Some e) => (st, Fail e)
            | (false, None) => (st, Ret tt)
            | (true, None) =>
                match BlockSetSignature block bs with
                | (_, Some _) => (st, Abort)                  (* logger.Fatal *)
                | (block', None) =>
                    let p1 := withStore p (SetBlock (Store p) block').1 in
                    let p2 :=
                      if (Z.of_nat (size (Block.Signatures block')) >? GetTrustCount p1)
                         && (bool_decide (AnchorBlock p1 = None)
                             || (Block.Index block' >? default 0 (AnchorBlock p1)))
                      then setAnchorBlock p1 (Block.Index block')
                      else p1 in
                    ((p2, {[i]} ∪ processedSignatures), Ret tt)
                end
            end
        end
      else ((p, {[i]} ∪ processedSignatures), Ret tt)
  end.

Definition ProcessSigPool (p : Poset) : Poset * outcome unit :=
  let indexed := zip (map Z.of_nat (seq 0 (length (SigPool p)))) (SigPool p) in
  let '((p1, processedSignatures), r) := forEach processSignature indexed (p, ∅) in
  match r with
  | Abort => (p1, Abort)
  | _ => (removeProcessedSignatures p1 processedSignatures, r)
  end.

End SigPool.

(** ** Rounds, roots and frames *)

Section Frames.
Context `{Env}.

(** [round2]; [recurse] is [round] on a parent.  [RoundClothos] is read
    for the log only. *)
Definition round2 (recurse : Poset → Z → Poset * outcome Z) (p : Poset) (x : Z)
  : Poset * outcome Z :=
  match RootsBySelfParent (Store p) !! x with
  | Some r => (p, Ret (RootEvent.Round (Root.SelfParent r)))
  | None =>
  let '(ex, err) := GetEventBlock (Store p) x in
  match err with
  | Some e => (p, Fail e)
  | None =>
  let '(root, err) := GetRoot (Store p) (Event.GetCreator ex) in
  match err with
  | Some e => (p, Fail e)
  | None =>
  let attached :=
    (Event.SelfParent ex =? RootEvent.Hash (Root.SelfParent root))
    && ((Event.OtherParent ex =? 0)
        || match Root.Others root !! Event.Hash ex with
           | Some other => Event.OtherParent ex =? RootEvent.Hash other
           | None => false
           end) in
  if attached then (p, Ret (Root.NextRound root))
  else
    match recurse p (Event.SelfParent ex) with
    | (p1, Ret spRound) =>
        match recurse p1 (Event.OtherParent ex) with
        | (p2, Ret opRound) =>
            let parentRound := if opRound >? spRound then opRound else spRound in
            if parentRound =? FrameNIL then (p2, Ret 0)
            else
              let '(ft, _) := Event.GetFlagTable ex in
              if (Z.of_nat (size ft) >=? GetSuperMajority p2)
                 && (uint64 1 >=? GetSuperMajority p2)
              then (p2, Ret (int64 (parentRound + 1)))
              else (p2, Ret parentRound)
        | r => r
        end
    | r => r
    end
  end end end.

Fixpoint round (fuel : nat) (p : Poset) (x : Z) : Poset * outcome Z :=
  match roundCache p !! x with
  | Some c => (p, Ret c)
  | None =>
      match fuel with
      | O => (p, Abort)
      | S fuel' =>
          match round2 (round fuel') p x with
          | (p1, Ret r) => (withRoundCache p1 (<[x := r]> (roundCache p1)), Ret r)
          | r => r
          end
      end
  end.

Definition createSelfParentRootEvent (fuel : nat) (p : Poset) (ev : Event.t)
  : Poset * outcome RootEvent.t :=
  let sp := Event.SelfParent ev in
  match lamportTimestamp fuel p sp with
  | (p1, Ret spLT) =>
      match round fuel p1 sp with
      | (p2, Ret spRound) =>
          match Peers.ReadByPubKey (Participants p2) (Event.GetCreator ev) with
          | None => (p2, Fail (Errorf "creator %v not found"))
          | Some peer =>
              (p2, Ret (RootEvent.mk sp (Peer.ID peer) (int64 (Event.Index ev - 1))
                          spLT spRound))
          end
      | (p2, Fail e) => (p2, Fail e)
      | (p2, Abort) => (p2, Abort)
      end
  | (p1, Fail e) => (p1, Fail e)
  | (p1, Abort) => (p1, Abort)
  end.

Definition createOtherParentRootEvent (fuel : nat) (p : Poset) (ev : Event.t)
  : Poset * outcome RootEvent.t :=
  let op := Event.OtherParent ev in
  let '(root, err) := GetRoot (Store p) (Event.GetCreator ev) in
  match err with
  | Some e => (p, Fail e)
  | None =>
  let known :=
    match Root.Others root !! Event.Hash ev with
    | Some other => if op =? RootEvent.Hash other then Some other else None
    | None => None
    end in
  match known with
  | Some other => (p, Ret other)
  | None =>
  let '(otherParent, err) := GetEventBlock (Store p) op in
  match err with
  | Some e => (p, Fail e)
  | None =>
  match lamportTimestamp fuel p op with
  | (p1, Ret opLT) =>
      match round fuel p1 op with
      | (p2, Ret opRound) =>
          match Peers.ReadByPubKey (Participants p2) (Event.GetCreator otherParent) with
          | None => (p2, Fail (Errorf "other parent's creator %v not found"))
          | Some peer =>
              (p2, Ret (RootEvent.mk op (Peer.ID peer) (Event.Index otherParent)
                          opLT opRound))
          end
      | (p2, Fail e) => (p2, Fail e)
      | (p2, Abort) => (p2, Abort)
      end
  | (p1, Fail e) => (p1, Fail e)
  | (p1, Abort) => (p1, Abort)
  end end end end.

Definition createRoot (fuel : nat) (p : Poset) (ev : Event.t) : Poset * outcome Root.t :=
  match round fuel p (Event.Hash ev) with
  | (p1, Ret evRound) =>
      match createSelfParentRootEvent fuel p1 ev with
      | (p2, Ret selfParentRootEvent) =>
          if negb (Event.OtherParent ev =? 0) then
            match createOtherParentRootEvent fuel p2 ev with
            | (p3, Ret opre) =>
                (p3, Ret (Root.mk evRound selfParentRootEvent {[Event.Hash ev := opre]}))
            | (p3, Fail e) => (p3, Fail e)
            | (p3, Abort) => (p3, Abort)
            end
          else (p2, Ret (Root.mk evRound selfParentRootEvent ∅))
      | (p2, Fail e) => (p2, Fail e)
      | (p2, Abort) => (p2, Abort)
      end
  | (p1, Fail e) => (p1, Fail e)
  | (p1, Abort) => (p1, Abort)
  end.

(** [ApplyInternalTransactions]: the guard on the round and the choice of
    the previous state root; the state database does the rest. *)
Definition ApplyInternalTransactions (p : Poset) (round_ : Z) (orderedEvents : list Event.t)
  : Z * option error :=
  if round_ <=? 0 then (0, Some (Errorf "empty round is not allowed"))
  else
    let '(prevState, err) :=
      if round_ =? 1 then (StateRoot (Store p), None)
      else
        let '(prevFrame, err) := GetFrame (Store p) (int64 (round_ - 1)) in
        (Frame.StateHash prevFrame, err) in
    match err with
    | Some e => (0, Some e)
    | None => commitState (Participants p) prevState orderedEvents
    end.

(** The events of a round received, fetched from the store in the order of
    [round.Rounds]. *)
Fixpoint fetchEvents (s : InmemStore) (hashes : list Z) : outcome (list Event.t) :=
  match hashes with
  | [] => Ret []
  | eh :: rest =>
      let '(e, err) := GetEventBlock s eh in
      match err with
      | Some e' => Fail e'
      | None =>
          match fetchEvents s rest with
          | Ret es => Ret (e :: es)
          | r => r
          end
      end
  end.

End Frames.

(** *** The order of the events of a frame *)

(** Modelled from the spec: the tie-break key of [ByLamportTimestamp]
    (event.go is outside the sources).  The specification calls it the
    bytewise XOR of the event signature bytes viewed as a big-endian integer;
    a signature is the pair of big-endian integers R and S, and the bytewise
    XOR of two byte strings read as an integer is the [Z.lxor] of the two
    integers. *)
Definition signatureXOR (e : Event.t) : Z :=
  Z.lxor (EventMessage.SignatureR (Event.Message e))
         (EventMessage.SignatureS (Event.Message e)).

Section Ordering.
Context `{Env}.

(** Modelled from the spec: the sort key of [ByLamportTimestamp] (event.go
    is outside the sources): atropos timestamp, Lamport timestamp, hash of
    the flag table, signature XOR. *)
Definition sortKey (e : Event.t) : Z * Z * Z * Z :=
  (Event.AtroposTimestamp e, Event.LamportTimestamp e,
   HashBytes (Event.FlagTableBytes e), signatureXOR e).

(** Modelled from the spec: [ByLamportTimestamp.Less] (event.go is outside
    the sources), the ascending lexicographic order of the four components
    of [sortKey]. *)
Definition Less (a b : Event.t) : bool :=
  let '(a1, a2, a3, a4) := sortKey a in
  let '(b1, b2, b3, b4) := sortKey b in
  if negb (a1 =? b1) then a1 <? b1
  else if negb (a2 =? b2) then a2 <? b2
  else if negb (a3 =? b3) then a3 <? b3
  else a4 <? b4.

(** [sort.Stable]: the stable sort for [Less], by insertion from the right
    (a stable sort has one result, whatever the algorithm). *)
Fixpoint insertStable (x : Event.t) (l : list Event.t) : list Event.t :=
  match l with
  | [] => [x]
  | y :: l' => if Less y x then y :: insertStable x l' else x :: l
  end.

Definition sortStable (l : list Event.t) : list Event.t := foldr insertStable [] l.

End Ordering.

Section MakeFrame.
Context `{Env}.

(** First loop over the sorted events: a root for the creator of each. *)
Definition rootOfCreator (fuel : nat) (st : Poset * gmap string Root.t) (ev : Event.t)
  : (Poset * gmap string Root.t) * outcome unit :=
  let '(p, roots) := st in
  match roots !! Event.GetCreator ev with
  | Some _ => (st, Ret tt)
  | None =>
      match createRoot fuel p ev with
      | (p1, Ret root) => ((p1, <[Event.GetCreator ev := root]> roots), Ret tt)
      | (p1, Fail e) => ((p1, roots), Fail e)
      | (p1, Abort) => ((p1, roots), Abort)
      end
  end.

(** Second loop: a root for every participant without events in the frame. *)
Definition rootOfPeer (fuel : nat) (st : Poset * gmap string Root.t) (peer : string)
  : (Poset * gmap string Root.t) * outcome unit :=
  let '(p, roots) := st in
  match roots !! peer with
  | Some _ => (st, Ret tt)
  | None =>
      let '(lastConsensusEventHash, isRoot, err) := LastConsensusEventFrom (Store p) peer in
      match err with
      | Some e => (st, Fail e)
      | None =>
          if isRoot then ((p, <[peer := (GetRoot (Store p) peer).1]> roots), Ret tt)
          else
            let '(lastConsensusEvent, err) :=
              GetEventBlock (Store p) lastConsensusEventHash in
            match err with
            | Some e => (st, Fail e)
            | None =>
                match createRoot fuel p lastConsensusEvent with
                | (p1, Ret root) => ((p1, <[peer := root]> roots), Ret tt)
                | (p1, Fail e) => ((p1, roots), Fail e)
                | (p1, Abort) => ((p1, roots), Abort)
                end
            end
      end
  end.

(** Third loop: other-parents outside of the frame go to the creator's
    root. *)
Definition otherOfEvent (fuel : nat) (st : Poset * gmap string Root.t * gset Z)
    (ev : Event.t) : (Poset * gmap string Root.t * gset Z) * outcome unit :=
  let '(p, roots, treated) := st in
  let treated' := {[Event.Hash ev]} ∪ treated in
  let root := default Root.zero (roots !! Event.GetCreator ev) in
  if negb (Event.OtherParent ev =? 0)
     && negb (bool_decide (Event.OtherParent ev ∈ treated'))
     && negb (Event.SelfParent ev =? RootEvent.Hash (Root.SelfParent root))
  then
    match createOtherParentRootEvent fuel p ev with
    | (p1, Ret other) =>
        let root' := Root.mk (Root.NextRound root) (Root.SelfParent root)
                       (<[Event.Hash ev := other]> (Root.Others root)) in
        ((p1, <[Event.GetCreator ev := root']> roots, treated'), Ret tt)
    | (p1, Fail e) => ((p1, roots, treated'), Fail e)
    | (p1, Abort) => ((p1, roots, treated'), Abort)
    end
  else ((p, roots, treated'), Ret tt).

Definition MakeFrame (fuel : nat) (p : Poset) (roundReceived : Z)
  : Poset * outcome Frame.t :=
  let '(round_, err) := GetRoundReceived (Store p) roundReceived in
  match err with
  | Some e => (p, Fail e)
  | None =>
  match fetchEvents (Store p) round_ with
  | Fail e => (p, Fail e)
  | Abort => (p, Abort)
  | Ret fetched =>
  let events := sortStable fetched in
  let '(stateHash, err) := ApplyInternalTransactions p roundReceived events in
  match err with
  | Some e => (p, Fail e)
  | None =>
  match forEach (rootOfCreator fuel) events (p, ∅) with
  | ((p1, _), Fail e) => (p1, Fail e)
  | ((p1, _), Abort) => (p1, Abort)
  | ((p1, roots1), Ret _) =>
  match forEach (rootOfPeer fuel) (ToPubKeySlice (Participants p1)) (p1, roots1) with
  | ((p2, _), Fail e) => (p2, Fail e)
  | ((p2, _), Abort) => (p2, Abort)
  | ((p2, roots2), Ret _) =>
  match forEach (otherOfEvent fuel) events (p2, roots2, ∅) with
  | ((p3, _, _), Fail e) => (p3, Fail e)
  | ((p3, _, _), Abort) => (p3, Abort)
  | ((p3, roots3, _), Ret _) =>
  let eventMessages := map Event.Message events in
  let orderedRoots :=
    map (λ peer, default Root.zero (roots3 !! Peer.PubKeyHex peer))
        (ToPeerSlice (Participants p3)) in
  let res := Frame.mk roundReceived orderedRoots eventMessages stateHash in
  match SetFrame (Store p3) res with
  | (s, Some e) => (withStore p3 s, Fail e)
  | (s, None) => (withStore p3 s, Ret res)
  end end end end end end end.

End MakeFrame.

(** ** Construction and reset *)

Section Reset.
Context `{Env}.

Definition NewPoset (participants : Peers.t) (store : InmemStore) : Poset :=
  mkPoset participants store [] None None None [] 0 0 0 ∅ ∅.

(** The first statements of [Reset], up to the reset of the store: the
    consensus rounds and the anchor are forgotten, the queues and counters
    are emptied; the timestamp cache is the one cache that is kept. *)
Definition clearState (p : Poset) : Poset :=
  mkPoset (Participants p) (Store p) [] None None None (SigPool p)
    (ConsensusTransactions p) 0 0 ∅ (timestampCache p).

Definition Reset (fuel : nat) (p : Poset) (block : Block.t) (frame : Frame.t)
  : Poset * outcome unit :=
  let p0 := clearState p in
  let participants := ToPeerSlice (Participants p0) in
  if (length participants <? length (Frame.Roots frame))%nat then (p0, Abort)
  else
    let rootMap : gmap string Root.t :=
      foldl (λ acc pr, <[Peer.PubKeyHex pr.1 := pr.2]> acc) ∅
        (zip participants (Frame.Roots frame)) in
    match StoreReset (Store p0) rootMap with
    | (s, Some e) => (withStore p0 s, Fail e)
    | (s, None) =>
        match SetBlock s block with
        | (s1, Some e) => (withStore p0 s1, Fail e)
        | (s1, None) =>
            let p1 := setLastConsensusRound (withStore p0 s1) (Block.RoundReceived block) in
            forEach (λ q ev, InsertEvent fuel q (ToEvent ev) false) (Frame.Events frame) p1
        end
    end.

End Reset.

(** ** Quorum thresholds *)

(** Modelled from the spec: [Peers.GetSuperMajority] (the peers package is
    outside the sources).  Section 8 of the specification tabulates the
    threshold for 1 to 10 participants; this is the closed form of that
    table. *)
Definition superMajorityOf (n : Z) : Z := 2 * n / 3 + 1.

(** Modelled from the spec: [Peers.GetTrustCount] (the peers package is
    outside the sources), the floor of a third of the participants. *)
Definition trustCountOf (n : Z) : Z := n / 3.

(** Modelled from the spec: the supermajority formula of section 4.3 and of
    the glossary, twice the floor of a third plus one. *)
Definition superMajority_4_3 (n : Z) : Z := 2 * (n / 3) + 1.

(** Modelled from the spec: the supermajority formula of section 2, the
    ceiling of two thirds plus one. *)
Definition superMajority_2 (n : Z) : Z := (2 * n + 2) / 3 + 1.

(** ** The environment spelled out from the specification *)

(** Modelled from the spec: [Event.Verify] (event.go is outside the
    sources) checks the ECDSA signature of the body against the creator's
    key.  The curve arithmetic is not reproduced: this stand-in rejects the
    signatures that ECDSA rejects whatever the key (a zero R or S) and
    accepts the others. *)
Definition specVerify (e : Event.t) : bool * option error :=
  (negb (EventMessage.SignatureR (Event.Message e) =? 0)
   && negb (EventMessage.SignatureS (Event.Message e) =? 0), None).

(** Modelled from the spec: [Event.IsLoaded] (event.go is outside the
    sources); an event is loaded when it carries payload transactions. *)
Definition specIsLoaded (e : Event.t) : bool :=
  negb (bool_decide (Event.Transactions e = [])).

(** Modelled from the spec: [Event.MergeFlagTable] (event.go is outside the
    sources), the union of the event's flag table with the given one; an
    entry of the event's own table wins. *)
Definition specMergeFlagTable (e : Event.t) (dst : gmap Z Z) (frame : Z)
  : gmap Z Z * option error :=
  let '(src, err) := Unmarshal (Event.FlagTableBytes e) in
  match err with
  | Some e' => (∅, Some e')
  | None => (src ∪ dst, None)
  end.

(** Modelled from the spec: [EventMessage.ToEvent] (event.go is outside the
    sources), the message with unset engine fields. *)
Definition specToEvent (m : EventMessage.t) : Event.t :=
  Event.mk m (-1) (-1) (Marshal ∅) (Marshal ∅) false false false 0 0.

(** Modelled from the spec: [NewBaseRoot] (root.go is outside the sources):
    a self-parent descriptor with a pseudo-hash derived from the creator,
    index -1, Lamport timestamp -1 and round -1, and no others. *)
Definition specNewBaseRoot (creatorID : Z) : Root.t :=
  Root.mk 0 (RootEvent.mk (2 ^ 255 + creatorID) creatorID (-1) (-1) (-1)) ∅.

(** Modelled from the spec: the hash of a serialized flag table; a stand-in
    for the cryptographic hash. *)
Definition specHashBytes (b : TableBytes) : Z :=
  match b with
  | Marshal ft => foldr (λ kv acc, 31 * acc + kv.1 + kv.2) 7 (map_to_list ft)
  | Malformed => 0
  end.

(** Modelled from the spec: a rolling index (common package, outside the
    sources) as the last index with the items in index order.  Indices are
    gap-free: an index past the next one is refused, the next one is
    appended, an earlier one replaces the item it names. *)
Definition specRollingSet (ri : Z * list Z) (item index : Z) : (Z * list Z) * option error :=
  let '(lastIndex, items) := ri in
  if (0 <=? lastIndex) && (index >? lastIndex + 1)
  then (ri, Some (StoreErr "RollingIndex" SkippedIndex))
  else if (lastIndex <? 0) || (index =? lastIndex + 1)
  then ((index, items ++ [item]), None)
  else
    let oldest := lastIndex - Z.of_nat (length items) + 1 in
    if index <? oldest then (ri, Some (StoreErr "RollingIndex" TooLate))
    else ((lastIndex, <[Z.to_nat (index - oldest) := item]> items), None).

(** Modelled from the spec: the per-participant event index of the store
    (outside the sources), one rolling index per participant. *)
Definition specPecSet (c : gmap string (Z * list Z)) (participant : string)
    (hash index : Z) : gmap string (Z * list Z) * option error :=
  match c !! participant with
  | None => (c, Some (StoreErr "ParticipantEvents" UnknownParticipant))
  | Some ri =>
      let '(ri', err) := specRollingSet ri hash index in
      (<[participant := ri']> c, err)
  end.

(** Modelled from the spec: the last event recorded for a participant, or
    the [Empty] store error when there is none. *)
Definition specPecGetLast (c : gmap string (Z * list Z)) (participant : string)
  : Z * option error :=
  match c !! participant with
  | None => (0, Some (StoreErr "ParticipantEvents" UnknownParticipant))
  | Some (_, items) =>
      match last items with
      | Some h => (h, None)
      | None => (0, Some (StoreErr "ParticipantEvents" Empty))
      end
  end.

(** Modelled from the spec: [Block.Verify] (block.go is outside the
    sources); a stand-in for the signature check that accepts the non-empty
    signatures. *)
Definition specBlockVerify (b : Block.t) (bs : BlockSignature.t) : bool * option error :=
  (negb (bool_decide (BlockSignature.Signature bs = EmptyString)), None).

(** Modelled from the spec: [Block.SetSignature] (block.go is outside the
    sources) records the signature under the validator's key. *)
Definition specBlockSetSignature (b : Block.t) (bs : BlockSignature.t)
  : Block.t * option error :=
  (Block.mk (Block.Index b) (Block.RoundReceived b) (Block.Transactions b)
     (<[BlockSignature.Validator bs := BlockSignature.Signature bs]> (Block.Signatures b)),
   None).

(** Modelled from the spec: the spelled-out environment.  The participants
    are listed in the order of their keys; the state database is a stand-in
    that keeps the previous state root. *)
Definition specEnv : Env := {|
  range := λ A m, map_to_list m;
  range_perm := λ A m, Permutation_refl (map_to_list m);
  Verify := specVerify;
  IsLoaded := specIsLoaded;
  MergeFlagTable := specMergeFlagTable;
  ToEvent := specToEvent;
  LamportTimestampNIL := -1;
  FrameNIL := -1;
  NewBaseRoot := specNewBaseRoot;
  HashBytes := specHashBytes;
  SuperMajority := λ ps, superMajorityOf (Peers.Len ps);
  TrustCount := λ ps, trustCountOf (Peers.Len ps);
  ToPeerSlice := λ ps, (map_to_list (Peers.ByPubKey ps)).*2;
  ToPubKeySlice := λ ps, (map_to_list (Peers.ByPubKey ps)).*1;
  commitState := λ _ prev _, (prev, None);
  FakeGenesis := λ _, 0;
  isDBKeyNotFound := λ err, Is err KeyNotFound;
  ParticipantEventsCache := gmap string (Z * list Z);
  NewParticipantEventsCache := λ ps, (λ _, (-1, [])) <$> Peers.ByPubKey ps;
  pecReset := λ c, ((λ _, (-1, [])) <$> c, None);
  pecSet := specPecSet;
  pecGetLast := specPecGetLast;
  RollingIndex := Z * list Z;
  NewRollingIndex := (-1, []);
  riSet := specRollingSet;
  BlockVerify := specBlockVerify;
  BlockSetSignature := specBlockSetSignature
|}.

(** ** Frames and the anchor block, read through the poset *)

Section PosetFrames.
Context `{Env}.

(** [Poset.GetFrame]: the frame of the store, or a new one from
    [MakeFrame] when the store has none. *)
Definition PosetGetFrame (fuel : nat) (p : Poset) (roundReceived : Z)
  : Poset * outcome Frame.t :=
  let '(frame, err) := GetFrame (Store p) roundReceived in
  if bool_decide (err = None) || negb (Is err KeyNotFound) then
    match err with
    | None => (p, Ret frame)
    | Some e => (p, Fail e)
    end
  else MakeFrame fuel p roundReceived.

(** [GetAnchorBlockWithFrame]: the anchor block and its frame. *)
Definition GetAnchorBlockWithFrame (fuel : nat) (p : Poset)
  : Poset * outcome (Block.t * Frame.t) :=
  match AnchorBlock p with
  | None => (p, Fail (Errorf "no Anchor Block"))
  | Some a =>
      let '(block, err) := GetBlock (Store p) a in
      match err with
      | Some e => (p, Fail e)
      | None =>
          match PosetGetFrame fuel p (Block.RoundReceived block) with
          | (p1, Ret frame) => (p1, Ret (block, frame))
          | (p1, Fail e) => (p1, Fail e)
          | (p1, Abort) => (p1, Abort)
          end
      end
  end.

End PosetFrames.

(** * Specification predicates and concrete scenarios *)

(** ** The consensus-round register *)

(** The two ways the sources write [LastConsensusRound]: a call of
    [setLastConsensusRound], and the clearing at the start of [Reset]. *)
Inductive roundOp :=
| RecordRound (i : Z)
| ForgetRounds.

(** The value the register holds after a sequence of writes that starts
    from a value [acc]. *)
Definition lastRecorded (acc : option Z) (ops : list roundOp) : option Z :=
  foldl (λ acc op, match op with RecordRound i => Some i | ForgetRounds => None end)
        acc ops.

Section RegisterOps.
Context `{Env}.

Definition applyRoundOp (p : Poset) (op : roundOp) : Poset :=
  match op with
  | RecordRound i => setLastConsensusRound p i
  | ForgetRounds => clearState p
  end.

End RegisterOps.

(** ** The signature pool *)

Section SigPoolPreds.
Context `{Env}.

(** The block a pass of [ProcessSigPool] attaches [bs] to: the validator is
    a participant, the index is above the anchor, the block is in the store
    and the signature verifies.  The result is the block with the signature
    set. *)
Definition signedBlock (p : Poset) (bs : BlockSignature.t) : option Block.t :=
  match Peers.ReadByPubKey (Participants p) (validatorHex bs) with
  | None => None
  | Some _ =>
      if bool_decide (AnchorBlock p = None)
         || (BlockSignature.Index bs >? default 0 (AnchorBlock p)) then
        match GetBlock (Store p) (BlockSignature.Index bs) with
        | (block, None) =>
            match BlockVerify block bs with
            | (true, None) =>
                match BlockSetSignature block bs with
                | (block', None) => Some block'
                | _ => None
                end
            | _ => None
            end
        | _ => None
        end
      else None
  end.

(** [i] is above the anchor [a] ([nil] is below every index). *)
Definition aboveAnchor (a : option Z) (i : Z) : Prop :=
  match a with
  | None => True
  | Some j => j < i
  end.



End SigPoolPreds.








(** ** Store invariants *)

(** The fields of an event that only [InsertEvent] writes: everything but
    the clotho and atropos flags, the atropos timestamp and the frame
    received. *)
Definition sameStatic (a b : Event.t) : Prop :=
  Event.Message a = Event.Message b
  ∧ Event.LamportTimestamp a = Event.LamportTimestamp b
  ∧ Event.Frame a = Event.Frame b
  ∧ Event.FlagTableBytes a = Event.FlagTableBytes b
  ∧ Event.RootTableBytes a = Event.RootTableBytes b
  ∧ Event.Root a = Event.Root b.

Section Invariants.
Context `{Env}.

(** Every event is stored under its own hash, and the clotho-check index
    maps a frame and a hash to that hash. *)
Definition storeKeyed (s : InmemStore) : Prop :=
  (∀ h e, eventCache s !! h = Some e → Event.Hash e = h)
  ∧ (∀ f h v, clothoCheckCache s !! (f, h) = Some v → v = h).

(** The hashes that the clotho-check index and the time tables point to. *)
Definition referenced (s : InmemStore) (h : Z) : Prop :=
  (∃ k, clothoCheckCache s !! k = Some h)
  ∨ (∃ hashTo tt, timeTableCache s !! hashTo = Some tt ∧ is_Some (tt !! h)).

(** No event is lost or added, no static field of a stored event changes,
    and what the indices point to stays pointed to. *)
Definition evolves (s s' : InmemStore) : Prop :=
  (∀ h e, eventCache s !! h = Some e →
          ∃ e', eventCache s' !! h = Some e' ∧ sameStatic e e')
  ∧ (∀ h, referenced s h → referenced s' h)
  ∧ (∀ h, eventCache s !! h = None → eventCache s' !! h = None).

(** The invariant of the store for a property [P] of the stored events and
    a property [Q] of the referenced ones. *)
Definition Inv (P Q : Event.t → Prop) (s : InmemStore) : Prop :=
  storeKeyed s
  ∧ (∀ h e, eventCache s !! h = Some e → P e)
  ∧ (∀ h e, referenced s h → eventCache s !! h = Some e → Q e).

(** What the flag updates of [ClothoChecking], [AtroposTimeSelection] and
    [AssignAtroposTime2] must preserve. *)
Record FlagClosed (P Q : Event.t → Prop) : Prop := mkFlagClosed {
  fc_clotho : ∀ x, P x → P (Event.withClotho x true);
  fc_time : ∀ x t, P x → P (Event.withAtroposTimestamp x t);
  fc_received : ∀ x f, P x → Event.FrameReceived x = 0 → P (Event.withFrameReceived x f);
  fc_promote : ∀ x, P x → Q x →
                    P (Event.withFrameReceived (Event.withAtropos x true) (Event.Frame x));
  fc_static : ∀ x y, sameStatic x y → Q x → Q y
}.

(** The state after a step: the invariant holds again and the store has
    evolved. *)
Definition Good (P Q : Event.t → Prop) (s s' : InmemStore) : Prop :=
  Inv P Q s' ∧ evolves s s'.

(** The property of the events for the atropos invariant: frames lie
    between 0 and [B], a root is not in frame 0, and an atropos is received
    in its own frame, which is not frame 0. *)
Definition atroposOk (B : Z) (e : Event.t) : Prop :=
  0 ≤ Event.Frame e ≤ B
  ∧ (Event.Root e = true → Event.Frame e ≠ 0)
  ∧ (Event.Atropos e = true →
     Event.FrameReceived e = Event.Frame e ∧ Event.Frame e ≠ 0).

Definition isRoot (e : Event.t) : Prop := Event.Root e = true.

(** The invariant behind "every atropos is received in its own frame". *)
Definition atroposInv (B : Z) (s : InmemStore) : Prop := Inv (atroposOk B) isRoot s.

(** The fields of the poset that [InsertEvent] leaves alone until the
    event is stored. *)
Definition sameButIndex (p p1 : Poset) : Prop :=
  Participants p1 = Participants p ∧ Store p1 = Store p
  ∧ UndeterminedEvents p1 = UndeterminedEvents p
  ∧ LastConsensusRound p1 = LastConsensusRound p
  ∧ FirstConsensusRound p1 = FirstConsensusRound p
  ∧ AnchorBlock p1 = AnchorBlock p ∧ SigPool p1 = SigPool p
  ∧ ConsensusTransactions p1 = ConsensusTransactions p
  ∧ pendingLoadedEvents p1 = pendingLoadedEvents p
  ∧ roundCache p1 = roundCache p ∧ timestampCache p1 = timestampCache p.

(** The hash is new to the store: no event is stored under it and nothing
    points to it. *)
Definition freshHash (s : InmemStore) (h : Z) : Prop :=
  eventCache s !! h = None ∧ ¬ referenced s h.

End Invariants.

(** ** A network of three participants *)

Definition threePeers : Peers.t :=
  Peers.mk {[ "0xA" := Peer.mk 1 "a:1" "0xA";
              "0xB" := Peer.mk 2 "b:1" "0xB";
              "0xC" := Peer.mk 3 "c:1" "0xC" ]}%string.

(** An event as the store holds it. *)
Definition storedEvent (hash selfParent otherParent : Z) (creator : string)
    (creatorID index lamport frame : Z) (flagTable rootTable : gmap Z Z) (root clotho : bool)
  : Event.t :=
  Event.mk
    (EventMessage.mk (EventBody.mk ["tx"%string] selfParent otherParent creator index [])
       5 9 (index - 1) 0 0 creatorID 0 hash)
    lamport frame (Marshal flagTable) (Marshal rootTable) root clotho false 0 0.

(** An event as it comes from the wire: no timestamp, no frame, no tables. *)
Definition wireEvent (hash selfParent otherParent : Z) (creator : string) (index : Z)
    (txs : list string) : Event.t :=
  Event.mk
    (EventMessage.mk (EventBody.mk txs selfParent otherParent creator index [])
       5 9 0 0 0 0 0 hash)
    (-1) (-1) (Marshal ∅) (Marshal ∅) false false false 0 0.

(** The leaves of B and C, a root of C in frame 1 that is a clotho, and the
    last events of A, B and C in frame 5; a root of B in frame 6 and B's
    root in frame 7. *)
Definition evB0 : Event.t := storedEvent 200 (2 ^ 255 + 2) 0 "0xB" 2 0 1 0 ∅ ∅ false false.
Definition evC0 : Event.t := storedEvent 300 (2 ^ 255 + 3) 0 "0xC" 3 0 1 0 ∅ ∅ false false.
Definition evC1 : Event.t :=
  storedEvent 400 300 200 "0xC" 3 1 2 1 {[ 400 := 1 ]} ∅ true true.
Definition evA5 : Event.t :=
  storedEvent 105 104 0 "0xA" 1 5 10 5 {[ 501 := 5; 502 := 5 ]} ∅ false false.
Definition evB5 : Event.t :=
  storedEvent 205 204 0 "0xB" 2 5 11 5 {[ 502 := 5; 503 := 5 ]} ∅ false false.
Definition evC5 : Event.t :=
  storedEvent 305 304 0 "0xC" 3 5 9 5 {[ 503 := 5; 504 := 5 ]} ∅ false false.
Definition evB6 : Event.t :=
  storedEvent 612 205 105 "0xB" 2 6 12 6 {[ 612 := 6 ]}
    {[ 501 := 5; 502 := 5; 503 := 5 ]} true false.
Definition evB7 : Event.t :=
  storedEvent 207 612 0 "0xB" 2 7 20 7 {[ 207 := 7 ]}
    {[ 611 := 6; 612 := 6; 613 := 6 ]} true false.

Definition demoStore : @InmemStore specEnv :=
  @mkInmemStore specEnv
    {[ 200 := evB0; 300 := evC0; 400 := evC1; 105 := evA5; 205 := evB5; 305 := evC5;
       612 := evB6; 207 := evB7 ]}
    ∅ ∅ ∅ ∅
    {[ (1, 400) := 400; (6, 612) := 612; (7, 207) := 207 ]}
    {[ (1, 3) := 400; (6, 2) := 612; (7, 2) := 207 ]}
    {[ 501 := {[ 400 := 7 ]}; 502 := {[ 400 := 7 ]}; 503 := {[ 400 := 7 ]};
       611 := {[ 400 := 8 ]}; 612 := {[ 400 := 8 ]}; 613 := {[ 400 := 8 ]} ]}
    (-1, []) 0
    ({[ "0xA" := (5, [105]); "0xB" := (7, [205; 612; 207]); "0xC" := (5, [305]) ]}%string
       : gmap string (Z * list Z))
    ((λ pid, specNewBaseRoot (Peer.ID pid)) <$> Peers.ByPubKey threePeers)
    7 ∅ (-1) 0.

Definition demoPoset : @Poset specEnv :=
  @mkPoset specEnv threePeers demoStore [] None None None [] 0 0 8 ∅ ∅.

(** A's next event on top of [evA5] and [evB5] (equal frames). *)
Definition ev600 : Event.t := wireEvent 600 105 205 "0xA" 6 ["pay"%string].



(** An event of A on top of [evA5] and B's root of frame 7. *)
Definition ev700 : Event.t := wireEvent 700 105 207 "0xA" 6 ["pay"%string].

(** An event of A on top of [evA5] and [evC5], whose flag table names the
    root 504 that has no time table. *)
Definition ev800 : Event.t := wireEvent 800 105 305 "0xA" 6 ["pay"%string].

(** The first event of A in a poset that holds nothing but the roots. *)
Definition freshPoset : @Poset specEnv :=
  @NewPoset specEnv threePeers (@NewInmemStore specEnv threePeers).

Definition ev100 : Event.t := wireEvent 100 (2 ^ 255 + 1) 0 "0xA" 0 ["pay"%string].

(** ** The root table of the specification for a self-parent in a lower frame *)

Section ClaimedTables.
Context `{Env}.

(** The root table as the specification words it: the self-parent's flag
    table merged with the root table of the root that the clotho-check index
    holds for the frame before the other-parent's and the other-parent's
    creator. *)
Definition specRootTableBelow (p : Poset) (sp op : Event.t) : gmap Z Z * option error :=
  let '(root, _) :=
    GetClothoCreatorCheck (Store p) (Event.Frame op - 1) (Event.CreatorID op) in
  let '(rootEvent, _) := GetEventBlock (Store p) root in
  MergeFlagTable sp (Event.GetRootTable rootEvent).1 (Event.Frame op - 1).

End ClaimedTables.

(** The poset after the insertion of an event, and what the insertion
    returned, for the scenarios below. *)
Definition inserted (p : Poset) (event : Event.t) : Poset :=
  (@InsertEvent specEnv 10 p event false).1.

Definition insertResult (p : Poset) (event : Event.t) : outcome unit :=
  (@InsertEvent specEnv 10 p event false).2.

(** ** Errors of the insertion *)

(** The formats of the errors that [InsertEvent] returns after it has
    written to the store. *)
Definition lateFormats : list string :=
  [ "SetEvent: %s"; "CheckClotho(newHead):%v"; "AtroposTimeSelection(newHead):%v" ]%string.

(** The error was returned after the store was written to. *)
Definition lateError (e : error) : bool :=
  match e with
  | Wrapf f _ => bool_decide (f ∈ lateFormats)
  | _ => false
  end.


(** ** The order of the events of a frame *)

(** The ascending lexicographic order of the keys. *)
Definition keyLe (a b : Z * Z * Z * Z) : Prop :=
  let '(a1, a2, a3, a4) := a in
  let '(b1, b2, b3, b4) := b in
  a1 < b1 ∨ (a1 = b1 ∧ (a2 < b2 ∨ (a2 = b2 ∧ (a3 < b3 ∨ (a3 = b3 ∧ a4 ≤ b4))))).

Section KeyOrder.
Context `{Env}.

(** [a] may come before [b] in a sorted frame. *)
Definition keyOrdered (a b : Event.t) : Prop := keyLe (sortKey a) (sortKey b).

End KeyOrder.

(** The leaves of A, B and C with their consensus times, received in
    round 1 in the order C, B, A. *)
Definition evA0 : Event.t := storedEvent 100 (2 ^ 255 + 1) 0 "0xA" 1 0 1 0 ∅ ∅ false false.

Definition leafStore : @InmemStore specEnv :=
  @mkInmemStore specEnv
    {[ 100 := Event.withAtroposTimestamp evA0 2;
       200 := Event.withAtroposTimestamp evB0 1;
       300 := Event.withAtroposTimestamp evC0 2 ]}
    ∅ {[ 1 := [300; 200; 100] ]} ∅ ∅ ∅ ∅ ∅
    (-1, []) 0
    ({[ "0xA" := (0, [100]); "0xB" := (0, [200]); "0xC" := (0, [300]) ]}%string
       : gmap string (Z * list Z))
    ((λ pid, specNewBaseRoot (Peer.ID pid)) <$> Peers.ByPubKey threePeers)
    0 ∅ (-1) 0.

Definition leafPoset : @Poset specEnv :=
  @mkPoset specEnv threePeers leafStore [] None None None [] 0 0 3 ∅ ∅.

(** The frame that [MakeFrame] returned, or the zero frame. *)
Definition frameOf (r : outcome Frame.t) : Frame.t :=
  match r with
  | Ret f => f
  | _ => Frame.zero
  end.

(** ** Atropos promotion *)

Section Promotion.
Context `{Env}.

(** The time that [AssignAtroposTime2] returns for an event: the Lamport
    timestamp of its other-parent when the store has it, its own Lamport
    timestamp otherwise. *)
Definition parentTime (s : InmemStore) (c : Event.t) : Z :=
  match eventCache s !! Event.OtherParent c with
  | Some op => Event.LamportTimestamp op
  | None => Event.LamportTimestamp c
  end.

(** The posets that [n] calls of [InsertEvent] lead to from [p0], whatever
    the calls return; the events come without the atropos flag and with
    hashes that are new to the store. *)
Inductive insertedFrom (p0 : Poset) : nat → Poset → Prop :=
  | insertedFrom_O : insertedFrom p0 0 p0
  | insertedFrom_S (n : nat) (p p' : Poset) (fuel : nat) (event : Event.t) (wire : bool)
      (r : outcome unit) :
      insertedFrom p0 n p →
      freshHash (Store p) (Event.Hash event) →
      Event.Atropos event = false →
      InsertEvent fuel p event wire = (p', r) →
      insertedFrom p0 (S n) p'.

End Promotion.

(** A root of A in frame 6 that looks at the votes for C's clotho 400. *)
Definition evA6 : Event.t :=
  storedEvent 600 105 205 "0xA" 1 6 12 6 {[ 600 := 6 ]}
    {[ 501 := 5; 502 := 5; 503 := 5 ]} true false.

(** The poset after the step of [AtroposTimeSelection] that finds three
    votes for the time 7 for the clotho 400. *)
Definition promoted : @Poset specEnv :=
  (@atroposStep specEnv 10 evA6 demoPoset (400, {[ 7 := 3 ]})).1.

(** The votes that the roots of a root table have cast. *)
Definition votesOf (s : @InmemStore specEnv) (rootTable : gmap Z Z) : gmap Z (gmap Z Z) :=
  (forEach (@collectVotes specEnv s) (@range specEnv _ rootTable) NewCountMap).1.

(** * Further predicates *)

Section Untouched.
Context `{Env}.

(** The fields of the store that the insertion of an event leaves alone. *)
Definition storeOutside (s s' : InmemStore) : Prop :=
  roundReceivedCache s' = roundReceivedCache s
  ∧ blockCache s' = blockCache s
  ∧ frameCache s' = frameCache s
  ∧ rootsByParticipant s' = rootsByParticipant s
  ∧ lastBlock s' = lastBlock s
  ∧ stateRoot s' = stateRoot s.

(** The fields of the poset that [ClothoChecking] and
    [AtroposTimeSelection] leave alone. *)
Definition sameOutside (p p' : Poset) : Prop :=
  Participants p' = Participants p
  ∧ UndeterminedEvents p' = UndeterminedEvents p
  ∧ AnchorBlock p' = AnchorBlock p
  ∧ SigPool p' = SigPool p
  ∧ topologicalIndex p' = topologicalIndex p
  ∧ roundCache p' = roundCache p
  ∧ timestampCache p' = timestampCache p
  ∧ storeOutside (Store p) (Store p').

End Untouched.

Section SigPoolPass.
Context `{Env}.

(** What a step of the pass keeps: everything but the blocks, the anchor
    and the set of processed positions. *)
Definition passKeeps (n : Z) (st st' : Poset * gset Z) : Prop :=
  SigPool st'.1 = SigPool st.1
  ∧ Participants st'.1 = Participants st.1
  ∧ UndeterminedEvents st'.1 = UndeterminedEvents st.1
  ∧ eventCache (Store st'.1) = eventCache (Store st.1)
  ∧ (∀ i, is_Some (blockCache (Store st.1) !! i) → is_Some (blockCache (Store st'.1) !! i))
  ∧ (AnchorBlock st'.1 = AnchorBlock st.1
     ∨ ∃ a, AnchorBlock st'.1 = Some a ∧ aboveAnchor (AnchorBlock st.1) a)
  ∧ (∀ i, i ∈ st'.2 → i ∈ st.2 ∨ 0 ≤ i < n).

End SigPoolPass.

(** Votes on the time of a clotho: two for time 7, two for time 5 and one
    for time 9. *)
Definition tiedVotes : gmap Z Z := <[7 := 2]> (<[5 := 2]> (<[9 := 1]> ∅)).

Section LamportCache.
Context `{Env}.

(** What a computation of a timestamp may change: the timestamp cache, by
    adding entries. *)
Definition stampsOnly (p p' : Poset) : Prop :=
  p' = withTimestampCache p (timestampCache p')
  ∧ timestampCache p ⊆ timestampCache p'.

End LamportCache.

(** The poset after the Lamport timestamp of [x] was computed. *)
Definition stamped (p : @Poset specEnv) (x : Z) : @Poset specEnv :=
  (@lamportTimestamp specEnv 10 p x).1.

Section CachesOnly.
Context `{Env}.

(** What a computation of a round may change: the round cache, by adding
    entries. *)
Definition roundsOnly (p p' : Poset) : Prop :=
  p' = withRoundCache p (roundCache p')
  ∧ roundCache p ⊆ roundCache p'.

(** What the construction of a root may change: the round cache and the
    timestamp cache, by adding entries. *)
Definition cachesOnly (p p' : Poset) : Prop :=
  p' = withRoundCache (withTimestampCache p (timestampCache p')) (roundCache p')
  ∧ timestampCache p ⊆ timestampCache p'
  ∧ roundCache p ⊆ roundCache p'.

End CachesOnly.

(** The poset after the frame of the round received [r] was made. *)
Definition framed (p : @Poset specEnv) (r : Z) : @Poset specEnv :=
  (@MakeFrame specEnv 10 p r).1.

Definition madeFrame (p : @Poset specEnv) (r : Z) : Frame.t :=
  frameOf (@MakeFrame specEnv 10 p r).2.

(** The poset after the round of [x] was computed. *)
Definition rounded (p : @Poset specEnv) (x : Z) : @Poset specEnv :=
  (@round specEnv 10 p x).1.

(** The block of round 1, and the poset after a reset from that block and
    the frame of round 1. *)
Definition blockOne : Block.t := Block.mk 1 1 ["tx"%string] ∅.

Definition restarted (p : @Poset specEnv) (r : Z) : @Poset specEnv :=
  (@Reset specEnv 10 (framed p r) blockOne (madeFrame p r)).1.

(** The poset of the three leaves with the block of round 1 as anchor. *)
Definition anchoredPoset : @Poset specEnv :=
  @setAnchorBlock specEnv
    (@withStore specEnv leafPoset (@SetBlock specEnv (Store leafPoset) blockOne).1) 1.

Definition anchorRead : @Poset specEnv :=
  (@GetAnchorBlockWithFrame specEnv 10 anchoredPoset).1.

Section ClothoPreds.
Context `{Env}.

(** The time table of [e] records the Lamport timestamp of [e] for [h]. *)
Definition entryFor (e : Event.t) (s : InmemStore) (h : Z) : Prop :=
  ∃ tt, timeTableCache s !! Event.Hash e = Some tt
        ∧ tt !! h = Some (Event.LamportTimestamp e).

(** What [ClothoChecking] for the root [e] may do to the store: raise the
    clotho flag of stored events, with an entry in the time table of [e]
    for each of them, and add entries to the time table of [e]. *)
Definition clothosRaised (e : Event.t) (s s' : InmemStore) : Prop :=
  (∀ h x, eventCache s !! h = Some x →
          ∃ x', eventCache s' !! h = Some x'
                ∧ (x' = x
                   ∨ (Event.Clotho x = false ∧ x' = Event.withClotho x true
                      ∧ entryFor e s' h)))
  ∧ (∀ h, eventCache s !! h = None → eventCache s' !! h = None)
  ∧ (∀ k, k ≠ Event.Hash e → timeTableCache s' !! k = timeTableCache s !! k)
  ∧ (∀ h, entryFor e s h → entryFor e s' h)
  ∧ clothoCheckCache s' = clothoCheckCache s
  ∧ clothoCheckCreatorCache s' = clothoCheckCreatorCache s.

End ClothoPreds.

(** Three rounds of roots of A, B and C, each root with the three roots of
    the frame before in its root table, and a root of A in frame 4. *)
Definition rootsOfFrame (f : Z) : gmap Z Z :=
  {[ 10 * f + 1 := f; 10 * f + 2 := f; 10 * f + 3 := f ]}.

Definition rootEvent (f : Z) (creator : string) (creatorID : Z) : Event.t :=
  storedEvent (10 * f + creatorID) (10 * (f - 1) + creatorID) 0 creator creatorID f (2 * f) f
    {[ 10 * f + creatorID := f ]} (if f =? 1 then ∅ else rootsOfFrame (f - 1)) true false.

Definition clothoStore : @InmemStore specEnv :=
  @mkInmemStore specEnv
    (list_to_map
       (map (λ e, (Event.Hash e, e))
          (f ← [1; 2; 3];
           [rootEvent f "0xA" 1; rootEvent f "0xB" 2; rootEvent f "0xC" 3])%string))
    ∅ ∅ ∅ ∅
    (list_to_map
       (f ← [1; 2; 3]; (λ c, ((f, 10 * f + c), 10 * f + c)) <$> [1; 2; 3]))
    (list_to_map
       (f ← [1; 2; 3]; (λ c, ((f, c), 10 * f + c)) <$> [1; 2; 3]))
    ∅ (-1, []) 0
    ({[ "0xA" := (3, [11; 21; 31]); "0xB" := (3, [12; 22; 32]);
        "0xC" := (3, [13; 23; 33]) ]}%string : gmap string (Z * list Z))
    ((λ pid, specNewBaseRoot (Peer.ID pid)) <$> Peers.ByPubKey threePeers)
    3 ∅ (-1) 0.

Definition clothoPoset : @Poset specEnv :=
  @mkPoset specEnv threePeers clothoStore [] None None None [] 0 0 9 ∅ ∅.

Definition evA4 : Event.t := rootEvent 4 "0xA" 1.

(** The poset after the clotho check for [evA4]. *)
Definition checked : @Poset specEnv := (@ClothoChecking specEnv clothoPoset evA4).1.

(** A root of A in frame 6 whose root table names the root 504, which has
    no time table. *)
Definition evA8 : Event.t :=
  storedEvent 800 105 305 "0xA" 1 6 12 6 {[ 800 := 6 ]} {[ 503 := 5; 504 := 5 ]} true false.

Section TimePreds.
Context `{Env}.

(** What [AssignAtroposTime2] with the frame [frame] may do to a stored
    event: set the frame received where it was 0, to [frame], and the
    atropos timestamp where it was 0. *)
Definition timed (frame : Z) (x x' : Event.t) : Prop :=
  x' = Event.withAtroposTimestamp
         (Event.withFrameReceived x (Event.FrameReceived x')) (Event.AtroposTimestamp x')
  ∧ (Event.FrameReceived x' = Event.FrameReceived x
     ∨ (Event.FrameReceived x = 0 ∧ Event.FrameReceived x' = frame))
  ∧ (Event.AtroposTimestamp x' = Event.AtroposTimestamp x
     ∨ Event.AtroposTimestamp x = 0).

Definition timesAssigned (frame : Z) (s s' : InmemStore) : Prop :=
  (∀ h x, eventCache s !! h = Some x →
          ∃ x', eventCache s' !! h = Some x' ∧ timed frame x x')
  ∧ (∀ h, eventCache s !! h = None → eventCache s' !! h = None)
  ∧ clothoCheckCache s' = clothoCheckCache s
  ∧ timeTableCache s' = timeTableCache s.

(** The state after a step of the traversal: the store is keyed again and
    the times were assigned. *)
Definition timeStep (frame : Z) (s s' : InmemStore) : Prop :=
  storeKeyed s' ∧ timesAssigned frame s s'.

End TimePreds.

(** The poset after the atropos time of the clotho 400 was assigned in
    frame 1. *)
Definition timedPoset : @Poset specEnv :=
  (@AssignAtroposTime2 specEnv 10 demoPoset evC1 1).1.

(** An event of A on top of [evA5] whose other-parent 999 is not known. *)
Definition ev900 : Event.t := wireEvent 900 105 999 "0xA" 6 ["pay"%string].

(** The count that a two-level map of [ClothoChecking] holds for a frame and
    a hash. *)
Definition cell (m : gmap Z (gmap Z Z)) (frame hash : Z) : option Z :=
  m !! frame ≫= λ inner, inner !! hash.

(** The root that [createRoot] makes for an event, and the poset after. *)
Definition rootOf (p : @Poset specEnv) (ev : Event.t) : Root.t :=
  match (@createRoot specEnv 10 p ev).2 with
  | Ret root => root
  | _ => Root.zero
  end.

Definition rooted (p : @Poset specEnv) (ev : Event.t) : @Poset specEnv :=
  (@createRoot specEnv 10 p ev).1.

(** The poset after [accountEvent] has counted [ev]. *)
Definition accounted (p : @Poset specEnv) (ev : Event.t) : @Poset specEnv :=
  (@accountEvent specEnv p ev).1.

(** * Theorems *)

(** ** Quorum thresholds *)

Lemma superMajorityOf_4_3 (n : Z) :
  0 ≤ n → (superMajorityOf n = superMajority_4_3 n ↔ n mod 3 ≠ 2).
Proof.
  intros Hn. unfold superMajorityOf, superMajority_4_3.
  Z.div_mod_to_equations. lia.
Qed.

Lemma superMajorityOf_2 (n : Z) :
  0 ≤ n → (superMajorityOf n = superMajority_2 n ↔ n mod 3 = 0).
Proof.
  intros Hn. unfold superMajorityOf, superMajority_2.
  Z.div_mod_to_equations. lia.
Qed.

(** C9 (amended): for 1 to 10 participants the supermajority is
    1,2,3,3,4,5,5,6,7,7 and the trust count is 0,0,1,1,1,2,2,2,3,3, which is
    what [GetSuperMajority] and [GetTrustCount] return in the spelled-out
    environment.  These are floor(2n/3)+1 and floor(n/3).  The formula
    2*floor(n/3)+1 gives the same supermajority exactly when n mod 3 is not
    2, and ceil(2n/3)+1 exactly when 3 divides n. *)
Theorem quorum_thresholds :
  map superMajorityOf [1; 2; 3; 4; 5; 6; 7; 8; 9; 10] = [1; 2; 3; 3; 4; 5; 5; 6; 7; 7]
  ∧ map trustCountOf [1; 2; 3; 4; 5; 6; 7; 8; 9; 10] = [0; 0; 1; 1; 1; 2; 2; 2; 3; 3]
  ∧ (∀ p : @Poset specEnv,
       @GetSuperMajority specEnv p = superMajorityOf (Peers.Len (Participants p))
       ∧ @GetTrustCount specEnv p = trustCountOf (Peers.Len (Participants p)))
  ∧ (∀ n, 0 ≤ n → (superMajorityOf n = superMajority_4_3 n ↔ n mod 3 ≠ 2))
  ∧ (∀ n, 0 ≤ n → (superMajorityOf n = superMajority_2 n ↔ n mod 3 = 0)).
Proof.
  repeat split; try reflexivity;
    try (apply superMajorityOf_4_3; assumption);
    try (apply superMajorityOf_2; assumption).
Qed.

(** C9, as stated, fails at two participants: the tabulated supermajority
    is 2, the formula of section 4.3 gives 1 and the formula of section 2
    gives 3. *)
Lemma quorum_formulas_disagree :
  superMajorityOf 2 = 2 ∧ superMajority_4_3 2 = 1 ∧ superMajority_2 2 = 3
  ∧ (superMajority_4_3 2 =? superMajorityOf 2) = false
  ∧ (superMajority_2 2 =? superMajorityOf 2) = false.
Proof. repeat split. Qed.

(** ** The last consensus round *)

Section LastConsensusRound.
Context `{Env}.

Lemma GetLastConsensusRound_ops (ops : list roundOp) (p : Poset) :
  GetLastConsensusRound (foldl applyRoundOp p ops)
  = default (-2) (lastRecorded (LastConsensusRound p) ops).
Proof.
  revert p. induction ops as [|op ops IH]; intros p; simpl.
  - unfold GetLastConsensusRound. destruct (LastConsensusRound p); reflexivity.
  - rewrite IH. destruct op; reflexivity.
Qed.

(** C10: [GetLastConsensusRound] returns -2, which is below the undefined
    round index -1, as long as no round was recorded since the poset was
    built or since [Reset] cleared it, and the value of the last
    [setLastConsensusRound] otherwise. *)
Theorem GetLastConsensusRound_spec :
  (∀ participants store, GetLastConsensusRound (NewPoset participants store) = -2)
  ∧ (∀ p, GetLastConsensusRound (clearState p) = -2)
  ∧ (∀ p i, GetLastConsensusRound (setLastConsensusRound p i) = i)
  ∧ (∀ participants store ops,
       GetLastConsensusRound (foldl applyRoundOp (NewPoset participants store) ops)
       = default (-2) (lastRecorded None ops))
  ∧ -2 < -1.
Proof.
  repeat split; try reflexivity.
  intros participants store ops. apply GetLastConsensusRound_ops.
Qed.

End LastConsensusRound.

(** ** The signature pool and the anchor block *)

Section Anchor.
Context `{Env}.

Lemma aboveAnchor_spec (a : option Z) (i : Z) :
  bool_decide (a = None) || (i >? default 0 a) = true ↔ aboveAnchor a i.
Proof.
  destruct a as [j|]; simpl.
  - apply Z.gtb_lt.
  - done.
Qed.

Lemma processSignature_anchor (p : Poset) (done : gset Z) (i : Z) (bs : BlockSignature.t) :
  AnchorBlock (processSignature (p, done) (i, bs)).1.1
  = match signedBlock p bs with
    | Some b =>
        if (Z.of_nat (size (Block.Signatures b)) >? GetTrustCount p)
           && (bool_decide (AnchorBlock p = None)
               || (Block.Index b >? default 0 (AnchorBlock p)))
        then Some (Block.Index b)
        else AnchorBlock p
    | None => AnchorBlock p
    end.
Proof.
  unfold processSignature, signedBlock.
  destruct (Peers.ReadByPubKey _ _); [|done].
  destruct (bool_decide (AnchorBlock p = None) || _) eqn:Hel; [|done].
  destruct (GetBlock _ _) as [block [e|]]; [done|].
  destruct (BlockVerify block bs) as [[|] [e|]]; try done.
  destruct (BlockSetSignature block bs) as [block' [e|]]; [done|].
  simpl. unfold GetTrustCount. simpl.
  destruct (_ && _); reflexivity.
Qed.

(** One turn of the loop of [ProcessSigPool], for the signature [bs]: the
    anchor moves exactly when [bs] is attached to a block that then holds
    more signatures than the trust count and whose index is above the
    anchor; it moves to the index of that block. *)
Lemma processSignature_anchor_iff (p : Poset) (done : gset Z) (i : Z) (bs : BlockSignature.t) :
  let p' := (processSignature (p, done) (i, bs)).1.1 in
  (AnchorBlock p' ≠ AnchorBlock p ↔
     ∃ b, signedBlock p bs = Some b
          ∧ GetTrustCount p < Z.of_nat (size (Block.Signatures b))
          ∧ aboveAnchor (AnchorBlock p) (Block.Index b))
  ∧ (∀ b, signedBlock p bs = Some b →
          GetTrustCount p < Z.of_nat (size (Block.Signatures b)) →
          aboveAnchor (AnchorBlock p) (Block.Index b) →
          AnchorBlock p' = Some (Block.Index b))
  ∧ (∀ b, signedBlock p bs = Some b →
          Z.of_nat (size (Block.Signatures b)) ≤ GetTrustCount p →
          AnchorBlock p' = AnchorBlock p).
Proof.
  intros p'. subst p'. rewrite processSignature_anchor.
  destruct (signedBlock p bs) as [b|] eqn:Hb.
  2: { repeat split; try done. intros (b' & [=] & _). }
  pose proof (aboveAnchor_spec (AnchorBlock p) (Block.Index b)) as Hab.
  pose proof (Z.gtb_lt (Z.of_nat (size (Block.Signatures b))) (GetTrustCount p)) as Hsz.
  destruct (Z.of_nat (size (Block.Signatures b)) >? GetTrustCount p);
    destruct (bool_decide (AnchorBlock p = None)
              || (Block.Index b >? default 0 (AnchorBlock p))); simpl.
  - assert (aboveAnchor (AnchorBlock p) (Block.Index b)) as Ha by (by apply Hab).
    assert (GetTrustCount p < Z.of_nat (size (Block.Signatures b))) as Hs by (by apply Hsz).
    repeat split.
    + intros _. exists b. done.
    + intros _ Heq. rewrite <- Heq in Ha. simpl in Ha. lia.
    + intros b' [= <-] _ _. done.
    + intros b' [= <-] ?. lia.
  - assert (¬ aboveAnchor (AnchorBlock p) (Block.Index b)) as Hn.
    { intros Ha. apply Hab in Ha. done. }
    repeat split; try done.
    + intros (b' & [= <-] & _ & ?). done.
    + intros b' [= <-] _ ?. done.
  - assert (¬ GetTrustCount p < Z.of_nat (size (Block.Signatures b))) as Hn.
    { intros Hs. apply Hsz in Hs. done. }
    repeat split; try done.
    + intros (b' & [= <-] & ? & _). done.
    + intros b' [= <-] ?. done.
  - assert (¬ GetTrustCount p < Z.of_nat (size (Block.Signatures b))) as Hn.
    { intros Hs. apply Hsz in Hs. done. }
    repeat split; try done.
    + intros (b' & [= <-] & ? & _). done.
    + intros b' [= <-] ?. done.
Qed.

(** The anchor never moves backwards in a pass. *)
Lemma processSignature_anchor_mono (st : Poset * gset Z) (ibs : Z * BlockSignature.t) :
  AnchorBlock (processSignature st ibs).1.1 = AnchorBlock st.1
  ∨ ∃ a, AnchorBlock (processSignature st ibs).1.1 = Some a ∧ aboveAnchor (AnchorBlock st.1) a.
Proof.
  destruct st as [p done], ibs as [i bs]. rewrite processSignature_anchor. simpl.
  destruct (signedBlock p bs) as [b|]; [|by left].
  destruct (_ >? _); simpl; [|by left].
  destruct (bool_decide _ || _) eqn:Hab; [|by left].
  right. exists (Block.Index b). split; [done|]. by apply aboveAnchor_spec.
Qed.

End Anchor.

Section AnchorPass.
Context `{Env}.










End AnchorPass.


(** ** Machine integers *)

Lemma int64_id (z : Z) : MinInt64 ≤ z ≤ MaxInt64 → int64 z = z.
Proof.
  unfold int64, MinInt64, MaxInt64. intros Hz.
  rewrite Z.mod_small by lia. lia.
Qed.

(** ** The evolution of the store *)

Lemma sameStatic_refl (a : Event.t) : sameStatic a a.
Proof. by repeat split. Qed.

Lemma sameStatic_sym (a b : Event.t) : sameStatic a b → sameStatic b a.
Proof. intros (? & ? & ? & ? & ? & ?). by repeat split. Qed.

Lemma sameStatic_trans (a b c : Event.t) : sameStatic a b → sameStatic b c → sameStatic a c.
Proof.
  intros (? & ? & ? & ? & ? & ?) (? & ? & ? & ? & ? & ?). repeat split; congruence.
Qed.

Lemma sameStatic_Hash (a b : Event.t) : sameStatic a b → Event.Hash a = Event.Hash b.
Proof. intros (Hm & _). unfold Event.Hash. by rewrite Hm. Qed.

Lemma sameStatic_withClotho (a : Event.t) v : sameStatic a (Event.withClotho a v).
Proof. by repeat split. Qed.

Lemma sameStatic_withAtropos (a : Event.t) v : sameStatic a (Event.withAtropos a v).
Proof. by repeat split. Qed.

Lemma sameStatic_withAtroposTimestamp (a : Event.t) v :
  sameStatic a (Event.withAtroposTimestamp a v).
Proof. by repeat split. Qed.

Lemma sameStatic_withFrameReceived (a : Event.t) v :
  sameStatic a (Event.withFrameReceived a v).
Proof. by repeat split. Qed.

(** Unfolds the field updates of the store and of the poset. *)
Ltac unfold_with :=
  unfold withEventCache, withParticipantEventsCache, withRoundCreated, withBlocks,
    withClothoChecks, withTimeTableCache, withConsensus, withFrameCache,
    withStore, withUndeterminedEvents, withConsensusRounds, withAnchorBlock,
    withSigPool, withConsensusTransactions, withPendingLoadedEvents,
    withTopologicalIndex, withRoundCache, withTimestampCache in *;
  simpl in *.

Section Evolution.
Context `{Env}.

Lemma evolves_refl (s : InmemStore) : evolves s s.
Proof.
  split; [|done]. intros h e He. exists e. split; [done | apply sameStatic_refl].
Qed.

Lemma evolves_same (s s' : InmemStore) :
  eventCache s' = eventCache s →
  (∀ h, referenced s h → referenced s' h) →
  evolves s s'.
Proof.
  intros He Hr. split; [|split]; [|done|].
  - intros h e. rewrite He. intros Hh. exists e. split; [done | apply sameStatic_refl].
  - intros h. by rewrite He.
Qed.

Lemma evolves_trans (s1 s2 s3 : InmemStore) :
  evolves s1 s2 → evolves s2 s3 → evolves s1 s3.
Proof.
  intros (H12 & R12 & N12) (H23 & R23 & N23). split; [|split].
  - intros h e He.
    destruct (H12 h e He) as (e2 & He2 & Hs2).
    destruct (H23 h e2 He2) as (e3 & He3 & Hs3).
    exists e3. split; [done | by eapply sameStatic_trans].
  - intros h Hr. by apply R23, R12.
  - intros h Hn. by apply N23, N12.
Qed.

Lemma Inv_keyed P Q (s : InmemStore) (h : Z) (e : Event.t) :
  Inv P Q s → eventCache s !! h = Some e → Event.Hash e = h.
Proof. intros ((Hk & _) & _). apply Hk. Qed.

Lemma Good_refl P Q (s : InmemStore) : Inv P Q s → Good P Q s s.
Proof. intros HI. split; [done | apply evolves_refl]. Qed.

Lemma Good_trans P Q (s1 s2 s3 : InmemStore) :
  Good P Q s1 s2 → Good P Q s2 s3 → Good P Q s1 s3.
Proof. intros [_ H12] [HI H23]. split; [done | by eapply evolves_trans]. Qed.

Lemma referenced_same (s s' : InmemStore) (h : Z) :
  clothoCheckCache s' = clothoCheckCache s →
  timeTableCache s' = timeTableCache s →
  referenced s' h ↔ referenced s h.
Proof. intros Hc Ht. unfold referenced. by rewrite Hc, Ht. Qed.

(** A store that differs in none of the three maps the invariant reads. *)
Lemma Good_same P Q (s s' : InmemStore) :
  eventCache s' = eventCache s →
  clothoCheckCache s' = clothoCheckCache s →
  timeTableCache s' = timeTableCache s →
  Inv P Q s → Good P Q s s'.
Proof.
  intros He Hc Ht ((Hk & Hkc) & HP & HQ). split; [split; [split|split]|].
  - intros h e. rewrite He. apply Hk.
  - intros f h v. rewrite Hc. apply Hkc.
  - intros h e. rewrite He. apply HP.
  - intros h e Hr. rewrite He. apply HQ. by eapply referenced_same.
  - apply evolves_same; [done|]. intros h Hr. by eapply referenced_same.
Qed.

(** The write of a stored event with other flags. *)
Lemma Good_update P Q (s : InmemStore) (x0 x : Event.t) :
  Inv P Q s →
  eventCache s !! Event.Hash x = Some x0 →
  sameStatic x0 x →
  P x →
  (∀ y z, sameStatic y z → Q y → Q z) →
  SetEvent s x = (withEventCache s (<[Event.Hash x := x]> (eventCache s)), None)
  ∧ Good P Q s (withEventCache s (<[Event.Hash x := x]> (eventCache s))).
Proof.
  intros ((Hk & Hkc) & HP & HQ) Hx0 Hst HPx HQs. split.
  - unfold SetEvent, GetEventBlock. rewrite Hx0. simpl. reflexivity.
  - unfold Good, Inv, storeKeyed, evolves.
    split; [split; [split|split]|split; [|split]]; unfold_with.
    + intros h e. destruct (decide (h = Event.Hash x)) as [->|Hne].
      * rewrite lookup_insert_eq. by intros [= <-].
      * rewrite lookup_insert_ne by done. apply Hk.
    + exact Hkc.
    + intros h e. destruct (decide (h = Event.Hash x)) as [->|Hne].
      * rewrite lookup_insert_eq. by intros [= <-].
      * rewrite lookup_insert_ne by done. apply HP.
    + intros h e Hr. destruct (decide (h = Event.Hash x)) as [->|Hne].
      * rewrite lookup_insert_eq. intros [= <-].
        eapply HQs; [exact Hst|]. eapply HQ; [|exact Hx0]. exact Hr.
      * rewrite lookup_insert_ne by done. by apply HQ.
    + intros h e He. destruct (decide (h = Event.Hash x)) as [->|Hne].
      * exists x. rewrite lookup_insert_eq. split; [done|]. congruence.
      * exists e. rewrite lookup_insert_ne by done. split; [done | apply sameStatic_refl].
    + done.
    + intros h Hn. destruct (decide (h = Event.Hash x)) as [->|Hne]; [congruence|].
      by rewrite lookup_insert_ne.
Qed.

(** What a time table points to after [AddTimeTable]. *)
Lemma referenced_AddTimeTable (s : InmemStore) (hashTo hashFrom t h : Z) :
  referenced (AddTimeTable s hashTo hashFrom t).1 h ↔ referenced s h ∨ h = hashFrom.
Proof.
  unfold referenced, AddTimeTable. unfold_with. split.
  - intros [Hr | (to' & tt & Hr & Hin)]; [by left; left|].
    destruct (decide (to' = hashTo)) as [->|Hne].
    + rewrite lookup_insert_eq in Hr. injection Hr as <-.
      destruct (decide (h = hashFrom)) as [->|Hne']; [by right|].
      rewrite lookup_insert_ne in Hin by done. left. right.
      destruct (timeTableCache s !! hashTo) as [tt0|] eqn:Htt; simpl in Hin.
      * by exists hashTo, tt0.
      * unfold NewFlagTable in Hin. rewrite lookup_empty in Hin. by destruct Hin.
    + rewrite lookup_insert_ne in Hr by done. left. right. by exists to', tt.
  - intros [[Hr | (to' & tt & Hr & Hin)] | ->].
    + by left.
    + right. destruct (decide (to' = hashTo)) as [->|Hne].
      * eexists hashTo, _. rewrite lookup_insert_eq. split; [done|].
        rewrite Hr. simpl. destruct (decide (h = hashFrom)) as [->|Hne'].
        -- by rewrite lookup_insert_eq.
        -- by rewrite lookup_insert_ne.
      * exists to', tt. by rewrite lookup_insert_ne.
    + right. eexists hashTo, _. rewrite lookup_insert_eq. split; [done|].
      by rewrite lookup_insert_eq.
Qed.

(** A new entry of a time table that points to [hashFrom]. *)
Lemma Good_AddTimeTable P Q (s : InmemStore) (hashTo hashFrom t : Z) :
  Inv P Q s →
  (∀ e, eventCache s !! hashFrom = Some e → Q e) →
  Good P Q s (AddTimeTable s hashTo hashFrom t).1.
Proof.
  intros ((Hk & Hkc) & HP & HQ) Hfrom.
  split; [split; [split|split]|]; try done.
  - intros h e Hr He. apply referenced_AddTimeTable in Hr as [Hr | ->].
    + by eapply HQ.
    + by apply Hfrom.
  - apply evolves_same; [done|]. intros h Hr. apply referenced_AddTimeTable. by left.
Qed.

(** What the clotho-check index points to after [AddClothoCheck]. *)
Lemma referenced_AddClothoCheck (s : InmemStore) (frame creatorID hash h : Z) :
  storeKeyed s →
  referenced (AddClothoCheck s frame creatorID hash).1 h ↔ referenced s h ∨ h = hash.
Proof.
  intros [_ Hkc]. unfold referenced, AddClothoCheck. unfold_with. split.
  - intros [[k Hr] | Hr]; [|by left; right].
    destruct (decide (k = (frame, hash))) as [->|Hne].
    + rewrite lookup_insert_eq in Hr. injection Hr as <-. by right.
    + rewrite lookup_insert_ne in Hr by done. left. left. by exists k.
  - intros [[[k Hr] | Hr] | ->].
    + left. destruct (decide (k = (frame, hash))) as [->|Hne].
      * apply Hkc in Hr as ->. exists (frame, hash). by rewrite lookup_insert_eq.
      * exists k. by rewrite lookup_insert_ne.
    + by right.
    + left. exists (frame, hash). by rewrite lookup_insert_eq.
Qed.

(** A new entry of the clotho-check index. *)
Lemma Good_AddClothoCheck P Q (s : InmemStore) (frame creatorID hash : Z) :
  Inv P Q s →
  (∀ e, eventCache s !! hash = Some e → Q e) →
  Good P Q s (AddClothoCheck s frame creatorID hash).1.
Proof.
  intros HI Hnew. pose proof HI as ((Hk & Hkc) & HP & HQ).
  split; [split; [split|split]|]; try done.
  - intros f h v. unfold AddClothoCheck. unfold_with.
    destruct (decide ((f, h) = (frame, hash))) as [[= -> ->]|Hne].
    + rewrite lookup_insert_eq. by intros [= <-].
    + rewrite lookup_insert_ne by done. apply Hkc.
  - intros h e Hr He. apply referenced_AddClothoCheck in Hr as [Hr | ->]; [| | apply HI].
    + by eapply HQ.
    + by apply Hnew.
  - apply evolves_same; [done|].
    intros h Hr. apply referenced_AddClothoCheck; [apply HI | by left].
Qed.

End Evolution.

Section Traversal.
Context `{Env}.
Variables P Q : Event.t → Prop.
Hypothesis HC : FlagClosed P Q.

Lemma forEach_Good {S X : Type} (proj : S → InmemStore) (body : S → X → S * outcome unit)
    (Pre : X → InmemStore → Prop) (l : list X) :
  (∀ x s s', Pre x s → evolves s s' → Pre x s') →
  (∀ st x st' r, x ∈ l → body st x = (st', r) → Inv P Q (proj st) → Pre x (proj st) →
                 Good P Q (proj st) (proj st')) →
  ∀ st st' r, forEach body l st = (st', r) → Inv P Q (proj st) →
              (∀ x, x ∈ l → Pre x (proj st)) → Good P Q (proj st) (proj st').
Proof.
  intros Hstable. induction l as [|x l IH]; intros Hbody st st' r Hrun HI Hpre; simpl in Hrun.
  - injection Hrun as <- <-. by apply Good_refl.
  - destruct (body st x) as [st1 r1] eqn:Hb.
    assert (Good P Q (proj st) (proj st1)) as HG1.
    { eapply Hbody; [left | exact Hb | exact HI |]. apply Hpre. left. }
    destruct r1 as [[]|e|];
      try (injection Hrun as <- <-; exact HG1).
    eapply Good_trans; [exact HG1|].
    eapply IH; [| exact Hrun | apply HG1 |].
    + intros st2 y st2' r2 Hy. apply Hbody. by right.
    + intros y Hy. eapply Hstable; [|apply HG1]. apply Hpre. by right.
Qed.

Lemma accountEvent_Good (p p' : Poset) (ev : Event.t) r :
  accountEvent p ev = (p', r) → Inv P Q (Store p) → Good P Q (Store p) (Store p').
Proof.
  unfold accountEvent. intros Hrun HI.
  destruct (AddConsensusEvent _ ev) as [s err] eqn:Hadd.
  assert (eventCache s = eventCache (Store p)
          ∧ clothoCheckCache s = clothoCheckCache (Store p)
          ∧ timeTableCache s = timeTableCache (Store p)) as (He & Hc & Ht).
  { unfold AddConsensusEvent in Hadd.
    destruct (riSet _ _ _) as [c [e|]]; injection Hadd as <- <-;
      destruct (IsLoaded ev); done. }
  destruct err as [e|]; injection Hrun as <- <-; by apply Good_same.
Qed.

Lemma followParent_Good (recurse : Poset → Event.t → Z → Poset * outcome Z) :
  (∀ p e frame p' r, recurse p e frame = (p', r) → Inv P Q (Store p) →
                     Good P Q (Store p) (Store p')) →
  ∀ p parent frame p' r,
    followParent recurse p parent frame = (p', r) →
    Inv P Q (Store p) →
    eventCache (Store p) !! Event.Hash parent = Some parent →
    Good P Q (Store p) (Store p').
Proof.
  intros Hrec p parent frame p' r Hrun HI Hparent.
  unfold followParent in Hrun.
  assert (HPparent : P parent) by (eapply HI; exact Hparent).
  set (pf := if Event.FrameReceived parent =? 0
             then (Event.withFrameReceived parent frame, true)
             else (parent, false)) in Hrun.
  assert (sameStatic parent pf.1 ∧ P pf.1) as [Hs1 HP1].
  { subst pf. destruct (Event.FrameReceived parent =? 0) eqn:Hfr; simpl.
    - split; [apply sameStatic_withFrameReceived|].
      apply (fc_received _ _ HC); [done|]. by apply Z.eqb_eq.
    - split; [apply sameStatic_refl | done]. }
  destruct pf as [parent1 follow1]. simpl in Hs1, HP1.
  (* the write back of a parent that evolved in a store reached from [p] *)
  assert (Hwrite : ∀ q parent2 q' r',
             Good P Q (Store p) (Store q) → sameStatic parent parent2 → P parent2 →
             match SetEvent (Store q) parent2 with
             | (s, Some _) => (withStore q s, Abort)
             | (s, None) => (withStore q s, Ret parent2)
             end = (q', r') →
             Good P Q (Store p) (Store q')).
  { intros q parent2 q' r' HG Hs2 HP2 Hset.
    destruct (proj1 (proj2 HG) _ _ Hparent) as (xc & Hxc & Hsc).
    rewrite (sameStatic_Hash _ _ Hs2) in Hxc.
    destruct (Good_update P Q (Store q) xc parent2) as [Heq HG2]; try done.
    - apply HG.
    - eapply sameStatic_trans; [apply sameStatic_sym; exact Hsc | exact Hs2].
    - apply (fc_static _ _ HC).
    - rewrite Heq in Hset. injection Hset as <- <-.
      eapply Good_trans; [exact HG | exact HG2]. }
  destruct (Event.AtroposTimestamp parent1 =? 0).
  - destruct (recurse p parent1 frame) as [p1 r1] eqn:Hr1.
    pose proof (Hrec _ _ _ _ _ Hr1 HI) as HG1.
    destruct r1 as [atroposTime|e|]; try (injection Hrun as <- <-; exact HG1).
    destruct (accountEvent p1 _) as [p2 r2] eqn:Hacc.
    pose proof (accountEvent_Good _ _ _ _ Hacc (proj1 HG1)) as HG2.
    pose proof (Good_trans _ _ _ _ _ HG1 HG2) as HG12.
    destruct r2 as [[]|e|]; try (injection Hrun as <- <-; exact HG12).
    eapply Hwrite; [exact HG12 | | | exact Hrun].
    + eapply sameStatic_trans; [exact Hs1 | apply sameStatic_withAtroposTimestamp].
    + by apply (fc_time _ _ HC).
  - destruct follow1.
    + eapply Hwrite; [by apply Good_refl | exact Hs1 | exact HP1 | exact Hrun].
    + injection Hrun as <- <-. by apply Good_refl.
Qed.

Lemma AssignAtroposTime2_Good (fuel : nat) :
  ∀ p e frame p' r, AssignAtroposTime2 fuel p e frame = (p', r) → Inv P Q (Store p) →
                    Good P Q (Store p) (Store p').
Proof.
  induction fuel as [|fuel IH]; intros p e frame p' r Hrun HI; simpl in Hrun.
  - injection Hrun as <- <-. by apply Good_refl.
  - assert (Hsecond : ∀ p1 q r',
       Inv P Q (Store p1) →
       (let '(otherParent, otherErr) := GetEventBlock (Store p1) (Event.OtherParent e) in
        match otherErr with
        | None =>
            match followParent (AssignAtroposTime2 fuel) p1 otherParent frame with
            | (p2, Ret otherParent') => (p2, Ret (Event.LamportTimestamp otherParent'))
            | (p2, Fail e') => (p2, Fail e')
            | (p2, Abort) => (p2, Abort)
            end
        | Some _ => (p1, Ret (Event.LamportTimestamp e))
        end) = (q, r') →
       Good P Q (Store p1) (Store q)).
    { intros p1 q r' HI1 Hq. unfold GetEventBlock in Hq.
      destruct (eventCache (Store p1) !! Event.OtherParent e) as [op|] eqn:Hop.
      - destruct (followParent _ p1 op frame) as [q2 rq] eqn:Hf.
        assert (Good P Q (Store p1) (Store q2)) as HGq.
        { eapply followParent_Good; [exact IH | exact Hf | exact HI1 |].
          rewrite (Inv_keyed _ _ _ _ _ HI1 Hop). exact Hop. }
        destruct rq; injection Hq as <- <-; exact HGq.
      - injection Hq as <- <-. by apply Good_refl. }
    unfold GetEventBlock in Hrun at 1.
    destruct (eventCache (Store p) !! Event.SelfParent e) as [sp|] eqn:Hsp.
    + destruct (followParent _ p sp frame) as [q rq] eqn:Hf.
      assert (Good P Q (Store p) (Store q)) as HGq.
      { eapply followParent_Good; [exact IH | exact Hf | exact HI |].
        rewrite (Inv_keyed _ _ _ _ _ HI Hsp). exact Hsp. }
      destruct rq as [x|e1|]; try (injection Hrun as <- <-; exact HGq).
      eapply Good_trans; [exact HGq|].
      eapply Hsecond; [apply HGq | exact Hrun].
    + eapply Hsecond; [exact HI | exact Hrun].
Qed.

(** The write back of an event that was read from a store that has since
    evolved. *)
Lemma writeBack_Good (s0 s : InmemStore) (x0 x : Event.t) :
  Good P Q s0 s →
  eventCache s0 !! Event.Hash x0 = Some x0 →
  sameStatic x0 x →
  P x →
  ∃ s', SetEvent s x = (s', None) ∧ Good P Q s0 s'.
Proof.
  intros HG Hx0 Hst HPx.
  destruct (proj1 (proj2 HG) _ _ Hx0) as (xc & Hxc & Hsc).
  rewrite (sameStatic_Hash _ _ Hst) in Hxc.
  destruct (Good_update P Q s xc x) as [Heq HG2]; try done.
  - apply HG.
  - eapply sameStatic_trans; [apply sameStatic_sym; exact Hsc | exact Hst].
  - apply (fc_static _ _ HC).
  - eexists. split; [exact Heq|]. eapply Good_trans; [exact HG | exact HG2].
Qed.

Lemma promoteAtropos_Good (fuel : nat) (p p' : Poset) (clotho : Event.t) r :
  promoteAtropos fuel p clotho = (p', r) →
  Inv P Q (Store p) →
  eventCache (Store p) !! Event.Hash clotho = Some clotho →
  Q clotho →
  Good P Q (Store p) (Store p').
Proof.
  unfold promoteAtropos. intros Hrun HI Hc HQc.
  set (clotho1 := Event.withFrameReceived (Event.withAtropos clotho true)
                    (Event.Frame clotho)) in *.
  assert (P clotho1) as HP1.
  { apply (fc_promote _ _ HC); [by eapply HI | done]. }
  assert (sameStatic clotho clotho1) as Hs1 by (by repeat split).
  assert (∃ p1 r1, (if Event.AtroposTimestamp clotho1 =? 0 then accountEvent p clotho1
                    else (p, Ret tt)) = (p1, r1)
                   ∧ Good P Q (Store p) (Store p1)) as (p1 & r1 & Hr1 & HG1).
  { destruct (Event.AtroposTimestamp clotho1 =? 0).
    - destruct (accountEvent p clotho1) as [p1 r1] eqn:Hacc.
      exists p1, r1. split; [done|]. by eapply accountEvent_Good.
    - exists p, (Ret tt). split; [done|]. by apply Good_refl. }
  rewrite Hr1 in Hrun.
  destruct r1 as [[]|e|]; try (injection Hrun as <- <-; exact HG1).
  destruct (AssignAtroposTime2 fuel p1 clotho1 _) as [p2 r2] eqn:Hass.
  pose proof (AssignAtroposTime2_Good _ _ _ _ _ _ Hass (proj1 HG1)) as HG2.
  pose proof (Good_trans _ _ _ _ _ HG1 HG2) as HG12.
  destruct r2 as [atroposTime|e|]; try (injection Hrun as <- <-; exact HG12).
  destruct (writeBack_Good (Store p) (Store p2) clotho
              (Event.withAtroposTimestamp clotho1 atroposTime)) as (s' & Hset & HG3);
    [exact HG12 | exact Hc | | |].
  - eapply sameStatic_trans; [exact Hs1 | apply sameStatic_withAtroposTimestamp].
  - by apply (fc_time _ _ HC).
  - rewrite Hset in Hrun. injection Hrun as <- <-. exact HG3.
Qed.

Lemma atroposStep_Good (fuel : nat) (e : Event.t) (p p' : Poset) (kv : Z * gmap Z Z) r :
  atroposStep fuel e p kv = (p', r) →
  Inv P Q (Store p) →
  referenced (Store p) kv.1 →
  Good P Q (Store p) (Store p').
Proof.
  destruct kv as [key val]. unfold atroposStep, GetEventBlock. simpl.
  intros Hrun HI Href.
  destruct (eventCache (Store p) !! key) as [clotho|] eqn:Hc;
    [|injection Hrun as <- <-; by apply Good_refl].
  assert (Event.Hash clotho = key) as Hkey by (by eapply Inv_keyed).
  assert (Q clotho) as HQc by (by eapply HI).
  assert (∀ t, Good P Q (Store p) (AddTimeTable (Store p) (Event.Hash e) key t).1) as HT.
  { intros t. apply Good_AddTimeTable; [done|]. intros a Ha. by eapply HI. }
  destruct (Event.Atropos clotho) eqn:Hat;
    [injection Hrun as <- <-; by apply Good_refl|].
  destruct (Z.rem _ _ =? 0).
  - destruct (coinVote val) as [maxVal maxInd]. injection Hrun as <- <-. apply HT.
  - destruct (majorityVote val) as [maxVal maxInd].
    destruct (maxVal >=? GetSuperMajority p).
    + simpl in Hrun. eapply promoteAtropos_Good; [exact Hrun | done | | done].
      by rewrite Hkey.
    + injection Hrun as <- <-. apply HT.
Qed.

Lemma range_lookup {A : Type} (m : gmap Z A) (k : Z) (v : A) :
  (k, v) ∈ range m ↔ m !! k = Some v.
Proof. rewrite (range_perm A m). apply elem_of_map_to_list. Qed.

Lemma Inc_keys (cm : gmap Z (gmap Z Z)) (key val k : Z) :
  is_Some (Inc cm key val !! k) → k = key ∨ is_Some (cm !! k).
Proof.
  unfold Inc. destruct (decide (k = key)) as [->|Hne]; [by left|].
  rewrite lookup_insert_ne by done. by right.
Qed.

Lemma foldl_Inc_keys (l : list (Z * Z)) (cm : gmap Z (gmap Z Z)) (k : Z) :
  is_Some (foldl (λ acc kv, Inc acc kv.1 kv.2) cm l !! k) →
  is_Some (cm !! k) ∨ ∃ v, (k, v) ∈ l.
Proof.
  revert cm. induction l as [|[k' v'] l IH]; intros cm Hk; simpl in Hk; [by left|].
  apply IH in Hk as [Hk | [v Hv]].
  - apply Inc_keys in Hk as [-> | Hk]; [|by left].
    right. exists v'. left.
  - right. exists v. by right.
Qed.

Lemma collectVotes_keys (s : InmemStore) (l : list (Z * Z)) (cm cm' : gmap Z (gmap Z Z))
    r (k : Z) :
  forEach (collectVotes s) l cm = (cm', r) →
  is_Some (cm' !! k) → is_Some (cm !! k) ∨ referenced s k.
Proof.
  revert cm. induction l as [|[prevKey v] l IH]; intros cm Hrun Hk; simpl in Hrun.
  - injection Hrun as <- <-. by left.
  - unfold GetTimeTable in Hrun.
    destruct (timeTableCache s !! prevKey) as [tt|] eqn:Htt.
    + apply IH in Hrun as [Hin | Hr]; [|by right|done].
      apply foldl_Inc_keys in Hin as [Hin | [v' Hv']]; [by left|].
      right. right. exists prevKey, tt. split; [done|].
      apply range_lookup in Hv'. by rewrite Hv'.
    + injection Hrun as <- <-. by left.
Qed.

Lemma referenced_stable (s s' : InmemStore) (h : Z) :
  referenced s h → evolves s s' → referenced s' h.
Proof. intros Hr (_ & Hm & _). by apply Hm. Qed.

Lemma AtroposTimeSelection_Good (fuel : nat) (p p' : Poset) (e : Event.t) r :
  AtroposTimeSelection fuel p e = (p', r) →
  Inv P Q (Store p) →
  Good P Q (Store p) (Store p').
Proof.
  unfold AtroposTimeSelection. intros Hrun HI.
  destruct (Event.GetRootTable e) as [rootTable [e'|]];
    [injection Hrun as <- <-; by apply Good_refl|].
  destruct (forEach (collectVotes (Store p)) _ _) as [countMap rc] eqn:Hcv.
  destruct rc as [[]|e'|]; try (injection Hrun as <- <-; by apply Good_refl).
  eapply (forEach_Good Store (atroposStep fuel e) (λ kv s, referenced s kv.1));
    [ | | exact Hrun | exact HI | ].
  - intros kv s s'. apply referenced_stable.
  - intros st kv st' r' _ Hstep HIst Hpre. by eapply atroposStep_Good.
  - intros [key val] Hin. simpl. apply range_lookup in Hin.
    destruct (collectVotes_keys _ _ _ _ _ key Hcv) as [Hemp | Hr]; [by rewrite Hin | | done].
    unfold NewCountMap in Hemp. rewrite lookup_empty in Hemp. by destruct Hemp.
Qed.

Lemma ccPromote_Good (superMajority : Z) (e : Event.t) (frame : Z)
    (s s' : InmemStore) (kv : Z * Z) r :
  ccPromote superMajority e frame s kv = (s', r) →
  Inv P Q s →
  Good P Q s s'.
Proof.
  destruct kv as [key val]. unfold ccPromote, GetClothoCheck, GetEventBlock.
  intros Hrun HI.
  destruct (uint64 val >=? superMajority); [|injection Hrun as <- <-; by apply Good_refl].
  destruct (clothoCheckCache s !! (frame, key)) as [rootKey|] eqn:Hck;
    [|injection Hrun as <- <-; by apply Good_refl].
  destruct (eventCache s !! rootKey) as [root|] eqn:Hroot;
    [|injection Hrun as <- <-; by apply Good_refl].
  assert (Event.Hash root = rootKey) as Hkey by (by eapply Inv_keyed).
  assert (referenced s rootKey) as Href by (left; by exists (frame, key)).
  destruct (Event.Clotho root); simpl in Hrun.
  - injection Hrun as <- <-. apply Good_AddTimeTable; [done|].
    rewrite Hkey. intros a Ha. by eapply HI.
  - destruct (writeBack_Good s s root (Event.withClotho root true)) as (s1 & Hset & HG1);
      [by apply Good_refl | by rewrite Hkey | apply sameStatic_withClotho | |].
    { apply (fc_clotho _ _ HC). by eapply HI. }
    rewrite Hset in Hrun. injection Hrun as <- <-.
    eapply Good_trans; [exact HG1|].
    apply Good_AddTimeTable; [apply HG1|].
    intros a Ha. eapply (proj1 HG1); [|exact Ha].
    eapply referenced_stable; [|apply HG1]. by rewrite <- Hkey in Href.
Qed.

Lemma ClothoChecking_Good (p p' : Poset) (e : Event.t) r :
  ClothoChecking p e = (p', r) →
  Inv P Q (Store p) →
  Good P Q (Store p) (Store p').
Proof.
  unfold ClothoChecking. intros Hrun HI.
  destruct (Event.GetRootTable e) as [rootTable [e'|]];
    [injection Hrun as <- <-; by apply Good_refl|].
  destruct (forEach (ccLevel1 (Store p)) _ _) as [ccList rc].
  destruct rc as [[]|e'|]; try (injection Hrun as <- <-; by apply Good_refl).
  destruct (forEach _ (range ccList) (Store p)) as [s r'] eqn:Hloop.
  injection Hrun as <- <-. simpl.
  eapply (forEach_Good id _ (λ _ _, True)); [done | | exact Hloop | exact HI | done].
  intros st fm st' r1 _ Hinner HIst _. simpl in *.
  eapply (forEach_Good id _ (λ _ _, True)); [done | | exact Hinner | exact HIst | done].
  intros st1 kv st1' r2 _ Hstep HI1 _. simpl in *. by eapply ccPromote_Good.
Qed.

Lemma rootChecks_Good (fuel : nat) (p p' : Poset) (event : Event.t) (Frame : Z) r :
  rootChecks fuel p event Frame = (p', r) →
  Inv P Q (Store p) →
  (∀ a, eventCache (Store p) !! Event.Hash event = Some a → Q a) →
  Good P Q (Store p) (Store p').
Proof.
  unfold rootChecks. intros Hrun HI Hroot.
  pose proof (Good_AddClothoCheck P Q (Store p) Frame (Event.CreatorID event)
                (Event.Hash event) HI Hroot) as HGa.
  simpl in Hrun.
  destruct (ClothoChecking _ event) as [q1 rq1] eqn:Hcc.
  assert (Good P Q (Store p) (Store q1)) as HGc.
  { eapply Good_trans; [exact HGa|].
    apply (ClothoChecking_Good _ _ _ _ Hcc). apply HGa. }
  destruct rq1 as [[]|e1|]; try (injection Hrun as <- <-; exact HGc).
  destruct (AtroposTimeSelection fuel q1 event) as [q2 rq2] eqn:Hat.
  assert (Good P Q (Store p) (Store q2)) as HGt.
  { eapply Good_trans; [exact HGc|].
    eapply AtroposTimeSelection_Good; [exact Hat|]. apply HGc. }
  destruct rq2 as [[]|e2|]; injection Hrun as <- <-; exact HGt.
Qed.

Lemma Store_enqueueEvent (p : Poset) (event : Event.t) :
  Store (enqueueEvent p event) = Store p.
Proof. unfold enqueueEvent. by destruct (IsLoaded event). Qed.

Lemma finishInsert_Good (fuel : nat) (p p' : Poset) (event : Event.t) (Root : bool)
    (Frame : Z) r :
  finishInsert fuel p event Root Frame = (p', r) →
  Inv P Q (Store p) →
  (Root = true → ∀ a, eventCache (Store p) !! Event.Hash event = Some a → Q a) →
  Good P Q (Store p) (Store p').
Proof.
  unfold finishInsert. intros Hrun HI Hroot.
  destruct Root.
  - destruct (rootChecks fuel p event Frame) as [p1 r1] eqn:Hrc.
    pose proof (rootChecks_Good _ _ _ _ _ _ Hrc HI (Hroot eq_refl)) as HG.
    destruct r1 as [[]|e1|]; injection Hrun as <- <-; try exact HG.
    by rewrite Store_enqueueEvent.
  - injection Hrun as <- <-. rewrite Store_enqueueEvent. by apply Good_refl.
Qed.

End Traversal.

(** ** Insertion: what the stages do to the state *)

Section InsertFacts.
Context `{Env}.

Lemma SetEvent_ok (s s' : InmemStore) (x : Event.t) :
  SetEvent s x = (s', None) →
  eventCache s' = <[Event.Hash x := x]> (eventCache s)
  ∧ clothoCheckCache s' = clothoCheckCache s
  ∧ timeTableCache s' = timeTableCache s.
Proof.
  unfold SetEvent, GetEventBlock, addParticipantEvent.
  destruct (eventCache s !! Event.Hash x) as [x0|]; simpl.
  - intros [= <-]. done.
  - destruct (pecSet _ _ _ _) as [c [e|]]; [done|]. intros [= <-]. done.
Qed.

Lemma SetEvent_err (s s' : InmemStore) (x : Event.t) e :
  SetEvent s x = (s', Some e) →
  eventCache s' = eventCache s
  ∧ clothoCheckCache s' = clothoCheckCache s
  ∧ timeTableCache s' = timeTableCache s.
Proof.
  unfold SetEvent, GetEventBlock, addParticipantEvent.
  destruct (eventCache s !! Event.Hash x) as [x0|]; simpl.
  - intros [=].
  - destruct (pecSet _ _ _ _) as [c [e'|]]; [|done]. intros [= <- _]. done.
Qed.

Lemma sameButIndex_refl (p : Poset) : sameButIndex p p.
Proof. by repeat split. Qed.

Lemma setWireInfo_static (p : Poset) (x x' : Event.t) err :
  setWireInfo p x = (x', err) →
  Event.Hash x' = Event.Hash x
  ∧ EventMessage.Body (Event.Message x') = EventMessage.Body (Event.Message x)
  ∧ Event.LamportTimestamp x' = Event.LamportTimestamp x
  ∧ Event.Frame x' = Event.Frame x
  ∧ Event.FlagTableBytes x' = Event.FlagTableBytes x
  ∧ Event.RootTableBytes x' = Event.RootTableBytes x
  ∧ Event.Root x' = Event.Root x
  ∧ Event.Clotho x' = Event.Clotho x
  ∧ Event.Atropos x' = Event.Atropos x
  ∧ Event.AtroposTimestamp x' = Event.AtroposTimestamp x
  ∧ Event.FrameReceived x' = Event.FrameReceived x.
Proof.
  unfold setWireInfo, GetEventBlock.
  destruct (Peers.ReadByPubKey _ _); [|by intros [= <- <-]].
  destruct (eventCache (Store p) !! Event.SelfParent x); [|by intros [= <- <-]].
  destruct (eventCache (Store p) !! Event.OtherParent x); [|by intros [= <- <-]].
  destruct (Peers.ReadByPubKey _ _); by intros [= <- <-].
Qed.

(** What [InsertEvent] stores when it gets to [Store.SetEvent]. *)
Lemma prepareInsert_Ret (p p1 : Poset) (event event3 : Event.t) (wire : bool)
    (fa : FrameAssignment) :
  prepareInsert p event wire = (p1, Ret (event3, fa)) →
  let parentEvent := (GetEventBlock (Store p) (Event.SelfParent event)).1 in
  let otherParentEvent := (GetEventBlock (Store p) (Event.OtherParent event)).1 in
  let stamped := stampEvent event parentEvent otherParentEvent fa in
  (Verify event).1 = true
  ∧ checkSelfParent p event = None
  ∧ checkOtherParent p event = None
  ∧ assignFrame p parentEvent otherParentEvent = Ret fa
  ∧ sameButIndex p p1
  ∧ Event.Hash event3 = Event.Hash event
  ∧ EventMessage.Body (Event.Message event3) = EventMessage.Body (Event.Message event)
  ∧ Event.LamportTimestamp event3 = Event.LamportTimestamp stamped
  ∧ Event.Frame event3 = faFrame fa
  ∧ Event.FlagTableBytes event3
    = Marshal (if faRoot fa then <[Event.Hash event := faFrame fa]> (faFlagTable fa)
               else faFlagTable fa)
  ∧ Event.RootTableBytes event3 = Marshal (faRootTable fa)
  ∧ Event.Root event3 = faRoot fa
  ∧ Event.Clotho event3 = Event.Clotho event
  ∧ Event.Atropos event3 = Event.Atropos event
  ∧ Event.AtroposTimestamp event3 = Event.AtroposTimestamp event
  ∧ Event.FrameReceived event3 = Event.FrameReceived event.
Proof.
  unfold prepareInsert. intros Hrun.
  destruct (Verify event) as [[|] verr]; [|by destruct verr].
  destruct (checkSelfParent p event); [done|].
  destruct (checkOtherParent p event); [done|].
  destruct (GetEventBlock (Store p) (Event.SelfParent event)) as [parentEvent e1].
  destruct (GetEventBlock (Store p) (Event.OtherParent event)) as [otherParentEvent e2].
  simpl. destruct (assignFrame p parentEvent otherParentEvent) as [fa'| |]; try done.
  simpl in Hrun.
  set (stamped := stampEvent event parentEvent otherParentEvent fa') in *.
  assert (Hstamp :
            Event.Hash stamped = Event.Hash event
            ∧ Event.Message stamped = Event.Message event
            ∧ Event.Frame stamped = faFrame fa'
            ∧ Event.FlagTableBytes stamped
              = Marshal (if faRoot fa' then <[Event.Hash event := faFrame fa']> (faFlagTable fa')
                         else faFlagTable fa')
            ∧ Event.RootTableBytes stamped = Marshal (faRootTable fa')
            ∧ Event.Root stamped = faRoot fa'
            ∧ Event.Clotho stamped = Event.Clotho event
            ∧ Event.Atropos stamped = Event.Atropos event
            ∧ Event.AtroposTimestamp stamped = Event.AtroposTimestamp event
            ∧ Event.FrameReceived stamped = Event.FrameReceived event).
  { subst stamped. unfold stampEvent. by destruct (_ =? LamportTimestampNIL). }
  destruct Hstamp as (Hh & Hm & Hf & Hft & Hrt & Hr & Hc & Ha & Hat & Hfr).
  set (event2 := Event.withTopologicalIndex stamped (topologicalIndex p)) in *.
  destruct wire.
  - destruct (setWireInfo _ event2) as [ev3 err] eqn:Hwire.
    destruct err; [done|]. injection Hrun as <- <- <-.
    apply setWireInfo_static in Hwire
      as (Wh & Wb & Wl & Wf & Wft & Wrt & Wr & Wc & Wa & Wat & Wfr).
    rewrite Wh, Wb, Wl, Wf, Wft, Wrt, Wr, Wc, Wa, Wat, Wfr. subst event2. simpl.
    unfold Event.Hash in *. simpl. rewrite Hm in *.
    repeat split; done.
  - injection Hrun as <- <- <-. subst event2. simpl.
    unfold Event.Hash in *. simpl. rewrite Hm in *.
    repeat split; done.
Qed.

(** Before the event is stored the poset changes in its topological index
    only. *)
Lemma prepareInsert_state (p p1 : Poset) (event : Event.t) (wire : bool) r :
  prepareInsert p event wire = (p1, r) → sameButIndex p p1.
Proof.
  unfold prepareInsert. intros Hrun.
  destruct (Verify event) as [[|] verr];
    [|destruct verr; injection Hrun as <- <-; apply sameButIndex_refl].
  destruct (checkSelfParent p event); [injection Hrun as <- <-; apply sameButIndex_refl|].
  destruct (checkOtherParent p event); [injection Hrun as <- <-; apply sameButIndex_refl|].
  destruct (GetEventBlock (Store p) (Event.SelfParent event)) as [parentEvent e1].
  destruct (GetEventBlock (Store p) (Event.OtherParent event)) as [otherParentEvent e2].
  destruct (assignFrame p parentEvent otherParentEvent) as [fa'| |];
    try (injection Hrun as <- <-; apply sameButIndex_refl).
  simpl in Hrun.
  destruct (if wire then _ else _) as [ev3 [err|]]; injection Hrun as <- <-;
    by repeat split.
Qed.

End InsertFacts.

(** ** Frame assignment *)

Section FrameAssignment.
Context `{Env}.

Lemma trivial_closed : FlagClosed (λ _, True) (λ _, True).
Proof. by constructor. Qed.

Lemma Inv_trivial (s : InmemStore) : storeKeyed s → Inv (λ _, True) (λ _, True) s.
Proof. intros Hk. by repeat split; try apply Hk. Qed.

(** The event that a successful [InsertEvent] leaves in the store has the
    static fields of the event it prepared. *)
Lemma InsertEvent_stored (fuel : nat) (p p' : Poset) (event : Event.t) (wire : bool) :
  storeKeyed (Store p) →
  InsertEvent fuel p event wire = (p', Ret tt) →
  ∃ p1 event3 fa e',
    prepareInsert p event wire = (p1, Ret (event3, fa))
    ∧ eventCache (Store p') !! Event.Hash event = Some e'
    ∧ sameStatic event3 e'.
Proof.
  intros [Hk Hkc] Hrun. unfold InsertEvent in Hrun.
  destruct (prepareInsert p event wire) as [p1 [[event3 fa]|e|]] eqn:Hprep; try done.
  pose proof (prepareInsert_Ret _ _ _ _ _ _ Hprep) as Hfacts. simpl in Hfacts.
  destruct Hfacts as (_ & _ & _ & _ & Hsame & Hhash & _).
  destruct Hsame as (_ & HS & _).
  destruct (SetEvent (Store p1) event3) as [s [e|]] eqn:Hset; [done|].
  apply SetEvent_ok in Hset as (Hec & Hcc & Htc).
  unfold SetRoundCreated in Hrun.
  match type of Hrun with finishInsert _ (withStore _ ?s1) _ _ _ = _ => set (s' := s1) in * end.
  assert (Inv (λ _, True) (λ _, True) s') as HI.
  { apply Inv_trivial. split.
    - intros h e. subst s'. unfold_with. rewrite Hec, HS.
      destruct (decide (h = Event.Hash event3)) as [->|Hne].
      + rewrite lookup_insert_eq. by intros [= <-].
      + rewrite lookup_insert_ne by done. apply Hk.
    - intros f h v. subst s'. unfold_with. rewrite Hcc, HS. apply Hkc. }
  pose proof (finishInsert_Good _ _ trivial_closed _ _ _ _ _ _ _ Hrun HI
                (λ _ _ _, I)) as [_ (Hev & _)].
  destruct (Hev (Event.Hash event3) event3) as (e' & He' & Hst).
  { subst s'. unfold_with. rewrite Hec. apply lookup_insert_eq. }
  exists p1, event3, fa, e'. rewrite <- Hhash. done.
Qed.

Lemma assignFrame_equal (p : Poset) (sp op : Event.t) (fa : FrameAssignment) :
  Event.Frame sp = Event.Frame op →
  assignFrame p sp op = Ret fa →
  ∃ opTable merged,
    Event.GetFlagTable op = (opTable, None)
    ∧ MergeFlagTable sp opTable (Event.Frame sp) = (merged, None)
    ∧ fa = if Z.of_nat (size merged) >=? GetSuperMajority p
           then mkFrameAssignment NewFlagTable merged true (int64 (Event.Frame sp + 1))
           else mkFrameAssignment merged ∅ false (Event.Frame sp).
Proof.
  intros Heq. unfold assignFrame. rewrite Heq, Z.eqb_refl.
  destruct (Event.GetFlagTable op) as [opTable [e|]]; [done|].
  rewrite <- Heq.
  destruct (MergeFlagTable sp opTable (Event.Frame sp)) as [merged [e|]] eqn:Hm; [done|].
  intros Hfa. exists opTable, merged. split; [done|]. split; [done|].
  destruct (Z.of_nat (size merged) >=? GetSuperMajority p); congruence.
Qed.

(** C1: when the self-parent and the other-parent of an inserted event are
    in the store and have the same frame, the merge of the other-parent's
    flag table into the self-parent's decides: with at least a supermajority
    of entries the event is a root of the next frame, its root table is the
    merged table and its flag table maps its own hash to its frame;
    otherwise it is no root, stays in the frame of its self-parent and its
    flag table is the merged table.  ([int64] is Go's addition; it is the
    plain sum below the largest frame number.) *)
Theorem equal_frames_decided_by_merged_table (fuel : nat) (p p' : Poset) (event : Event.t)
    (wire : bool) (sp op : Event.t) :
  storeKeyed (Store p) →
  InsertEvent fuel p event wire = (p', Ret tt) →
  eventCache (Store p) !! Event.SelfParent event = Some sp →
  eventCache (Store p) !! Event.OtherParent event = Some op →
  Event.Frame sp = Event.Frame op →
  ∃ opTable merged e',
    Event.GetFlagTable op = (opTable, None)
    ∧ MergeFlagTable sp opTable (Event.Frame sp) = (merged, None)
    ∧ eventCache (Store p') !! Event.Hash event = Some e'
    ∧ if Z.of_nat (size merged) >=? GetSuperMajority p
      then Event.Root e' = true
           ∧ Event.Frame e' = int64 (Event.Frame sp + 1)
           ∧ (MinInt64 ≤ Event.Frame sp < MaxInt64 → Event.Frame e' = Event.Frame sp + 1)
           ∧ Event.GetRootTable e' = (merged, None)
           ∧ Event.GetFlagTable e' = ({[Event.Hash event := Event.Frame e']}, None)
      else Event.Root e' = false
           ∧ Event.Frame e' = Event.Frame sp
           ∧ Event.GetFlagTable e' = (merged, None).
Proof.
  intros Hk Hrun Hsp Hop Hfr.
  destruct (InsertEvent_stored _ _ _ _ _ Hk Hrun) as (p1 & event3 & fa & e' & Hprep & He' & Hst).
  pose proof (prepareInsert_Ret _ _ _ _ _ _ Hprep) as Hfacts. simpl in Hfacts.
  unfold GetEventBlock in Hfacts. rewrite Hsp, Hop in Hfacts. simpl in Hfacts.
  destruct Hfacts as (_ & _ & _ & Hfa & _ & _ & _ & _ & Hf & Hft & Hrt & Hr & _).
  destruct (assignFrame_equal _ _ _ _ Hfr Hfa) as (opTable & merged & Hg & Hm & Hfa').
  destruct Hst as (_ & _ & Sf & Sft & Srt & Sr).
  exists opTable, merged, e'. split; [done|]. split; [done|]. split; [done|].
  unfold Event.GetRootTable, Event.GetFlagTable.
  rewrite <- Sf, <- Sft, <- Srt, <- Sr, Hf, Hft, Hrt, Hr, Hfa'.
  destruct (_ >=? _); simpl.
  - repeat split; try done. intros Hrange. apply int64_id. unfold MinInt64, MaxInt64 in *. lia.
  - done.
Qed.

End FrameAssignment.

Lemma pair_snd_eq {A B} (x : A * B) (b : B) : x.2 = b → x = (x.1, b).
Proof. destruct x. simpl. by intros ->. Qed.

Lemma demoStore_keyed : @storeKeyed specEnv demoStore.
Proof.
  split.
  - intros h e. apply (map_Forall_lookup_1 (λ h e, Event.Hash e = h) _ h e).
    apply (bool_decide_eq_true_1 (map_Forall (λ h e, Event.Hash e = h) (eventCache demoStore))).
    vm_compute. reflexivity.
  - intros f h v.
    apply (map_Forall_lookup_1 (λ k v, v = k.2) _ (f, h) v).
    apply (bool_decide_eq_true_1 (map_Forall (λ k v, v = k.2) (clothoCheckCache demoStore))).
    vm_compute. reflexivity.
Qed.

(** A's event 600 on top of the last events of A and B, both of frame 5:
    the merged flag table has three entries, the supermajority of three
    participants, and the event becomes a root of frame 6. *)
Lemma equal_frames_witness :
  ∃ opTable merged e',
    Event.GetFlagTable evB5 = (opTable, None)
    ∧ @MergeFlagTable specEnv evA5 opTable (Event.Frame evA5) = (merged, None)
    ∧ eventCache (Store (inserted demoPoset ev600)) !! Event.Hash ev600 = Some e'
    ∧ (if Z.of_nat (size merged) >=? @GetSuperMajority specEnv demoPoset then
         Event.Root e' = true
         ∧ Event.Frame e' = int64 (Event.Frame evA5 + 1)
         ∧ (MinInt64 ≤ Event.Frame evA5 < MaxInt64 → Event.Frame e' = Event.Frame evA5 + 1)
         ∧ Event.GetRootTable e' = (merged, None)
         ∧ Event.GetFlagTable e' = ({[ Event.Hash ev600 := Event.Frame e' ]}, None)
       else
         Event.Root e' = false
         ∧ Event.Frame e' = Event.Frame evA5
         ∧ Event.GetFlagTable e' = (merged, None)).
Proof.
  apply (@equal_frames_decided_by_merged_table specEnv 10 demoPoset (inserted demoPoset ev600) ev600 false
              evA5 evB5 demoStore_keyed).
  - unfold inserted. apply pair_snd_eq. vm_compute. reflexivity.
  - vm_compute; reflexivity.
  - vm_compute; reflexivity.
  - vm_compute; reflexivity.
Defined.

Example equal_frames_scenario :
  @MergeFlagTable specEnv evA5 (Event.GetFlagTable evB5).1 5
  = ({[ 501 := 5; 502 := 5; 503 := 5 ]}, None)
  ∧ (Event.Root <$> eventCache (Store (inserted demoPoset ev600)) !! 600) = Some true
  ∧ (Event.Frame <$> eventCache (Store (inserted demoPoset ev600)) !! 600) = Some 6
  ∧ (Event.GetRootTable <$> eventCache (Store (inserted demoPoset ev600)) !! 600)
    = Some ({[ 501 := 5; 502 := 5; 503 := 5 ]}, None)
  ∧ (Event.GetFlagTable <$> eventCache (Store (inserted demoPoset ev600)) !! 600) = Some ({[ 600 := 6 ]}, None).
Proof. vm_compute. repeat split. Qed.

Section FrameAssignmentBelow.
Context `{Env}.

Lemma assignFrame_below (p : Poset) (sp op : Event.t) (fa : FrameAssignment) :
  Event.Frame sp < Event.Frame op →
  assignFrame p sp op = Ret fa →
  ∃ otherRoot otherRootTable rootTable opTable,
    GetClothoCreatorCheck (Store p) (Event.Frame op) (Event.CreatorID op) = (otherRoot, None)
    ∧ Event.GetRootTable (GetEventBlock (Store p) otherRoot).1 = (otherRootTable, None)
    ∧ MergeFlagTable sp otherRootTable (int64 (Event.Frame op - 1)) = (rootTable, None)
    ∧ Event.GetFlagTable op = (opTable, None)
    ∧ fa = mkFrameAssignment opTable rootTable true (Event.Frame op).
Proof.
  intros Hlt. unfold assignFrame.
  destruct (Event.Frame sp =? Event.Frame op) eqn:E1; [apply Z.eqb_eq in E1; lia|].
  destruct (Event.Frame sp >? Event.Frame op) eqn:E2; [apply Z.gtb_lt in E2; lia|].
  destruct (GetClothoCreatorCheck _ _ _) as [otherRoot [e|]] eqn:Hcc; [done|].
  destruct (GetEventBlock (Store p) otherRoot) as [otherRootEvent err] eqn:Hev.
  destruct (Event.GetRootTable otherRootEvent) as [otherRootTable [e|]] eqn:Hrt; [done|].
  destruct (MergeFlagTable sp otherRootTable _) as [rootTable [e|]] eqn:Hm; [done|].
  destruct (Event.GetFlagTable op) as [opTable [e|]] eqn:Hft; [done|].
  intros [= <-]. exists otherRoot, otherRootTable, rootTable, opTable.
  rewrite Hev. simpl. by rewrite Hrt.
Qed.

(** C2 (amended): when the frame of the self-parent is below the frame of
    the other-parent, the inserted event is a root in the frame of the
    other-parent; its root table is the self-parent's flag table merged with
    the root table of the root that the clotho-check index holds for the
    other-parent's own frame and creator (the merge is told the frame
    before); its flag table is the other-parent's with one more entry, its
    own hash at its frame. *)
Theorem lower_self_parent_frame (fuel : nat) (p p' : Poset) (event : Event.t)
    (wire : bool) (sp op : Event.t) :
  storeKeyed (Store p) →
  InsertEvent fuel p event wire = (p', Ret tt) →
  eventCache (Store p) !! Event.SelfParent event = Some sp →
  eventCache (Store p) !! Event.OtherParent event = Some op →
  Event.Frame sp < Event.Frame op →
  ∃ otherRoot otherRootTable rootTable opTable e',
    GetClothoCreatorCheck (Store p) (Event.Frame op) (Event.CreatorID op) = (otherRoot, None)
    ∧ Event.GetRootTable (GetEventBlock (Store p) otherRoot).1 = (otherRootTable, None)
    ∧ MergeFlagTable sp otherRootTable (int64 (Event.Frame op - 1)) = (rootTable, None)
    ∧ Event.GetFlagTable op = (opTable, None)
    ∧ eventCache (Store p') !! Event.Hash event = Some e'
    ∧ Event.Root e' = true
    ∧ Event.Frame e' = Event.Frame op
    ∧ Event.GetRootTable e' = (rootTable, None)
    ∧ Event.GetFlagTable e' = (<[Event.Hash event := Event.Frame op]> opTable, None).
Proof.
  intros Hk Hrun Hsp Hop Hfr.
  destruct (InsertEvent_stored _ _ _ _ _ Hk Hrun) as (p1 & event3 & fa & e' & Hprep & He' & Hst).
  pose proof (prepareInsert_Ret _ _ _ _ _ _ Hprep) as Hfacts. simpl in Hfacts.
  unfold GetEventBlock in Hfacts. rewrite Hsp, Hop in Hfacts. simpl in Hfacts.
  destruct Hfacts as (_ & _ & _ & Hfa & _ & _ & _ & _ & Hf & Hft & Hrt & Hr & _).
  destruct (assignFrame_below _ _ _ _ Hfr Hfa)
    as (otherRoot & otherRootTable & rootTable & opTable & Hcc & Hort & Hm & Hg & Hfa').
  destruct Hst as (_ & _ & Sf & Sft & Srt & Sr).
  exists otherRoot, otherRootTable, rootTable, opTable, e'.
  repeat (split; [done|]).
  unfold Event.GetRootTable, Event.GetFlagTable.
  rewrite <- Sf, <- Sft, <- Srt, <- Sr, Hf, Hft, Hrt, Hr, Hfa'. done.
Qed.

End FrameAssignmentBelow.

(** A's event 700 on top of A's last event (frame 5) and B's root of
    frame 7. *)
Lemma lower_self_parent_frame_witness :
  ∃ otherRoot otherRootTable rootTable opTable e',
    @GetClothoCreatorCheck specEnv (Store demoPoset) (Event.Frame evB7) (Event.CreatorID evB7)
    = (otherRoot, None)
    ∧ Event.GetRootTable (@GetEventBlock specEnv (Store demoPoset) otherRoot).1 = (otherRootTable, None)
    ∧ @MergeFlagTable specEnv evA5 otherRootTable (int64 (Event.Frame evB7 - 1))
      = (rootTable, None)
    ∧ Event.GetFlagTable evB7 = (opTable, None)
    ∧ eventCache (Store (inserted demoPoset ev700)) !! Event.Hash ev700 = Some e'
    ∧ Event.Root e' = true
    ∧ Event.Frame e' = Event.Frame evB7
    ∧ Event.GetRootTable e' = (rootTable, None)
    ∧ Event.GetFlagTable e' = (<[Event.Hash ev700 := Event.Frame evB7]> opTable, None).
Proof.
  apply (@lower_self_parent_frame specEnv 10 demoPoset (inserted demoPoset ev700) ev700 false evA5 evB7
           demoStore_keyed).
  - unfold inserted. apply pair_snd_eq. vm_compute. reflexivity.
  - vm_compute; reflexivity.
  - vm_compute; reflexivity.
  - vm_compute; reflexivity.
Defined.

(** C2, as stated, fails for that event: the root table that is stored comes
    from B's root of frame 7 (the roots 611, 612 and 613 of frame 6), not
    from B's root of frame 6 (which gives 501, 502 and 503), and the stored
    flag table has an entry that the other-parent's flag table has not. *)
Lemma lower_self_parent_frame_counterexample :
  insertResult demoPoset ev700 = Ret tt
  ∧ eventCache (Store demoPoset) !! Event.SelfParent ev700 = Some evA5
  ∧ eventCache (Store demoPoset) !! Event.OtherParent ev700 = Some evB7
  ∧ (Event.Frame evA5 <? Event.Frame evB7) = true
  ∧ (Event.GetRootTable <$> eventCache (Store (inserted demoPoset ev700)) !! 700)
    = Some ({[ 501 := 5; 502 := 5; 611 := 6; 612 := 6; 613 := 6 ]}, None)
  ∧ @specRootTableBelow specEnv demoPoset evA5 evB7
    = ({[ 501 := 5; 502 := 5; 503 := 5 ]}, None)
  ∧ (Event.GetFlagTable <$> eventCache (Store (inserted demoPoset ev700)) !! 700)
    = Some ({[ 207 := 7; 700 := 7 ]}, None)
  ∧ Event.GetFlagTable evB7 = ({[ 207 := 7 ]}, None)
  ∧ bool_decide
      ((λ e, (Event.GetRootTable e).1) <$> eventCache (Store (inserted demoPoset ev700)) !! 700
       = Some (@specRootTableBelow specEnv demoPoset evA5 evB7).1) = false
  ∧ bool_decide
      ((λ e, (Event.GetFlagTable e).1) <$> eventCache (Store (inserted demoPoset ev700)) !! 700
       = Some (Event.GetFlagTable evB7).1) = false.
Proof. vm_compute. repeat split. Qed.

(** ** Errors of the insertion *)

Section InsertErrors.
Context `{Env}.

Lemma forEach_noFail {S X : Type} (body : S → X → S * outcome unit) (l : list X) :
  (∀ s x s' e, body s x ≠ (s', Fail e)) →
  ∀ s s' e, forEach body l s ≠ (s', Fail e).
Proof.
  intros Hbody. induction l as [|x l IH]; intros s s' e; simpl; [done|].
  destruct (body s x) as [s1 [[]|e1|]] eqn:Hb; [apply IH| |done].
  intros [= -> ->]. by eapply Hbody.
Qed.

Lemma accountEvent_noFail (p p' : Poset) (ev : Event.t) e :
  accountEvent p ev ≠ (p', Fail e).
Proof. unfold accountEvent. by destruct (AddConsensusEvent _ _) as [s [e'|]]. Qed.

Lemma followParent_noFail (recurse : Poset → Event.t → Z → Poset * outcome Z) :
  (∀ p x f p' e, recurse p x f ≠ (p', Fail e)) →
  ∀ p parent frame p' e, followParent recurse p parent frame ≠ (p', Fail e).
Proof.
  intros Hrec p parent frame p' e. unfold followParent.
  destruct (Event.FrameReceived parent =? 0).
  - destruct (Event.AtroposTimestamp _ =? 0).
    + destruct (recurse p _ frame) as [p1 [t|e1|]] eqn:Hr; [| by eapply Hrec in Hr |done].
      destruct (accountEvent p1 _) as [p2 [[]|e2|]] eqn:Ha;
        [| by apply accountEvent_noFail in Ha |done].
      by destruct (SetEvent _ _) as [s [e3|]].
    + by destruct (SetEvent _ _) as [s [e3|]].
  - destruct (Event.AtroposTimestamp _ =? 0).
    + destruct (recurse p _ frame) as [p1 [t|e1|]] eqn:Hr; [| by eapply Hrec in Hr |done].
      destruct (accountEvent p1 _) as [p2 [[]|e2|]] eqn:Ha;
        [| by apply accountEvent_noFail in Ha |done].
      by destruct (SetEvent _ _) as [s [e3|]].
    + done.
Qed.

Lemma AssignAtroposTime2_noFail (fuel : nat) :
  ∀ p x frame p' e, AssignAtroposTime2 fuel p x frame ≠ (p', Fail e).
Proof.
  induction fuel as [|fuel IH]; intros p x frame p' e; simpl; [done|].
  destruct (GetEventBlock (Store p) (Event.SelfParent x)) as [selfParent [e1|]].
  - destruct (GetEventBlock (Store p) (Event.OtherParent x)) as [otherParent [e2|]]; [done|].
    destruct (followParent _ p otherParent frame) as [p2 [o|e3|]] eqn:Hf; [done| |done].
    by apply (followParent_noFail _ IH) in Hf.
  - destruct (followParent _ p selfParent frame) as [p1 [o|e3|]] eqn:Hf;
      [| by apply (followParent_noFail _ IH) in Hf |done].
    destruct (GetEventBlock (Store p1) (Event.OtherParent x)) as [otherParent [e2|]]; [done|].
    destruct (followParent _ p1 otherParent frame) as [p2 [o'|e4|]] eqn:Hf2; [done| |done].
    by apply (followParent_noFail _ IH) in Hf2.
Qed.

Lemma promoteAtropos_noFail (fuel : nat) (p p' : Poset) (clotho : Event.t) e :
  promoteAtropos fuel p clotho ≠ (p', Fail e).
Proof.
  unfold promoteAtropos.
  set (clotho1 := Event.withFrameReceived _ _).
  destruct (if Event.AtroposTimestamp clotho1 =? 0 then _ else _) as [p1 [[]|e1|]] eqn:Hr.
  - destruct (AssignAtroposTime2 fuel p1 clotho1 _) as [p2 [t|e2|]] eqn:Ha;
      [| by apply AssignAtroposTime2_noFail in Ha |done].
    by destruct (SetEvent _ _) as [s [e3|]].
  - destruct (Event.AtroposTimestamp clotho1 =? 0); [|done].
    by apply accountEvent_noFail in Hr.
  - done.
Qed.

Lemma atroposStep_noFail (fuel : nat) (x : Event.t) (p p' : Poset) (kv : Z * gmap Z Z) e :
  atroposStep fuel x p kv ≠ (p', Fail e).
Proof.
  unfold atroposStep. destruct kv as [key val].
  destruct (GetEventBlock (Store p) key) as [clotho [e1|]]; [done|].
  destruct (Event.Atropos clotho); [done|].
  destruct (Z.rem _ _ =? 0); [by destruct (coinVote val)|].
  destruct (majorityVote val) as [maxVal maxInd].
  destruct (maxVal >=? GetSuperMajority p); [|done].
  simpl. apply promoteAtropos_noFail.
Qed.

(** [AtroposTimeSelection] returns an error before it changes anything. *)
Lemma AtroposTimeSelection_Fail (fuel : nat) (p p' : Poset) (x : Event.t) e :
  AtroposTimeSelection fuel p x = (p', Fail e) → p' = p.
Proof.
  unfold AtroposTimeSelection.
  destruct (Event.GetRootTable x) as [rootTable [e1|]]; [by intros [= <-]|].
  destruct (forEach (collectVotes (Store p)) _ _) as [countMap [[]|e2|]];
    [|by intros [= <-]|done].
  intros Hrun. exfalso. revert Hrun. apply forEach_noFail.
  intros s kv s' e'. apply atroposStep_noFail.
Qed.

(** [ClothoChecking] writes to the store only. *)
Lemma ClothoChecking_store (p p' : Poset) (x : Event.t) r :
  ClothoChecking p x = (p', r) → ∃ s, p' = withStore p s.
Proof.
  unfold ClothoChecking.
  assert (p = withStore p (Store p)) as Hp by by destruct p.
  destruct (Event.GetRootTable x) as [rootTable [e1|]];
    [intros [= <- _]; by exists (Store p)|].
  destruct (forEach (ccLevel1 (Store p)) _ _) as [ccList [[]|e2|]];
    [|intros [= <- _]; by exists (Store p)..].
  destruct (forEach _ (range ccList) (Store p)) as [s r'].
  intros [= <- _]. by exists s.
Qed.

Lemma finishInsert_Fail (fuel : nat) (p p' : Poset) (event : Event.t) (root : bool)
    (frame : Z) e :
  finishInsert fuel p event root frame = (p', Fail e) →
  (∃ f c, e = Wrapf f c ∧ f ∈ lateFormats)
  ∧ UndeterminedEvents p' = UndeterminedEvents p
  ∧ pendingLoadedEvents p' = pendingLoadedEvents p
  ∧ SigPool p' = SigPool p.
Proof.
  unfold finishInsert. destruct root; [|done].
  destruct (rootChecks fuel p event frame) as [p1 [[]|e1|]] eqn:Hr; [done| |done].
  intros [= <- <-]. unfold rootChecks in Hr.
  destruct (AddClothoCheck _ _ _ _) as [s [e0|]]; [done|].
  destruct (ClothoChecking _ event) as [p2 [[]|e2|]] eqn:Hcc.
  - destruct (AtroposTimeSelection fuel p2 event) as [p3 [[]|e3|]] eqn:Hat; try done.
    injection Hr as <- <-.
    apply AtroposTimeSelection_Fail in Hat as ->.
    apply ClothoChecking_store in Hcc as [s' ->].
    split; [|done]. eexists _, _. split; [done|]. unfold lateFormats. set_solver.
  - injection Hr as <- <-. apply ClothoChecking_store in Hcc as [s' ->].
    split; [|done]. eexists _, _. split; [done|]. unfold lateFormats. set_solver.
  - done.
Qed.

End InsertErrors.

Section InsertRejections.
Context `{Env}.


(** What [InsertEvent] returns with an error: either the error came before
    the store was written to and the poset differs in its topological index
    at most, or it is one of the late errors and the queues are as before. *)
Lemma InsertEvent_Fail (fuel : nat) (p p' : Poset) (event : Event.t) (wire : bool) e :
  InsertEvent fuel p event wire = (p', Fail e) →
  (prepareInsert p event wire = (p', Fail e) ∧ sameButIndex p p')
  ∨ (lateError e = true
     ∧ UndeterminedEvents p' = UndeterminedEvents p
     ∧ pendingLoadedEvents p' = pendingLoadedEvents p
     ∧ SigPool p' = SigPool p).
Proof.
  unfold InsertEvent.
  destruct (prepareInsert p event wire) as [p1 [[event3 fa]|e1|]] eqn:Hprep; [| |done].
  - apply prepareInsert_state in Hprep as (_ & _ & HU & _ & _ & _ & HS & _ & HP & _).
    intros Hrun. right.
    destruct (SetEvent (Store p1) event3) as [s [e2|]].
    { injection Hrun as <- <-. by rewrite <- HU, <- HP, <- HS. }
    unfold SetRoundCreated in Hrun.
    apply finishInsert_Fail in Hrun as ((f & c & -> & Hf) & HU' & HP' & HS').
    rewrite <- HU, <- HP, <- HS. split; [|done].
    simpl. by apply bool_decide_eq_true_2.
  - intros [= <- <-]. left. split; [done|]. by eapply prepareInsert_state.
Qed.

(** C6 (amended): when [InsertEvent] returns an error, the undetermined
    events, the count of pending loaded events and the signature pool are as
    before the call; the store with its clotho-check index and its time
    tables is as before unless the error is one of [Store.SetEvent], of
    [ClothoChecking] or of [AtroposTimeSelection], which are returned after
    the store was written to. *)
Theorem failed_insert_keeps_queues (fuel : nat) (p p' : Poset) (event : Event.t)
    (wire : bool) (e : error) :
  InsertEvent fuel p event wire = (p', Fail e) →
  UndeterminedEvents p' = UndeterminedEvents p
  ∧ pendingLoadedEvents p' = pendingLoadedEvents p
  ∧ SigPool p' = SigPool p
  ∧ (lateError e = false → Store p' = Store p).
Proof.
  intros Hrun.
  apply InsertEvent_Fail in Hrun as [[_ Hsame]|(Hlate & HU & HP & HS)].
  - destruct Hsame as (_ & HSt & HU & _ & _ & _ & HS & _ & HP & _). done.
  - repeat (split; [done|]). by rewrite Hlate.
Qed.



End InsertRejections.



(** The event 800 is a root whose root table names the root 504, for which
    the store has no time table: [AtroposTimeSelection] returns an error. *)
Lemma failed_insert_witness :
  UndeterminedEvents (inserted demoPoset ev800) = UndeterminedEvents demoPoset
  ∧ pendingLoadedEvents (inserted demoPoset ev800) = pendingLoadedEvents demoPoset
  ∧ SigPool (inserted demoPoset ev800) = SigPool demoPoset
  ∧ (lateError (Wrapf "AtroposTimeSelection(newHead):%v"
                  (StoreErr "GetTimeTableCache" KeyNotFound)) = false
     → Store (inserted demoPoset ev800) = Store demoPoset).
Proof.
  apply (@failed_insert_keeps_queues specEnv 10 demoPoset (inserted demoPoset ev800)
           ev800 false).
  unfold inserted. apply pair_snd_eq. vm_compute. reflexivity.
Defined.

(** C6, as stated, fails for that event: [InsertEvent] returns an error and
    the store holds the event 800, which it did not hold before, and the
    clotho-check index has an entry for it. *)
Lemma failed_insert_counterexample :
  insertResult demoPoset ev800
  = Fail (Wrapf "AtroposTimeSelection(newHead):%v" (StoreErr "GetTimeTableCache" KeyNotFound))
  ∧ eventCache (Store demoPoset) !! 800 = None
  ∧ (Event.Hash <$> eventCache (Store (inserted demoPoset ev800)) !! 800) = Some 800
  ∧ clothoCheckCache (Store demoPoset) !! (6, 800) = None
  ∧ clothoCheckCache (Store (inserted demoPoset ev800)) !! (6, 800) = Some 800.
Proof. vm_compute. repeat (split; [reflexivity|]). reflexivity. Qed.

(** ** The Lamport timestamp that the insertion assigns *)

Section InsertedLamport.
Context `{Env}.

Lemma stampEvent_lamport (event sp op : Event.t) (fa : FrameAssignment) :
  Event.GetLamportTimestamp event = LamportTimestampNIL →
  Event.LamportTimestamp (stampEvent event sp op fa)
  = int64 (Z.max (Event.GetLamportTimestamp sp) (Event.GetLamportTimestamp op) + 1).
Proof.
  intros Hnil. unfold stampEvent. simpl.
  unfold Event.GetLamportTimestamp in *. simpl. rewrite Hnil, Z.eqb_refl. simpl.
  destruct (Z.gtb_spec (Event.LamportTimestamp op) (Event.LamportTimestamp sp)).
  - by rewrite Z.max_r by lia.
  - by rewrite Z.max_l by lia.
Qed.

(** C7 (what the code does at insertion): an event that comes without a
    Lamport timestamp is stored with one more than the larger of the
    timestamps of what the store returns for its two parents, and for a
    parent that is not in the store that is the zero event, with timestamp
    0; the root descriptors are not looked at. *)
Theorem inserted_lamport (fuel : nat) (p p' : Poset) (event : Event.t) (wire : bool) :
  storeKeyed (Store p) →
  InsertEvent fuel p event wire = (p', Ret tt) →
  Event.GetLamportTimestamp event = LamportTimestampNIL →
  ∃ e',
    eventCache (Store p') !! Event.Hash event = Some e'
    ∧ Event.GetLamportTimestamp e'
      = int64 (Z.max
                 (Event.GetLamportTimestamp
                    (GetEventBlock (Store p) (Event.SelfParent event)).1)
                 (Event.GetLamportTimestamp
                    (GetEventBlock (Store p) (Event.OtherParent event)).1) + 1)
    ∧ (eventCache (Store p) !! Event.SelfParent event = None →
       eventCache (Store p) !! Event.OtherParent event = None →
       Event.GetLamportTimestamp e' = 1).
Proof.
  intros Hk Hrun Hnil.
  destruct (InsertEvent_stored _ _ _ _ _ Hk Hrun) as (p1 & event3 & fa & e' & Hprep & He' & Hst).
  pose proof (prepareInsert_Ret _ _ _ _ _ _ Hprep) as Hfacts. simpl in Hfacts.
  destruct Hfacts as (_ & _ & _ & _ & _ & _ & _ & Hl & _).
  destruct Hst as (_ & Sl & _).
  exists e'. split; [done|].
  assert (Event.GetLamportTimestamp e'
          = int64 (Z.max
                 (Event.GetLamportTimestamp
                    (GetEventBlock (Store p) (Event.SelfParent event)).1)
                 (Event.GetLamportTimestamp
                    (GetEventBlock (Store p) (Event.OtherParent event)).1) + 1)) as Heq.
  { unfold Event.GetLamportTimestamp at 1. rewrite <- Sl, Hl.
    by apply stampEvent_lamport. }
  split; [done|].
  intros Hsp Hop. rewrite Heq. unfold GetEventBlock. rewrite Hsp, Hop. done.
Qed.

End InsertedLamport.

Lemma freshStore_keyed : @storeKeyed specEnv (Store freshPoset).
Proof.
  split.
  - intros h e. apply (map_Forall_lookup_1 (λ h e, Event.Hash e = h) _ h e).
    apply (bool_decide_eq_true_1
             (map_Forall (λ h e, Event.Hash e = h) (eventCache (Store freshPoset)))).
    vm_compute. reflexivity.
  - intros f h v.
    apply (map_Forall_lookup_1 (λ k v, v = k.2) _ (f, h) v).
    apply (bool_decide_eq_true_1
             (map_Forall (λ k v, v = k.2) (clothoCheckCache (Store freshPoset)))).
    vm_compute. reflexivity.
Qed.

(** The first event of A in a poset that holds the base roots only. *)
Lemma inserted_lamport_witness :
  ∃ e',
    eventCache (Store (inserted freshPoset ev100)) !! Event.Hash ev100 = Some e'
    ∧ Event.GetLamportTimestamp e'
      = int64 (Z.max
                 (Event.GetLamportTimestamp
                    (@GetEventBlock specEnv (Store freshPoset) (Event.SelfParent ev100)).1)
                 (Event.GetLamportTimestamp
                    (@GetEventBlock specEnv (Store freshPoset) (Event.OtherParent ev100)).1)
               + 1)
    ∧ (eventCache (Store freshPoset) !! Event.SelfParent ev100 = None →
       eventCache (Store freshPoset) !! Event.OtherParent ev100 = None →
       Event.GetLamportTimestamp e' = 1).
Proof.
  apply (@inserted_lamport specEnv 10 freshPoset (inserted freshPoset ev100) ev100 false
           freshStore_keyed).
  - unfold inserted. apply pair_snd_eq. vm_compute. reflexivity.
  - vm_compute. reflexivity.
Defined.

(** C7 fails for that event: its self-parent is the base root of A, whose
    Lamport timestamp is -1; [InsertEvent] stores the event with the
    timestamp 1, and [lamportTimestamp] computes 0 for it. *)
Lemma leaf_lamport_divergence :
  insertResult freshPoset ev100 = Ret tt
  ∧ (RootEvent.LamportTimestamp ∘ Root.SelfParent
     <$> rootsByParticipant (Store freshPoset) !! Event.GetCreator ev100) = Some (-1)
  ∧ (RootEvent.Hash ∘ Root.SelfParent
     <$> rootsByParticipant (Store freshPoset) !! Event.GetCreator ev100)
    = Some (Event.SelfParent ev100)
  ∧ (Event.GetLamportTimestamp <$> eventCache (Store (inserted freshPoset ev100)) !! 100)
    = Some 1
  ∧ (@lamportTimestamp specEnv 10 (inserted freshPoset ev100) 100).2 = Ret 0.
Proof. vm_compute. repeat (split; [reflexivity|]). reflexivity. Qed.

(** ** The order of the events of a frame *)

Lemma keyLe_refl (a : Z * Z * Z * Z) : keyLe a a.
Proof. destruct a as [[[a1 a2] a3] a4]. simpl. lia. Qed.

Lemma keyLe_trans (a b c : Z * Z * Z * Z) : keyLe a b → keyLe b c → keyLe a c.
Proof.
  destruct a as [[[a1 a2] a3] a4], b as [[[b1 b2] b3] b4], c as [[[c1 c2] c3] c4].
  simpl. lia.
Qed.

Lemma keyLe_total (a b : Z * Z * Z * Z) : keyLe a b ∨ keyLe b a.
Proof.
  destruct a as [[[a1 a2] a3] a4], b as [[[b1 b2] b3] b4]. simpl. lia.
Qed.

Lemma keyLe_antisym (a b : Z * Z * Z * Z) : keyLe a b → keyLe b a → a = b.
Proof.
  destruct a as [[[a1 a2] a3] a4], b as [[[b1 b2] b3] b4]. simpl.
  intros H1 H2. repeat f_equal; lia.
Qed.

Section FrameOrder.
Context `{Env}.

(** [Less] is the strict part of the lexicographic order of the keys. *)
Lemma Less_spec (a b : Event.t) :
  Less a b = true ↔ keyLe (sortKey a) (sortKey b) ∧ sortKey a ≠ sortKey b.
Proof.
  unfold Less. destruct (sortKey a) as [[[a1 a2] a3] a4], (sortKey b) as [[[b1 b2] b3] b4].
  simpl.
  destruct (Z.eqb_spec a1 b1), (Z.eqb_spec a2 b2), (Z.eqb_spec a3 b3); simpl;
    rewrite Z.ltb_lt;
    (split; [intros ?; split; [lia|intros [= ? ? ? ?]; lia]|intros [Hle Hne]]);
    (destruct (decide (a4 = b4)); [|lia]); try lia.
  subst. by destruct Hne.
Qed.

Lemma Less_false (a b : Event.t) : Less a b = false ↔ keyOrdered b a.
Proof.
  unfold keyOrdered. split.
  - intros Hf. destruct (keyLe_total (sortKey b) (sortKey a)) as [|Hab]; [done|].
    destruct (decide (sortKey a = sortKey b)) as [->|Hne]; [apply keyLe_refl|].
    assert (Less a b = true) by by apply Less_spec. congruence.
  - intros Hba. destruct (Less a b) eqn:Hl; [|done].
    apply Less_spec in Hl as [Hab Hne]. destruct Hne. by apply keyLe_antisym.
Qed.

Lemma insertStable_perm (x : Event.t) (l : list Event.t) : insertStable x l ≡ₚ x :: l.
Proof.
  induction l as [|y l IH]; simpl; [done|].
  destruct (Less y x); [|done]. rewrite IH. apply Permutation_swap.
Qed.

Lemma sortStable_perm (l : list Event.t) : sortStable l ≡ₚ l.
Proof.
  unfold sortStable. induction l as [|x l IH]; simpl; [done|].
  by rewrite insertStable_perm, IH.
Qed.

Lemma insertStable_sorted (x : Event.t) (l : list Event.t) :
  StronglySorted keyOrdered l → StronglySorted keyOrdered (insertStable x l).
Proof.
  induction 1 as [|y l Hs IH Hall]; simpl.
  - by repeat constructor.
  - destruct (Less y x) eqn:Hl.
    + constructor; [done|].
      rewrite insertStable_perm. constructor; [|done].
      apply Less_spec in Hl as [Hl _]. exact Hl.
    + apply Less_false in Hl.
      constructor; [by constructor|]. constructor; [done|].
      eapply Forall_impl; [exact Hall|]. intros z Hz. by eapply keyLe_trans.
Qed.

Lemma sortStable_sorted (l : list Event.t) : StronglySorted keyOrdered (sortStable l).
Proof.
  unfold sortStable. induction l as [|x l IH]; simpl; [constructor|].
  by apply insertStable_sorted.
Qed.

(** The sort is stable: the events of one key keep their order. *)
Lemma insertStable_stable (k : Z * Z * Z * Z) (x : Event.t) (l : list Event.t) :
  filter (λ e, sortKey e = k) (insertStable x l) = filter (λ e, sortKey e = k) (x :: l).
Proof.
  induction l as [|y l IH]; simpl; [done|].
  destruct (Less y x) eqn:Hl; [|done].
  apply Less_spec in Hl as [_ Hne].
  rewrite !filter_cons in *. rewrite IH.
  destruct (decide (sortKey y = k)), (decide (sortKey x = k)); try done.
  congruence.
Qed.

Lemma sortStable_stable (k : Z * Z * Z * Z) (l : list Event.t) :
  filter (λ e, sortKey e = k) (sortStable l) = filter (λ e, sortKey e = k) l.
Proof.
  unfold sortStable. induction l as [|x l IH]; simpl; [done|].
  rewrite insertStable_stable, !filter_cons. by rewrite IH.
Qed.

(** C4: the events of the frame that [MakeFrame] returns are the events of
    the round received, fetched from the store and put in the ascending
    order of the key (atropos timestamp, Lamport timestamp, hash of the flag
    table, XOR of the signature): the same events, every one before the
    events with a larger key, and events with the same key in the order in
    which they were fetched. *)
Theorem MakeFrame_events_sorted (fuel : nat) (p p' : Poset) (roundReceived : Z)
    (frame : Frame.t) :
  MakeFrame fuel p roundReceived = (p', Ret frame) →
  ∃ hashes fetched sorted,
    GetRoundReceived (Store p) roundReceived = (hashes, None)
    ∧ fetchEvents (Store p) hashes = Ret fetched
    ∧ Frame.Events frame = map Event.Message sorted
    ∧ sorted ≡ₚ fetched
    ∧ StronglySorted keyOrdered sorted
    ∧ ∀ k, filter (λ e, sortKey e = k) sorted = filter (λ e, sortKey e = k) fetched.
Proof.
  unfold MakeFrame.
  destruct (GetRoundReceived (Store p) roundReceived) as [hashes [e|]] eqn:Hround; [done|].
  destruct (fetchEvents (Store p) hashes) as [fetched|e|] eqn:Hfetch; [|done..].
  destruct (ApplyInternalTransactions p roundReceived _) as [stateHash [e|]]; [done|].
  destruct (forEach (rootOfCreator fuel) _ _) as [[p1 roots1] [[]|e|]]; [|done..].
  destruct (forEach (rootOfPeer fuel) _ _) as [[p2 roots2] [[]|e|]]; [|done..].
  destruct (forEach (otherOfEvent fuel) _ _) as [[[p3 roots3] treated] [[]|e|]]; [|done..].
  destruct (SetFrame (Store p3) _) as [s [e|]]; [done|].
  intros [= _ <-]. exists hashes, fetched, (sortStable fetched).
  split; [done|]. split; [done|]. split; [done|].
  split; [apply sortStable_perm|]. split; [apply sortStable_sorted|].
  intros k. apply sortStable_stable.
Qed.

End FrameOrder.

(** The frame of round 1 of the three leaves: B's leaf has the least
    atropos timestamp; the leaves of C and A have the same key and stay in
    the order in which the round lists them. *)
Lemma MakeFrame_events_witness :
  ∃ hashes fetched sorted,
    @GetRoundReceived specEnv (Store leafPoset) 1 = (hashes, None)
    ∧ @fetchEvents specEnv (Store leafPoset) hashes = Ret fetched
    ∧ Frame.Events (frameOf (@MakeFrame specEnv 10 leafPoset 1).2)
      = map Event.Message sorted
    ∧ sorted ≡ₚ fetched
    ∧ StronglySorted (@keyOrdered specEnv) sorted
    ∧ ∀ k, filter (λ e, @sortKey specEnv e = k) sorted
           = filter (λ e, @sortKey specEnv e = k) fetched.
Proof.
  apply (@MakeFrame_events_sorted specEnv 10 leafPoset (@MakeFrame specEnv 10 leafPoset 1).1 1).
  apply pair_snd_eq. vm_compute. reflexivity.
Defined.

Example MakeFrame_events_scenario :
  EventMessage.Hash <$> Frame.Events (frameOf (@MakeFrame specEnv 10 leafPoset 1).2)
  = [200; 300; 100].
Proof. vm_compute. reflexivity. Qed.

(** ** Atropos promotion *)

Section PromotionTime.
Context `{Env}.
Variables P Q : Event.t → Prop.
Hypothesis HC : FlagClosed P Q.

Lemma followParent_lamport (recurse : Poset → Event.t → Z → Poset * outcome Z)
    (p p' : Poset) (parent parent' : Event.t) (frame : Z) :
  followParent recurse p parent frame = (p', Ret parent') →
  Event.LamportTimestamp parent' = Event.LamportTimestamp parent.
Proof.
  unfold followParent.
  destruct (Event.FrameReceived parent =? 0).
  - destruct (Event.AtroposTimestamp _ =? 0).
    + destruct (recurse p _ frame) as [p1 [t|e1|]]; [|done..].
      destruct (accountEvent p1 _) as [p2 [[]|e2|]]; [|done..].
      destruct (SetEvent _ _) as [s [e3|]]; [done|]. by intros [= _ <-].
    + destruct (SetEvent _ _) as [s [e3|]]; [done|]. by intros [= _ <-].
  - destruct (Event.AtroposTimestamp _ =? 0).
    + destruct (recurse p _ frame) as [p1 [t|e1|]]; [|done..].
      destruct (accountEvent p1 _) as [p2 [[]|e2|]]; [|done..].
      destruct (SetEvent _ _) as [s [e3|]]; [done|]. by intros [= _ <-].
    + by intros [= _ <-].
Qed.

Lemma parentTime_evolves (s s' : InmemStore) (c : Event.t) :
  evolves s s' → parentTime s' c = parentTime s c.
Proof.
  intros (Hev & _ & Hnone). unfold parentTime.
  destruct (eventCache s !! Event.OtherParent c) as [op|] eqn:Hop.
  - destruct (Hev _ _ Hop) as (op' & -> & Hst). symmetry. apply Hst.
  - by rewrite (Hnone _ Hop).
Qed.

Lemma AssignAtroposTime2_time (fuel : nat) (p p' : Poset) (x : Event.t) (frame t : Z) :
  Inv P Q (Store p) →
  AssignAtroposTime2 fuel p x frame = (p', Ret t) →
  t = parentTime (Store p) x.
Proof.
  intros HI. destruct fuel as [|fuel]; simpl; [done|].
  assert (Hsecond : ∀ p1 q,
     (let '(otherParent, otherErr) := GetEventBlock (Store p1) (Event.OtherParent x) in
      match otherErr with
      | None =>
          match followParent (AssignAtroposTime2 fuel) p1 otherParent frame with
          | (p2, Ret otherParent') => (p2, Ret (Event.LamportTimestamp otherParent'))
          | (p2, Fail e') => (p2, Fail e')
          | (p2, Abort) => (p2, Abort)
          end
      | Some _ => (p1, Ret (Event.LamportTimestamp x))
      end) = (q, Ret t) →
     t = parentTime (Store p1) x).
  { intros p1 q. unfold GetEventBlock, parentTime.
    destruct (eventCache (Store p1) !! Event.OtherParent x) as [op|].
    - destruct (followParent _ p1 op frame) as [q2 [op'|e|]] eqn:Hf; [|done..].
      intros [= _ <-]. by eapply followParent_lamport.
    - by intros [= _ <-]. }
  unfold GetEventBlock at 1.
  destruct (eventCache (Store p) !! Event.SelfParent x) as [sp|] eqn:Hsp.
  - destruct (followParent _ p sp frame) as [q [y|e1|]] eqn:Hf; [|done..].
    intros Hrun. apply Hsecond in Hrun as ->.
    apply parentTime_evolves.
    eapply (followParent_Good P Q HC);
      [apply (AssignAtroposTime2_Good P Q HC) | exact Hf | exact HI |].
    rewrite (Inv_keyed _ _ _ _ _ HI Hsp). exact Hsp.
  - apply Hsecond.
Qed.

(** What a promotion leaves in the store. *)
Lemma promoteAtropos_result (fuel : nat) (p p' : Poset) (clotho : Event.t) :
  Inv P Q (Store p) →
  promoteAtropos fuel p clotho = (p', Ret tt) →
  eventCache (Store p') !! Event.Hash clotho
  = Some (Event.withAtroposTimestamp
            (Event.withFrameReceived (Event.withAtropos clotho true) (Event.Frame clotho))
            (parentTime (Store p) clotho)).
Proof.
  intros HI. unfold promoteAtropos.
  set (clotho1 := Event.withFrameReceived (Event.withAtropos clotho true)
                    (Event.Frame clotho)).
  destruct (if Event.AtroposTimestamp clotho1 =? 0 then accountEvent p clotho1
            else (p, Ret tt)) as [p1 r1] eqn:Hr1.
  assert (Good P Q (Store p) (Store p1)) as HG1.
  { destruct (Event.AtroposTimestamp clotho1 =? 0).
    - by eapply (accountEvent_Good P Q).
    - injection Hr1 as <- <-. by apply Good_refl. }
  destruct r1 as [[]|e1|]; [|done..].
  destruct (AssignAtroposTime2 fuel p1 clotho1 _) as [p2 [t|e2|]] eqn:Ha; [|done..].
  apply AssignAtroposTime2_time in Ha as ->; [|apply HG1].
  destruct (SetEvent (Store p2) _) as [s [e3|]] eqn:Hset; [done|].
  intros [= <-]. apply SetEvent_ok in Hset as (Hset & _).
  unfold withStore. simpl. rewrite Hset.
  change (Event.Hash (Event.withAtroposTimestamp clotho1 (parentTime (Store p1) clotho1)))
    with (Event.Hash clotho).
  rewrite lookup_insert_eq. f_equal. f_equal.
  change (parentTime (Store p1) clotho1) with (parentTime (Store p1) clotho).
  apply parentTime_evolves, HG1.
Qed.

End PromotionTime.

Section AtroposInvariant.
Context `{Env}.

Lemma atropos_closed (B : Z) : FlagClosed (atroposOk B) isRoot.
Proof.
  constructor.
  - intros x Hx. exact Hx.
  - intros x t Hx. exact Hx.
  - intros x f (Hf & Hr & Ha) H0. split; [exact Hf|]. split; [exact Hr|].
    simpl. intros Hat. destruct (Ha Hat) as [Hfr Hne]. congruence.
  - intros x (Hf & Hr & Ha) Hroot. split; [exact Hf|]. split; [exact Hr|].
    simpl. intros _. split; [done|]. by apply Hr.
  - intros x y Hst Hx. unfold isRoot in *. destruct Hst as (_ & _ & _ & _ & _ & <-). done.
Qed.

Lemma atroposOk_mono (B B' : Z) (e : Event.t) : B ≤ B' → atroposOk B e → atroposOk B' e.
Proof. intros HB (Hf & Hr & Ha). split; [lia|]. by split. Qed.

Lemma atroposInv_mono (B B' : Z) (s : InmemStore) :
  B ≤ B' → atroposInv B s → atroposInv B' s.
Proof.
  intros HB (Hk & HP & HQ). split; [done|]. split; [|done].
  intros h e He. eapply atroposOk_mono; [exact HB|]. by eapply HP.
Qed.

Lemma atroposInv_new (participants : Peers.t) : atroposInv 0 (NewInmemStore participants).
Proof.
  split; [split|split]; simpl.
  - intros h e. by rewrite lookup_empty.
  - intros f h v. by rewrite lookup_empty.
  - intros h e. by rewrite lookup_empty.
  - intros h e _. by rewrite lookup_empty.
Qed.

(** The frame that [InsertEvent] assigns is at most one above the frames of
    the parents, and a root is not put in frame 0. *)
Lemma assignFrame_bound (B : Z) (p : Poset) (sp op : Event.t) (fa : FrameAssignment) :
  0 ≤ Event.Frame sp ≤ B → 0 ≤ Event.Frame op ≤ B → B < MaxInt64 →
  assignFrame p sp op = Ret fa →
  0 ≤ faFrame fa ≤ B + 1 ∧ (faRoot fa = true → faFrame fa ≠ 0).
Proof.
  intros Hsp Hop HB. unfold assignFrame.
  destruct (Z.eqb_spec (Event.Frame sp) (Event.Frame op)) as [Heq|Hne].
  { destruct (Event.GetFlagTable op) as [t [e1|]]; [done|].
    destruct (MergeFlagTable _ _ _) as [m [e2|]]; [done|].
    destruct (_ >=? _); intros [= <-]; simpl.
    - rewrite int64_id by (unfold MinInt64, MaxInt64 in *; lia). lia.
    - split; [lia|done]. }
  destruct (Z.gtb_spec (Event.Frame sp) (Event.Frame op)) as [Hgt|Hle].
  { destruct (Event.GetFlagTable sp) as [t [e1|]]; [done|].
    intros [= <-]; simpl. split; [lia|done]. }
  destruct (GetClothoCreatorCheck _ _ _) as [r [e1|]]; [done|].
  destruct (GetEventBlock _ r) as [re err].
  destruct (Event.GetRootTable re) as [rt [e2|]]; [done|].
  destruct (MergeFlagTable _ _ _) as [m [e3|]]; [done|].
  destruct (Event.GetFlagTable op) as [t [e4|]]; [done|].
  intros [= <-]; simpl. lia.
Qed.

Lemma GetEventBlock_frame (B : Z) (s : InmemStore) (h : Z) :
  0 ≤ B → atroposInv B s → 0 ≤ Event.Frame (GetEventBlock s h).1 ≤ B.
Proof.
  intros HB (_ & HP & _). unfold GetEventBlock.
  destruct (eventCache s !! h) as [e|] eqn:He; simpl; [|lia].
  by destruct (HP _ _ He).
Qed.

(** One call of [InsertEvent] keeps the invariant, whatever it returns;
    the frames may grow by one. *)
Lemma InsertEvent_atroposInv (B : Z) (fuel : nat) (p p' : Poset) (event : Event.t)
    (wire : bool) r :
  0 ≤ B < MaxInt64 →
  atroposInv B (Store p) →
  freshHash (Store p) (Event.Hash event) →
  Event.Atropos event = false →
  InsertEvent fuel p event wire = (p', r) →
  atroposInv (B + 1) (Store p').
Proof.
  intros HB HI [Hfresh Hnoref] Hat. unfold InsertEvent.
  destruct (prepareInsert p event wire) as [p1 [[event3 fa]|e|]] eqn:Hprep.
  2,3: intros [= <- _]; apply prepareInsert_state in Hprep as (_ & -> & _);
       (apply (atroposInv_mono B); [lia|done]).
  pose proof (prepareInsert_Ret _ _ _ _ _ _ Hprep) as Hfacts. simpl in Hfacts.
  destruct Hfacts as (_ & _ & _ & Hfa & Hsame & Hhash & _ & _ & Hf & _ & _ & Hr & _ & Ha & _).
  destruct Hsame as (_ & HS & _).
  apply (assignFrame_bound B) in Hfa as [Hbound Hroot];
    [|apply GetEventBlock_frame; [lia|done]|apply GetEventBlock_frame; [lia|done]|lia].
  assert (atroposOk (B + 1) event3) as HP3.
  { split; [by rewrite Hf|]. split; [rewrite Hr, Hf; exact Hroot|]. congruence. }
  pose proof (atroposInv_mono B (B + 1) _ ltac:(lia) HI) as HI1.
  destruct (SetEvent (Store p1) event3) as [s [e|]] eqn:Hset.
  { intros [= <- _]. apply SetEvent_err in Hset as (He & Hc & Ht).
    rewrite HS in He, Hc, Ht. unfold withStore. simpl.
    by apply (Good_same _ _ (Store p) s). }
  apply SetEvent_ok in Hset as (Hec & Hcc & Htc). rewrite HS in Hec, Hcc, Htc.
  unfold SetRoundCreated.
  match goal with |- finishInsert _ (withStore _ ?s1) _ _ _ = _ → _ => set (s' := s1) end.
  intros Hrun.
  assert (atroposInv (B + 1) s') as HI'.
  { destruct HI1 as ((Hk & Hkc) & HP & HQ).
    assert (∀ h, referenced s' h ↔ referenced (Store p) h) as Href.
    { intros h. by apply referenced_same. }
    split; [split|split].
    - intros h e. subst s'. unfold_with. rewrite Hec.
      destruct (decide (h = Event.Hash event3)) as [->|Hne].
      + rewrite lookup_insert_eq. by intros [= <-].
      + rewrite lookup_insert_ne by done. apply Hk.
    - intros f h v. subst s'. unfold_with. rewrite Hcc. apply Hkc.
    - intros h e. subst s'. unfold_with. rewrite Hec.
      destruct (decide (h = Event.Hash event3)) as [->|Hne].
      + rewrite lookup_insert_eq. by intros [= <-].
      + rewrite lookup_insert_ne by done. apply HP.
    - intros h e Hre. apply Href in Hre. subst s'. unfold_with. rewrite Hec.
      destruct (decide (h = Event.Hash event3)) as [->|Hne].
      + rewrite Hhash in Hre. done.
      + rewrite lookup_insert_ne by done. by apply HQ. }
  apply (finishInsert_Good _ _ (atropos_closed (B + 1)) _ _ _ _ _ _ _ Hrun HI').
  intros Hroot' a. subst s'. unfold_with. rewrite Hec, lookup_insert_eq.
  intros [= <-]. unfold isRoot. congruence.
Qed.

Lemma insertedFrom_atroposInv (B0 : Z) (p0 : Poset) (n : nat) (p : Poset) :
  insertedFrom p0 n p →
  0 ≤ B0 → B0 + Z.of_nat n ≤ MaxInt64 →
  atroposInv B0 (Store p0) →
  atroposInv (B0 + Z.of_nat n) (Store p).
Proof.
  induction 1 as [|n p p' fuel event wire r Hprev IH Hfresh Hat Hrun]; intros HB0 Hn HI.
  - by rewrite Z.add_0_r.
  - replace (B0 + Z.of_nat (S n)) with (B0 + Z.of_nat n + 1) by lia.
    eapply InsertEvent_atroposInv; [| |exact Hfresh|exact Hat|exact Hrun]; [lia|].
    apply IH; [done|lia|done].
Qed.

(** C3 (amended): when [AtroposTimeSelection] comes to a stored clotho that
    is no atropos, in a round that is no coin round and with a supermajority
    for the most frequent time, the clotho is stored again as an atropos,
    received in its own frame; its atropos timestamp is not the time that
    won the vote but the Lamport timestamp of its other-parent, or its own
    when the store has no other-parent for it.  And every stored atropos is
    received in its own frame in every poset that insertions of new events
    lead to, from a new store or from any store in which the events are
    keyed by their hashes, the frames lie between 0 and a bound, no root is
    in frame 0, every atropos is received in its own frame, and the
    clotho-check index and the time tables point to roots only. *)
Theorem atropos_promotion :
  (∀ (fuel : nat) (p p' : Poset) (e : Event.t) (key : Z) (val : gmap Z Z)
     (clotho : Event.t),
      storeKeyed (Store p) →
      eventCache (Store p) !! key = Some clotho →
      Event.Atropos clotho = false →
      Z.rem (int64 (Event.Frame e - Event.Frame clotho)) 4 ≠ 0 →
      GetSuperMajority p ≤ (majorityVote val).1 →
      atroposStep fuel e p (key, val) = (p', Ret tt) →
      ∃ c',
        eventCache (Store p') !! key = Some c'
        ∧ Event.Atropos c' = true
        ∧ Event.Frame c' = Event.Frame clotho
        ∧ Event.FrameReceived c' = Event.Frame clotho
        ∧ Event.AtroposTimestamp c' = parentTime (Store p) clotho)
  ∧ (∀ (B : Z) (p0 : Poset) (n : nat) (p : Poset),
        0 ≤ B → B + Z.of_nat n ≤ MaxInt64 →
        atroposInv B (Store p0) →
        insertedFrom p0 n p →
        ∀ h a, eventCache (Store p) !! h = Some a → Event.Atropos a = true →
               Event.FrameReceived a = Event.Frame a)
  ∧ (∀ participants : Peers.t, atroposInv 0 (NewInmemStore participants)).
Proof.
  split; [|split].
  - intros fuel p p' e key val clotho Hk Hc Hat Hrem Hmaj.
    unfold atroposStep, GetEventBlock. rewrite Hc, Hat.
    destruct (Z.eqb_spec (Z.rem (int64 (Event.Frame e - Event.Frame clotho)) 4) 0);
      [done|].
    destruct (majorityVote val) as [maxVal maxInd]. simpl in Hmaj.
    destruct (Z.geb_spec maxVal (GetSuperMajority p)); [|lia].
    simpl. intros Hrun.
    assert (Event.Hash clotho = key) as Hkey by (by apply Hk).
    apply (promoteAtropos_result _ _ trivial_closed) in Hrun; [|by apply Inv_trivial].
    rewrite Hkey in Hrun. eexists. split; [exact Hrun|]. done.
  - intros B p0 n p HB Hn HI Hreach h a Ha Hat.
    pose proof (insertedFrom_atroposInv B _ _ _ Hreach HB Hn HI) as (_ & HP & _).
    destruct (HP _ _ Ha) as (_ & _ & Hatr). by destruct (Hatr Hat).
  - apply atroposInv_new.
Qed.

End AtroposInvariant.

Lemma demoStore_referenced (h : Z) :
  @referenced specEnv demoStore h → h ∈ [400; 612; 207].
Proof.
  intros [[k Hk] | (hashTo & tt & Htt & [t Ht])].
  - apply (map_Forall_lookup_1 (M := gmap (Z * Z)) (λ _ v, v ∈ [400; 612; 207])
             (clothoCheckCache demoStore) k h); [|exact Hk].
    apply (bool_decide_eq_true_1
             (map_Forall (λ (_ : Z * Z) (v : Z), v ∈ [400; 612; 207])
                (clothoCheckCache demoStore))).
    vm_compute. reflexivity.
  - assert (map_Forall (λ (_ : Z) (tt : gmap Z Z),
                          map_Forall (λ (h : Z) (_ : Z), h ∈ [400; 612; 207]) tt)
              (timeTableCache demoStore)) as Hall.
    { apply (bool_decide_eq_true_1
               (map_Forall (λ (_ : Z) (tt : gmap Z Z),
                              map_Forall (λ (h : Z) (_ : Z), h ∈ [400; 612; 207]) tt)
                  (timeTableCache demoStore))).
      vm_compute. reflexivity. }
    pose proof (map_Forall_lookup_1 _ _ _ _ Hall Htt) as Hin. simpl in Hin.
    exact (map_Forall_lookup_1 _ _ _ _ Hin Ht).
Qed.

Lemma demoStore_atroposInv : @atroposInv specEnv 7 demoStore.
Proof.
  split; [exact demoStore_keyed|]. split.
  - intros h e He.
    apply (map_Forall_lookup_1 (M := gmap Z)
             (λ (_ : Z) e,
                0 ≤ Event.Frame e ≤ 7
                ∧ (Event.Root e = true → Event.Frame e ≠ 0)
                ∧ (Event.Atropos e = true →
                   Event.FrameReceived e = Event.Frame e ∧ Event.Frame e ≠ 0))
             (eventCache demoStore) h e); [|exact He].
    apply (bool_decide_eq_true_1
             (map_Forall
                (λ (_ : Z) e,
                   0 ≤ Event.Frame e ≤ 7
                   ∧ (Event.Root e = true → Event.Frame e ≠ 0)
                   ∧ (Event.Atropos e = true →
                      Event.FrameReceived e = Event.Frame e ∧ Event.Frame e ≠ 0))
                (eventCache demoStore))).
    vm_compute. reflexivity.
  - intros h e Hr He. apply demoStore_referenced in Hr.
    repeat (apply elem_of_cons in Hr as [->|Hr]);
      [vm_compute in He; injection He as <-; reflexivity..|].
    by apply elem_of_nil in Hr.
Qed.

(** C's clotho 400 of frame 1, seen from a root of frame 6 with three votes
    for the time 7: it becomes an atropos with the Lamport timestamp 1 of
    its other-parent 200.  And after the insertion of the event 600 into the
    demo poset the atropos 400 is received in its frame. *)
Lemma atropos_promotion_witness :
  (∃ c',
     eventCache (Store promoted) !! 400 = Some c'
     ∧ Event.Atropos c' = true
     ∧ Event.Frame c' = Event.Frame evC1
     ∧ Event.FrameReceived c' = Event.Frame evC1
     ∧ Event.AtroposTimestamp c' = @parentTime specEnv (Store demoPoset) evC1)
  ∧ (∃ a,
       eventCache (Store (inserted demoPoset ev600)) !! 400 = Some a
       ∧ Event.Atropos a = true
       ∧ Event.FrameReceived a = Event.Frame a).
Proof.
  split.
  - apply (proj1 (@atropos_promotion specEnv) 10%nat demoPoset promoted evA6 400
             {[ 7 := 3 ]} evC1).
    + exact demoStore_keyed.
    + vm_compute. reflexivity.
    + reflexivity.
    + vm_compute. discriminate.
    + vm_compute. discriminate.
    + unfold promoted. apply pair_snd_eq. vm_compute. reflexivity.
  - set (a := Event.withAtroposTimestamp
                (Event.withFrameReceived (Event.withAtropos evC1 true) 1) 1).
    assert (eventCache (Store (inserted demoPoset ev600)) !! 400 = Some a) as Ha
      by (vm_compute; reflexivity).
    exists a. split; [exact Ha|]. split; [reflexivity|].
    refine (proj1 (proj2 (@atropos_promotion specEnv)) 7 demoPoset 1%nat
              (inserted demoPoset ev600) _ _ demoStore_atroposInv _ 400 a Ha eq_refl).
    + lia.
    + vm_compute. discriminate.
    + apply (insertedFrom_S demoPoset 0 demoPoset _ 10%nat ev600 false
               (insertResult demoPoset ev600)); [constructor| |reflexivity|].
      * split; [vm_compute; reflexivity|].
        intros Hr. apply demoStore_referenced in Hr.
        repeat (apply elem_of_cons in Hr as [Hr|Hr]; [discriminate|]).
        by apply elem_of_nil in Hr.
      * unfold inserted, insertResult. apply surjective_pairing.
Defined.

(** C3, as stated, fails for the insertion of the event 600 into the demo
    poset: the roots 501, 502 and 503 of its root table have voted the time
    7 for the clotho 400, three votes are a supermajority, and the clotho is
    stored as an atropos with the atropos timestamp 1. *)
Lemma atropos_time_counterexample :
  insertResult demoPoset ev600 = Ret tt
  ∧ (Event.GetRootTable <$> eventCache (Store (inserted demoPoset ev600)) !! 600)
    = Some ({[ 501 := 5; 502 := 5; 503 := 5 ]}, None)
  ∧ votesOf (Store demoPoset) {[ 501 := 5; 502 := 5; 503 := 5 ]} !! 400 = Some {[ 7 := 3 ]}
  ∧ @majorityVote specEnv {[ 7 := 3 ]} = (3, 7)
  ∧ @GetSuperMajority specEnv demoPoset = 3
  ∧ (Event.Atropos <$> eventCache (Store demoPoset) !! 400) = Some false
  ∧ (Event.Atropos <$> eventCache (Store (inserted demoPoset ev600)) !! 400) = Some true
  ∧ (Event.FrameReceived <$> eventCache (Store (inserted demoPoset ev600)) !! 400) = Some 1
  ∧ (Event.AtroposTimestamp <$> eventCache (Store (inserted demoPoset ev600)) !! 400)
    = Some 1
  ∧ ((@majorityVote specEnv {[ 7 := 3 ]}).2 =? 1) = false.
Proof. vm_compute. repeat (split; [reflexivity|]). reflexivity. Qed.
(** * Further properties of the code *)

(** ** What the insertion does to the queues and counters *)

Section InsertBookkeeping.
Context `{Env}.

Lemma storeOutside_refl (s : InmemStore) : storeOutside s s.
Proof. by repeat split. Qed.

Lemma storeOutside_trans (s1 s2 s3 : InmemStore) :
  storeOutside s1 s2 → storeOutside s2 s3 → storeOutside s1 s3.
Proof.
  intros (A1 & A2 & A3 & A4 & A5 & A6) (B1 & B2 & B3 & B4 & B5 & B6).
  repeat split; congruence.
Qed.

Lemma sameOutside_refl (p : Poset) : sameOutside p p.
Proof. by repeat split. Qed.

Lemma sameOutside_trans (p1 p2 p3 : Poset) :
  sameOutside p1 p2 → sameOutside p2 p3 → sameOutside p1 p3.
Proof.
  intros (A1 & A2 & A3 & A4 & A5 & A6 & A7 & A8) (B1 & B2 & B3 & B4 & B5 & B6 & B7 & B8).
  repeat split; try congruence; by eapply storeOutside_trans.
Qed.

Lemma sameOutside_withStore (p : Poset) (s : InmemStore) :
  storeOutside (Store p) s → sameOutside p (withStore p s).
Proof. intros Hs. by repeat split; try apply Hs. Qed.

Lemma SetEvent_outside (s s' : InmemStore) (x : Event.t) err :
  SetEvent s x = (s', err) → storeOutside s s'.
Proof.
  unfold SetEvent, GetEventBlock, addParticipantEvent.
  destruct (eventCache s !! Event.Hash x) as [x0|]; simpl.
  - intros [= <- _]. by repeat split.
  - destruct (pecSet _ _ _ _) as [c [e|]]; intros [= <- _]; by repeat split.
Qed.

Lemma AddTimeTable_outside (s : InmemStore) (hashTo hashFrom t : Z) :
  storeOutside s (AddTimeTable s hashTo hashFrom t).1.
Proof. by repeat split. Qed.

Lemma AddClothoCheck_outside (s : InmemStore) (frame creatorID hash : Z) :
  storeOutside s (AddClothoCheck s frame creatorID hash).1.
Proof. by repeat split. Qed.

Lemma AddConsensusEvent_outside (s : InmemStore) (ev : Event.t) :
  storeOutside s (AddConsensusEvent s ev).1.
Proof.
  unfold AddConsensusEvent. destruct (riSet _ _ _) as [c [e|]]; by repeat split.
Qed.

(** A loop keeps a reflexive and transitive relation that its body keeps. *)
Lemma forEach_rel {S X : Type} (R : S → S → Prop) (body : S → X → S * outcome unit)
    (l : list X) :
  (∀ s, R s s) → (∀ s1 s2 s3, R s1 s2 → R s2 s3 → R s1 s3) →
  (∀ s x s' r, body s x = (s', r) → R s s') →
  ∀ s s' r, forEach body l s = (s', r) → R s s'.
Proof.
  intros Hrefl Htrans Hbody. induction l as [|x l IH]; intros s s' r; simpl.
  - intros [= <- _]. apply Hrefl.
  - destruct (body s x) as [s1 r1] eqn:Hb. apply Hbody in Hb.
    destruct r1 as [[]|e|]; try (intros [= <- _]; exact Hb).
    intros Hrun. eapply Htrans; [exact Hb|]. by eapply IH.
Qed.

Lemma accountEvent_outside (p p' : Poset) (ev : Event.t) r :
  accountEvent p ev = (p', r) → sameOutside p p'.
Proof.
  unfold accountEvent.
  destruct (AddConsensusEvent _ ev) as [s err] eqn:Hadd.
  assert (storeOutside (Store p) s) as Hs.
  { pose proof (AddConsensusEvent_outside
                  (Store (if IsLoaded ev
                          then withPendingLoadedEvents (setLastConsensusRound p (Event.Frame ev))
                                 (int64 (pendingLoadedEvents
                                           (setLastConsensusRound p (Event.Frame ev)) - 1))
                          else setLastConsensusRound p (Event.Frame ev))) ev) as Ho.
    rewrite Hadd in Ho. by destruct (IsLoaded ev). }
  destruct err as [e|]; intros [= <- _]; destruct (IsLoaded ev);
    by repeat split; try apply Hs.
Qed.

Lemma followParent_outside (recurse : Poset → Event.t → Z → Poset * outcome Z) :
  (∀ p x f p' r, recurse p x f = (p', r) → sameOutside p p') →
  ∀ p parent frame p' r, followParent recurse p parent frame = (p', r) → sameOutside p p'.
Proof.
  intros Hrec p parent frame p' r. unfold followParent.
  destruct (if Event.FrameReceived parent =? 0 then _ else _) as [parent1 follow1].
  destruct (Event.AtroposTimestamp parent1 =? 0).
  - destruct (recurse p parent1 frame) as [p1 r1] eqn:Hr. apply Hrec in Hr.
    destruct r1 as [t|e1|]; try (intros [= <- _]; exact Hr).
    destruct (accountEvent p1 _) as [p2 r2] eqn:Ha. apply accountEvent_outside in Ha.
    pose proof (sameOutside_trans _ _ _ Hr Ha) as H12.
    destruct r2 as [[]|e2|]; try (intros [= <- _]; exact H12).
    destruct (SetEvent _ _) as [s err] eqn:Hset. apply SetEvent_outside in Hset.
    destruct err; intros [= <- _];
      (eapply sameOutside_trans; [exact H12|by apply sameOutside_withStore]).
  - destruct follow1; [|intros [= <- _]; apply sameOutside_refl].
    destruct (SetEvent _ _) as [s err] eqn:Hset. apply SetEvent_outside in Hset.
    destruct err; intros [= <- _]; by apply sameOutside_withStore.
Qed.

Lemma AssignAtroposTime2_outside (fuel : nat) :
  ∀ p x frame p' r, AssignAtroposTime2 fuel p x frame = (p', r) → sameOutside p p'.
Proof.
  induction fuel as [|fuel IH]; intros p x frame p' r; simpl.
  - intros [= <- _]. apply sameOutside_refl.
  - assert (Hsecond : ∀ p1 q r',
       (let '(otherParent, otherErr) := GetEventBlock (Store p1) (Event.OtherParent x) in
        match otherErr with
        | None =>
            match followParent (AssignAtroposTime2 fuel) p1 otherParent frame with
            | (p2, Ret otherParent') => (p2, Ret (Event.LamportTimestamp otherParent'))
            | (p2, Fail e') => (p2, Fail e')
            | (p2, Abort) => (p2, Abort)
            end
        | Some _ => (p1, Ret (Event.LamportTimestamp x))
        end) = (q, r') → sameOutside p1 q).
    { intros p1 q r'.
      destruct (GetEventBlock (Store p1) (Event.OtherParent x)) as [op [e|]].
      - intros [= <- _]. apply sameOutside_refl.
      - destruct (followParent _ p1 op frame) as [q2 rq] eqn:Hf.
        apply (followParent_outside _ IH) in Hf.
        destruct rq; intros [= <- _]; exact Hf. }
    destruct (GetEventBlock (Store p) (Event.SelfParent x)) as [sp [e|]].
    + apply Hsecond.
    + destruct (followParent _ p sp frame) as [q rq] eqn:Hf.
      apply (followParent_outside _ IH) in Hf.
      destruct rq as [y|e1|]; try (intros [= <- _]; exact Hf).
      intros Hrun. eapply sameOutside_trans; [exact Hf|]. by eapply Hsecond.
Qed.

Lemma promoteAtropos_outside (fuel : nat) (p p' : Poset) (clotho : Event.t) r :
  promoteAtropos fuel p clotho = (p', r) → sameOutside p p'.
Proof.
  unfold promoteAtropos.
  set (clotho1 := Event.withFrameReceived _ _).
  destruct (if Event.AtroposTimestamp clotho1 =? 0 then accountEvent p clotho1
            else (p, Ret tt)) as [p1 r1] eqn:Hr1.
  assert (sameOutside p p1) as H1.
  { destruct (Event.AtroposTimestamp clotho1 =? 0).
    - by eapply accountEvent_outside.
    - injection Hr1 as <- _. apply sameOutside_refl. }
  destruct r1 as [[]|e1|]; try (intros [= <- _]; exact H1).
  destruct (AssignAtroposTime2 fuel p1 clotho1 _) as [p2 r2] eqn:Ha.
  apply AssignAtroposTime2_outside in Ha.
  pose proof (sameOutside_trans _ _ _ H1 Ha) as H12.
  destruct r2 as [t|e2|]; try (intros [= <- _]; exact H12).
  destruct (SetEvent _ _) as [s err] eqn:Hset. apply SetEvent_outside in Hset.
  destruct err; intros [= <- _];
    (eapply sameOutside_trans; [exact H12|by apply sameOutside_withStore]).
Qed.

Lemma atroposStep_outside (fuel : nat) (x : Event.t) (p p' : Poset) (kv : Z * gmap Z Z) r :
  atroposStep fuel x p kv = (p', r) → sameOutside p p'.
Proof.
  unfold atroposStep. destruct kv as [key val].
  destruct (GetEventBlock (Store p) key) as [clotho [e1|]];
    [intros [= <- _]; apply sameOutside_refl|].
  destruct (Event.Atropos clotho); [intros [= <- _]; apply sameOutside_refl|].
  destruct (Z.rem _ _ =? 0).
  { destruct (coinVote val). intros [= <- _].
    apply sameOutside_withStore, AddTimeTable_outside. }
  destruct (majorityVote val) as [maxVal maxInd].
  destruct (maxVal >=? GetSuperMajority p);
    [|intros [= <- _]; apply sameOutside_withStore, AddTimeTable_outside].
  simpl. apply promoteAtropos_outside.
Qed.

Lemma AtroposTimeSelection_outside (fuel : nat) (p p' : Poset) (x : Event.t) r :
  AtroposTimeSelection fuel p x = (p', r) → sameOutside p p'.
Proof.
  unfold AtroposTimeSelection.
  destruct (Event.GetRootTable x) as [rootTable [e1|]];
    [intros [= <- _]; apply sameOutside_refl|].
  destruct (forEach (collectVotes (Store p)) _ _) as [countMap [[]|e2|]];
    [|intros [= <- _]; apply sameOutside_refl..].
  apply (forEach_rel sameOutside).
  - apply sameOutside_refl.
  - apply sameOutside_trans.
  - intros s kv s' r'. apply atroposStep_outside.
Qed.

Lemma ccPromote_outside (superMajority : Z) (x : Event.t) (frame : Z)
    (s s' : InmemStore) (kv : Z * Z) r :
  ccPromote superMajority x frame s kv = (s', r) → storeOutside s s'.
Proof.
  unfold ccPromote. destruct kv as [key val].
  destruct (uint64 val >=? superMajority); [|intros [= <- _]; apply storeOutside_refl].
  destruct (GetClothoCheck s frame key) as [rootKey [e1|]];
    [intros [= <- _]; apply storeOutside_refl|].
  destruct (GetEventBlock s rootKey) as [root [e2|]];
    [intros [= <- _]; apply storeOutside_refl|].
  destruct (negb (Event.Clotho root)).
  - destruct (SetEvent s _) as [s1 err] eqn:Hset. apply SetEvent_outside in Hset.
    destruct err; intros [= <- _]; [exact Hset|].
    eapply storeOutside_trans; [exact Hset|apply AddTimeTable_outside].
  - intros [= <- _]. apply AddTimeTable_outside.
Qed.

Lemma ClothoChecking_outside (p p' : Poset) (x : Event.t) r :
  ClothoChecking p x = (p', r) → sameOutside p p'.
Proof.
  unfold ClothoChecking.
  destruct (Event.GetRootTable x) as [rootTable [e1|]];
    [intros [= <- _]; apply sameOutside_refl|].
  destruct (forEach (ccLevel1 (Store p)) _ _) as [ccList [[]|e2|]];
    [|intros [= <- _]; apply sameOutside_refl..].
  destruct (forEach _ (range ccList) (Store p)) as [s r'] eqn:Hloop.
  intros [= <- _]. apply sameOutside_withStore.
  revert Hloop. apply (forEach_rel storeOutside).
  - apply storeOutside_refl.
  - apply storeOutside_trans.
  - intros s1 fm s2 r2. apply (forEach_rel storeOutside).
    + apply storeOutside_refl.
    + apply storeOutside_trans.
    + intros s3 kv s4 r4. apply ccPromote_outside.
Qed.

Lemma rootChecks_outside (fuel : nat) (p p' : Poset) (event : Event.t) (frame : Z) r :
  rootChecks fuel p event frame = (p', r) → sameOutside p p'.
Proof.
  unfold rootChecks.
  pose proof (AddClothoCheck_outside (Store p) frame (Event.CreatorID event)
                (Event.Hash event)) as Hadd.
  destruct (AddClothoCheck _ _ _ _) as [s [e0|]];
    [intros [= <- _]; by apply sameOutside_withStore|].
  simpl in Hadd.
  destruct (ClothoChecking _ event) as [p2 r2] eqn:Hcc.
  apply ClothoChecking_outside in Hcc.
  assert (sameOutside p p2) as H2.
  { eapply sameOutside_trans; [|exact Hcc]. by apply sameOutside_withStore. }
  destruct r2 as [[]|e2|]; try (intros [= <- _]; exact H2).
  destruct (AtroposTimeSelection fuel _ event) as [p3 r3] eqn:Hat.
  apply AtroposTimeSelection_outside in Hat.
  pose proof (sameOutside_trans _ _ _ H2 Hat) as H23.
  destruct r3 as [[]|e3|]; intros [= <- _]; exact H23.
Qed.

(** The counter of [NextTopologicalIndex] in [InsertEvent]. *)
Lemma prepareInsert_index (p p1 : Poset) (event event3 : Event.t) (wire : bool)
    (fa : FrameAssignment) :
  prepareInsert p event wire = (p1, Ret (event3, fa)) →
  EventMessage.TopologicalIndex (Event.Message event3) = topologicalIndex p
  ∧ topologicalIndex p1 = int64 (topologicalIndex p + 1)
  ∧ Participants p1 = Participants p ∧ AnchorBlock p1 = AnchorBlock p.
Proof.
  unfold prepareInsert.
  destruct (Verify event) as [[|] verr]; [|by destruct verr].
  destruct (checkSelfParent p event); [done|].
  destruct (checkOtherParent p event); [done|].
  destruct (GetEventBlock (Store p) (Event.SelfParent event)) as [parentEvent e1].
  destruct (GetEventBlock (Store p) (Event.OtherParent event)) as [otherParentEvent e2].
  simpl. destruct (assignFrame p parentEvent otherParentEvent) as [fa'| |]; try done.
  simpl. destruct wire.
  - unfold setWireInfo, GetEventBlock. simpl.
    destruct (Peers.ReadByPubKey _ _); [|done].
    destruct (eventCache (Store p) !! _); [|done].
    destruct (eventCache (Store p) !! _); [|done].
    destruct (Peers.ReadByPubKey _ _); [|done].
    by intros [= <- <- <-].
  - by intros [= <- <- <-].
Qed.

Lemma finishInsert_outside (fuel : nat) (p p' : Poset) (event : Event.t) (root : bool)
    (frame : Z) r :
  finishInsert fuel p event root frame = (p', r) →
  Participants p' = Participants p
  ∧ AnchorBlock p' = AnchorBlock p
  ∧ topologicalIndex p' = topologicalIndex p
  ∧ roundCache p' = roundCache p
  ∧ timestampCache p' = timestampCache p
  ∧ storeOutside (Store p) (Store p')
  ∧ UndeterminedEvents p'
    = UndeterminedEvents p ++ (if r is Ret _ then [Event.Hash event] else [])
  ∧ SigPool p' = SigPool p ++ (if r is Ret _ then Event.BlockSignatures event else []).
Proof.
  unfold finishInsert.
  destruct (if root then rootChecks fuel p event frame else (p, Ret tt)) as [p1 r1] eqn:Hr.
  assert (sameOutside p p1) as (A1 & A2 & A3 & A4 & A5 & A6 & A7 & A8).
  { destruct root; [by eapply rootChecks_outside|].
    injection Hr as <- _. apply sameOutside_refl. }
  destruct r1 as [[]|e|]; intros [= <- <-].
  - unfold enqueueEvent. destruct (IsLoaded event); simpl;
      rewrite ?A1, ?A2, ?A3, ?A4, ?A5, ?A6, ?A7; done.
  - rewrite !app_nil_r. done.
  - rewrite !app_nil_r. done.
Qed.

Lemma InsertEvent_accepted (fuel : nat) (p p' : Poset) (event : Event.t)
    (wire : bool) :
  storeKeyed (Store p) →
  InsertEvent fuel p event wire = (p', Ret tt) →
  UndeterminedEvents p' = UndeterminedEvents p ++ [Event.Hash event]
  ∧ SigPool p' = SigPool p ++ Event.BlockSignatures event
  ∧ topologicalIndex p' = int64 (topologicalIndex p + 1)
  ∧ ∃ e', eventCache (Store p') !! Event.Hash event = Some e'
          ∧ EventMessage.TopologicalIndex (Event.Message e') = topologicalIndex p.
Proof.
  intros Hk Hrun.
  destruct (InsertEvent_stored _ _ _ _ _ Hk Hrun) as (p1 & event3 & fa & e' & Hprep & He' & Hst).
  pose proof (prepareInsert_index _ _ _ _ _ _ Hprep) as (Hti & Hidx & _).
  pose proof (prepareInsert_Ret _ _ _ _ _ _ Hprep) as Hfacts. simpl in Hfacts.
  destruct Hfacts as (_ & _ & _ & _ & Hsame & Hhash & Hbody & _).
  destruct Hsame as (_ & _ & HU & _ & _ & _ & HS & _).
  unfold InsertEvent in Hrun. rewrite Hprep in Hrun.
  destruct (SetEvent (Store p1) event3) as [s [e|]]; [done|].
  unfold SetRoundCreated in Hrun.
  apply finishInsert_outside in Hrun as (_ & _ & B3 & _ & _ & _ & B7 & B8).
  simpl in B3, B7, B8.
  rewrite B7, B8, B3, HU, HS, Hhash, Hidx.
  unfold Event.BlockSignatures. rewrite Hbody.
  repeat (split; [done|]).
  exists e'. split; [done|]. destruct Hst as (<- & _). done.
Qed.

(** X1: an accepted event is put at the end of the undetermined events, its
    block signatures are put at the end of the signature pool, it is stored
    with the topological index that the poset had, and the index of the
    poset goes up by one. *)
Theorem accepted_event_is_queued (fuel : nat) (p p' : Poset) (event : Event.t)
    (wire : bool) :
  storeKeyed (Store p) →
  InsertEvent fuel p event wire = (p', Ret tt) →
  UndeterminedEvents p' = UndeterminedEvents p ++ [Event.Hash event]
  ∧ SigPool p' = SigPool p ++ Event.BlockSignatures event
  ∧ topologicalIndex p' = int64 (topologicalIndex p + 1)
  ∧ ∃ e', eventCache (Store p') !! Event.Hash event = Some e'
          ∧ EventMessage.TopologicalIndex (Event.Message e') = topologicalIndex p.
Proof. apply InsertEvent_accepted. Qed.

Lemma InsertEvent_outside (fuel : nat) (p p' : Poset) (event : Event.t)
    (wire : bool) (r : outcome unit) :
  InsertEvent fuel p event wire = (p', r) →
  Participants p' = Participants p
  ∧ AnchorBlock p' = AnchorBlock p
  ∧ roundCache p' = roundCache p
  ∧ timestampCache p' = timestampCache p
  ∧ storeOutside (Store p) (Store p').
Proof.
  unfold InsertEvent.
  destruct (prepareInsert p event wire) as [p1 r1] eqn:Hprep.
  apply prepareInsert_state in Hprep as (A1 & A2 & _ & _ & _ & A6 & _ & _ & _ & A10 & A11).
  destruct r1 as [[event3 fa]|e|];
    [|intros [= <- _]; rewrite A2; do 4 (split; [done|]); apply storeOutside_refl..].
  destruct (SetEvent (Store p1) event3) as [s err] eqn:Hset.
  apply SetEvent_outside in Hset. rewrite A2 in Hset.
  destruct err as [e|].
  { intros [= <- _]. simpl. do 4 (split; [done|]). exact Hset. }
  unfold SetRoundCreated.
  intros Hrun. apply finishInsert_outside in Hrun as (B1 & B2 & _ & B4 & B5 & B6 & _).
  simpl in *. rewrite B1, B2, B4, B5. do 4 (split; [done|]).
  eapply storeOutside_trans; [exact Hset|].
  eapply storeOutside_trans; [|exact B6]. by repeat split.
Qed.

(** X2: whatever [InsertEvent] returns, it leaves the participants, the
    anchor block, the round and timestamp caches, the blocks, the frames,
    the rounds received, the roots and the state root as they were. *)
Theorem InsertEvent_leaves_alone (fuel : nat) (p p' : Poset) (event : Event.t)
    (wire : bool) (r : outcome unit) :
  InsertEvent fuel p event wire = (p', r) →
  Participants p' = Participants p
  ∧ AnchorBlock p' = AnchorBlock p
  ∧ roundCache p' = roundCache p
  ∧ timestampCache p' = timestampCache p
  ∧ storeOutside (Store p) (Store p').
Proof. apply InsertEvent_outside. Qed.

End InsertBookkeeping.

(** The event 600 is accepted by the demo poset. *)
Lemma accepted_event_is_queued_witness :
  UndeterminedEvents (inserted demoPoset ev600)
  = UndeterminedEvents demoPoset ++ [Event.Hash ev600]
  ∧ SigPool (inserted demoPoset ev600) = SigPool demoPoset ++ Event.BlockSignatures ev600
  ∧ topologicalIndex (inserted demoPoset ev600) = int64 (topologicalIndex demoPoset + 1)
  ∧ ∃ e', eventCache (Store (inserted demoPoset ev600)) !! Event.Hash ev600 = Some e'
          ∧ EventMessage.TopologicalIndex (Event.Message e') = topologicalIndex demoPoset.
Proof.
  apply (@accepted_event_is_queued specEnv 10 demoPoset (inserted demoPoset ev600) ev600
           false demoStore_keyed).
  unfold inserted. apply pair_snd_eq. vm_compute. reflexivity.
Defined.

(** The event 800 is refused by the demo poset after it was stored. *)
Lemma InsertEvent_leaves_alone_witness :
  Participants (inserted demoPoset ev800) = Participants demoPoset
  ∧ AnchorBlock (inserted demoPoset ev800) = AnchorBlock demoPoset
  ∧ roundCache (inserted demoPoset ev800) = roundCache demoPoset
  ∧ timestampCache (inserted demoPoset ev800) = timestampCache demoPoset
  ∧ @storeOutside specEnv (Store demoPoset) (Store (inserted demoPoset ev800)).
Proof.
  apply (@InsertEvent_leaves_alone specEnv 10 demoPoset (inserted demoPoset ev800) ev800
           false (insertResult demoPoset ev800)).
  unfold inserted, insertResult. apply surjective_pairing.
Defined.

(** ** The stored events across an insertion *)

Section InsertKeeps.
Context `{Env}.

(** X3: the insertion of an event with a new hash loses no stored event
    and changes none of their messages, Lamport timestamps, frames, flag
    tables, root tables and root flags, whatever it returns; and the only
    hash it may add to the store is the hash of the event. *)
Theorem InsertEvent_keeps_stored_events (fuel : nat) (p p' : Poset) (event : Event.t)
    (wire : bool) (r : outcome unit) :
  storeKeyed (Store p) →
  eventCache (Store p) !! Event.Hash event = None →
  InsertEvent fuel p event wire = (p', r) →
  (∀ h e, eventCache (Store p) !! h = Some e →
          ∃ e', eventCache (Store p') !! h = Some e' ∧ sameStatic e e')
  ∧ (∀ h, h ≠ Event.Hash event → eventCache (Store p) !! h = None →
          eventCache (Store p') !! h = None).
Proof.
  intros [Hk Hkc] Hnew. unfold InsertEvent.
  assert (Hsame : ∀ s : InmemStore, eventCache s = eventCache (Store p) →
            (∀ h e, eventCache (Store p) !! h = Some e →
                    ∃ e', eventCache s !! h = Some e' ∧ sameStatic e e')
            ∧ (∀ h, h ≠ Event.Hash event → eventCache (Store p) !! h = None →
                    eventCache s !! h = None)).
  { intros s ->. split; [|done]. intros h e He. exists e. split; [done|].
    apply sameStatic_refl. }
  destruct (prepareInsert p event wire) as [p1 r1] eqn:Hprep.
  pose proof (prepareInsert_state _ _ _ _ _ Hprep) as (_ & HS & _).
  destruct r1 as [[event3 fa]|e|];
    [|intros [= <- _]; apply Hsame; by rewrite HS..].
  pose proof (prepareInsert_Ret _ _ _ _ _ _ Hprep) as Hfacts. simpl in Hfacts.
  destruct Hfacts as (_ & _ & _ & _ & _ & Hhash & _).
  destruct (SetEvent (Store p1) event3) as [s [e|]] eqn:Hset.
  { intros [= <- _]. apply SetEvent_err in Hset as (He & _).
    apply Hsame. simpl. by rewrite He, HS. }
  apply SetEvent_ok in Hset as (Hec & Hcc & Htc). rewrite HS in Hec, Hcc, Htc.
  unfold SetRoundCreated.
  match goal with |- finishInsert _ (withStore _ ?s1) _ _ _ = _ → _ => set (s' := s1) end.
  intros Hrun.
  assert (Inv (λ _, True) (λ _, True) s') as HI.
  { apply Inv_trivial. split.
    - intros h e. subst s'. unfold_with. rewrite Hec.
      destruct (decide (h = Event.Hash event3)) as [->|Hne].
      + rewrite lookup_insert_eq. by intros [= <-].
      + rewrite lookup_insert_ne by done. apply Hk.
    - intros f h v. subst s'. unfold_with. rewrite Hcc. apply Hkc. }
  pose proof (finishInsert_Good _ _ trivial_closed _ _ _ _ _ _ _ Hrun HI
                (λ _ _ _, I)) as [_ (Hev & _ & Hnone)].
  simpl in Hev, Hnone. split.
  - intros h e He. apply Hev. subst s'. unfold_with. rewrite Hec.
    rewrite lookup_insert_ne; [done|]. rewrite Hhash. congruence.
  - intros h Hne Hn. apply Hnone. subst s'. unfold_with. rewrite Hec.
    rewrite lookup_insert_ne; [done|]. by rewrite Hhash.
Qed.

End InsertKeeps.

(** The event 600 makes C's clotho 400 an atropos; the message, the frame
    and the tables of 400 stay. *)
Lemma InsertEvent_keeps_stored_events_witness :
  (∀ h e, eventCache (Store demoPoset) !! h = Some e →
          ∃ e', eventCache (Store (inserted demoPoset ev600)) !! h = Some e'
                ∧ sameStatic e e')
  ∧ (∀ h, h ≠ Event.Hash ev600 → eventCache (Store demoPoset) !! h = None →
          eventCache (Store (inserted demoPoset ev600)) !! h = None).
Proof.
  apply (@InsertEvent_keeps_stored_events specEnv 10 demoPoset (inserted demoPoset ev600)
           ev600 false (insertResult demoPoset ev600) demoStore_keyed).
  - vm_compute. reflexivity.
  - unfold inserted, insertResult. apply surjective_pairing.
Defined.

(** ** Frames along the parent edges *)

Section FrameOrder2.
Context `{Env}.

Lemma assignFrame_frames (p : Poset) (sp op : Event.t) (fa : FrameAssignment) :
  MinInt64 ≤ Event.Frame sp < MaxInt64 →
  assignFrame p sp op = Ret fa →
  Event.Frame sp ≤ faFrame fa
  ∧ Event.Frame op ≤ faFrame fa
  ∧ faFrame fa ≤ Z.max (Event.Frame sp) (Event.Frame op) + 1
  ∧ (faRoot fa = true ↔ Event.Frame sp < faFrame fa).
Proof.
  intros Hsp. unfold assignFrame.
  destruct (Z.eqb_spec (Event.Frame sp) (Event.Frame op)) as [Heq|Hne].
  { destruct (Event.GetFlagTable op) as [t [e1|]]; [done|].
    destruct (MergeFlagTable _ _ _) as [m [e2|]]; [done|].
    destruct (_ >=? _); intros [= <-]; simpl.
    - rewrite int64_id by (unfold MinInt64, MaxInt64 in *; lia).
      repeat split; first [lia | done | (intros; lia)].
    - repeat split; first [lia | done | (intros; lia)]. }
  destruct (Z.gtb_spec (Event.Frame sp) (Event.Frame op)) as [Hgt|Hle].
  { destruct (Event.GetFlagTable sp) as [t [e1|]]; [done|].
    intros [= <-]; simpl. repeat split; first [lia | done | (intros; lia)]. }
  destruct (GetClothoCreatorCheck _ _ _) as [r [e1|]]; [done|].
  destruct (GetEventBlock _ r) as [re err].
  destruct (Event.GetRootTable re) as [rt [e2|]]; [done|].
  destruct (MergeFlagTable _ _ _) as [m [e3|]]; [done|].
  destruct (Event.GetFlagTable op) as [t [e4|]]; [done|].
  intros [= <-]; simpl. repeat split; first [lia | done | (intros; lia)].
Qed.

(** X4: the frame of an accepted event is not below the frames of what the
    store returns for its two parents (the zero event, of frame 0, for a
    parent it does not have) and at most one above the larger of them; and
    the event is a root exactly when its frame is above the frame of its
    self-parent. *)
Theorem inserted_frame_bounds (fuel : nat) (p p' : Poset) (event : Event.t) (wire : bool) :
  let sp := (GetEventBlock (Store p) (Event.SelfParent event)).1 in
  let op := (GetEventBlock (Store p) (Event.OtherParent event)).1 in
  storeKeyed (Store p) →
  MinInt64 ≤ Event.Frame sp < MaxInt64 →
  InsertEvent fuel p event wire = (p', Ret tt) →
  ∃ e', eventCache (Store p') !! Event.Hash event = Some e'
        ∧ Event.Frame sp ≤ Event.Frame e'
        ∧ Event.Frame op ≤ Event.Frame e'
        ∧ Event.Frame e' ≤ Z.max (Event.Frame sp) (Event.Frame op) + 1
        ∧ (Event.Root e' = true ↔ Event.Frame sp < Event.Frame e').
Proof.
  intros sp op Hk Hsp Hrun.
  destruct (InsertEvent_stored _ _ _ _ _ Hk Hrun) as (p1 & event3 & fa & e' & Hprep & He' & Hst).
  pose proof (prepareInsert_Ret _ _ _ _ _ _ Hprep) as Hfacts. simpl in Hfacts.
  destruct Hfacts as (_ & _ & _ & Hfa & _ & _ & _ & _ & Hf & _ & _ & Hr & _).
  destruct Hst as (_ & _ & Sf & _ & _ & Sr).
  apply (assignFrame_frames _ _ _ _ Hsp) in Hfa.
  exists e'. split; [done|]. rewrite <- Sf, <- Sr, Hf, Hr. exact Hfa.
Qed.

End FrameOrder2.

(** The event 700 of A on A's event of frame 5 and B's root of frame 7. *)
Lemma inserted_frame_bounds_witness :
  ∃ e', eventCache (Store (inserted demoPoset ev700)) !! Event.Hash ev700 = Some e'
        ∧ Event.Frame (@GetEventBlock specEnv (Store demoPoset) (Event.SelfParent ev700)).1
          ≤ Event.Frame e'
        ∧ Event.Frame (@GetEventBlock specEnv (Store demoPoset) (Event.OtherParent ev700)).1
          ≤ Event.Frame e'
        ∧ Event.Frame e'
          ≤ Z.max
              (Event.Frame (@GetEventBlock specEnv (Store demoPoset)
                              (Event.SelfParent ev700)).1)
              (Event.Frame (@GetEventBlock specEnv (Store demoPoset)
                              (Event.OtherParent ev700)).1) + 1
        ∧ (Event.Root e' = true
           ↔ Event.Frame (@GetEventBlock specEnv (Store demoPoset)
                            (Event.SelfParent ev700)).1 < Event.Frame e').
Proof.
  apply (@inserted_frame_bounds specEnv 10 demoPoset (inserted demoPoset ev700) ev700 false
           demoStore_keyed).
  - vm_compute. split; [discriminate | reflexivity].
  - unfold inserted. apply pair_snd_eq. vm_compute. reflexivity.
Defined.

(** ** A pass over the signature pool *)

Section SigPoolPass.
Context `{Env}.

Lemma forEach_rel_in {S X : Type} (R : S → S → Prop) (body : S → X → S * outcome unit)
    (l : list X) :
  (∀ s, R s s) → (∀ s1 s2 s3, R s1 s2 → R s2 s3 → R s1 s3) →
  (∀ s x s' r, x ∈ l → body s x = (s', r) → R s s') →
  ∀ s s' r, forEach body l s = (s', r) → R s s'.
Proof.
  intros Hrefl Htrans. induction l as [|x l IH]; intros Hbody s s' r; simpl.
  - intros [= <- _]. apply Hrefl.
  - destruct (body s x) as [s1 r1] eqn:Hb. apply Hbody in Hb; [|by left].
    assert (∀ s0 s0' r0, forEach body l s0 = (s0', r0) → R s0 s0') as IH'.
    { apply IH. intros s0 x0 s0' r0 Hin. apply Hbody. by right. }
    destruct r1 as [[]|e|]; try (intros [= <- _]; exact Hb).
    intros Hrun. eapply Htrans; [exact Hb|]. by eapply IH'.
Qed.

Lemma passKeeps_refl n st : passKeeps n st st.
Proof. unfold passKeeps. repeat split; auto. Qed.

Lemma aboveAnchor_trans (a b : option Z) (i : Z) :
  (b = a ∨ ∃ j, b = Some j ∧ aboveAnchor a j) →
  aboveAnchor b i → aboveAnchor a i.
Proof.
  intros [->|(j & -> & Hj)]; [done|].
  destruct a as [k|]; simpl in *; [lia|done].
Qed.

Lemma passKeeps_trans n s1 s2 s3 : passKeeps n s1 s2 → passKeeps n s2 s3 → passKeeps n s1 s3.
Proof.
  intros (A1 & A2 & A3 & A4 & A5 & A6 & A7) (B1 & B2 & B3 & B4 & B5 & B6 & B7).
  unfold passKeeps. rewrite B1, B2, B3, B4.
  split; [done|]. split; [done|]. split; [done|]. split; [done|].
  split; [auto|]. split.
  - destruct B6 as [->|(a & -> & Ha)]; [done|].
    right. exists a. split; [done|]. by eapply aboveAnchor_trans.
  - intros i Hi. destruct (B7 i Hi) as [Hi2|?]; [|by right]. by apply A7.
Qed.

Lemma SetBlock_blocks (s : InmemStore) (b : Block.t) :
  eventCache (SetBlock s b).1 = eventCache s
  ∧ ∀ i, is_Some (blockCache s !! i) → is_Some (blockCache (SetBlock s b).1 !! i).
Proof.
  unfold SetBlock. destruct (GetBlock s (Block.Index b)) as [b0 err].
  destruct (_ && _); simpl; [done|]. split; [done|].
  intros i Hi. destruct (decide (i = Block.Index b)) as [->|Hne].
  - rewrite lookup_insert_eq. by eexists.
  - by rewrite lookup_insert_ne.
Qed.

Lemma processSignature_keeps (n : Z) (st : Poset * gset Z) (ibs : Z * BlockSignature.t) :
  0 ≤ ibs.1 < n → passKeeps n st (processSignature st ibs).1.
Proof.
  intros Hi. pose proof (processSignature_anchor_mono st ibs) as Hanchor.
  destruct st as [p d], ibs as [i bs]. simpl in Hi.
  unfold passKeeps. split_and!; try exact Hanchor; clear Hanchor;
    unfold processSignature;
    (destruct (Peers.ReadByPubKey _ _); [|by auto]);
    (destruct (bool_decide (AnchorBlock p = None) || _);
       [|simpl; try done; auto; intros j [->%elem_of_singleton|?]%elem_of_union; auto]);
    (destruct (GetBlock _ _) as [block [e|]]; [by auto|]);
    (destruct (BlockVerify block bs) as [[|] [e|]]; try (by auto));
    (destruct (BlockSetSignature block bs) as [block' [e|]]; [by auto|]);
    pose proof (SetBlock_blocks (Store p) block') as [Hev Hbl];
    destruct (_ && _); simpl; try done; auto.
  all: intros j [->%elem_of_singleton|?]%elem_of_union; auto.
Qed.

Lemma indexed_positions (l : list BlockSignature.t) (ibs : Z * BlockSignature.t) :
  ibs ∈ zip (map Z.of_nat (seq 0 (length l))) l → 0 ≤ ibs.1 < Z.of_nat (length l).
Proof.
  intros Hin. destruct ibs as [i bs]. apply elem_of_zip_l in Hin. simpl.
  apply list_elem_of_In, in_map_iff in Hin as (k & <- & Hk).
  apply in_seq in Hk. lia.
Qed.

Lemma pass_keeps (p : Poset) :
  passKeeps (Z.of_nat (length (SigPool p))) (p, ∅)
    (forEach processSignature
       (zip (map Z.of_nat (seq 0 (length (SigPool p)))) (SigPool p)) (p, ∅)).1.
Proof.
  destruct (forEach _ _ _) as [st r] eqn:Hrun. simpl.
  revert Hrun. apply forEach_rel_in.
  - apply passKeeps_refl.
  - apply passKeeps_trans.
  - intros s x s' r' Hin Hb. apply indexed_positions in Hin.
    pose proof (processSignature_keeps _ s x Hin) as Hk. by rewrite Hb in Hk.
Qed.

(** X5: a pass of [ProcessSigPool] never moves the anchor backwards: after
    it the anchor is where it was or at a block index above the old anchor.
    The pass loses no block of the store and leaves the participants, the
    undetermined events and the stored events as they were. *)
Theorem ProcessSigPool_anchor_forward (p : Poset) :
  let p' := (ProcessSigPool p).1 in
  (AnchorBlock p' = AnchorBlock p
   ∨ ∃ a, AnchorBlock p' = Some a ∧ aboveAnchor (AnchorBlock p) a)
  ∧ (∀ i, is_Some (blockCache (Store p) !! i) → is_Some (blockCache (Store p') !! i))
  ∧ Participants p' = Participants p
  ∧ UndeterminedEvents p' = UndeterminedEvents p
  ∧ eventCache (Store p') = eventCache (Store p).
Proof.
  intros p'. subst p'. pose proof (pass_keeps p) as Hk.
  unfold ProcessSigPool. destruct (forEach _ _ _) as [[p1 d] r].
  destruct Hk as (_ & K2 & K3 & K4 & K5 & K6 & _). simpl in *.
  destruct r as [[]|e|]; simpl; done.
Qed.

(** X6: [ProcessSigPool] takes out of the pool the signatures whose block
    index is one of the processed positions of the pool, and only them: the
    new pool is the old one filtered by a set of positions below the length
    of the pool.  So a signature whose block index is negative or not below
    the length of the pool stays in the pool, processed or not. *)
Theorem ProcessSigPool_removes_by_position (p : Poset) :
  let p' := (ProcessSigPool p).1 in
  (∃ processed : gset Z,
      (∀ i, i ∈ processed → 0 ≤ i < Z.of_nat (length (SigPool p)))
      ∧ SigPool p' = filter (λ bs, BlockSignature.Index bs ∉ processed) (SigPool p))
  ∧ (∀ bs, bs ∈ SigPool p →
           BlockSignature.Index bs < 0
           ∨ Z.of_nat (length (SigPool p)) ≤ BlockSignature.Index bs →
           bs ∈ SigPool p').
Proof.
  intros p'.
  assert (∃ processed : gset Z,
      (∀ i, i ∈ processed → 0 ≤ i < Z.of_nat (length (SigPool p)))
      ∧ SigPool p' = filter (λ bs, BlockSignature.Index bs ∉ processed) (SigPool p))
    as Hex.
  { subst p'. pose proof (pass_keeps p) as Hk.
    unfold ProcessSigPool. destruct (forEach _ _ _) as [[p1 d] r].
    destruct Hk as (K1 & _ & _ & _ & _ & _ & K7). simpl in *.
    assert (∀ i, i ∈ d → 0 ≤ i < Z.of_nat (length (SigPool p))) as Hd.
    { intros i Hi. destruct (K7 i Hi) as [Hi'|?]; [|done]. by apply elem_of_empty in Hi'. }
    destruct r as [[]|e|]; simpl.
    - exists d. by rewrite K1.
    - exists d. by rewrite K1.
    - exists ∅. split; [intros i Hi; by apply elem_of_empty in Hi|].
      rewrite K1. clear. induction (SigPool p) as [|bs l IH]; [done|].
      rewrite filter_cons_True by apply not_elem_of_empty. by rewrite <- IH. }
  split; [exact Hex|].
  destruct Hex as (d & Hd & ->). intros bs Hin Hout.
  apply list_elem_of_filter. split; [|done].
  intros Hd'. apply Hd in Hd'. lia.
Qed.

End SigPoolPass.

(** ** The votes on the atropos time *)

Section Votes.
Context `{Env}.

Lemma majority_fold (l : list (Z * Z)) :
  (∀ t c, (t, c) ∈ l → 0 < c) →
  let r := foldl (λ acc tc : Z * Z,
                    let '(maxVal, maxInd) := acc in
                    let '(time, count) := tc in
                    if (maxVal =? 0) || (count >? maxVal) then (count, time)
                    else if (count =? maxVal) && (time <? maxInd) then (maxVal, time)
                    else (maxVal, maxInd)) (0, 0) l in
  (l = [] ∧ r = (0, 0))
  ∨ (0 < r.1 ∧ (r.2, r.1) ∈ l
     ∧ ∀ t c, (t, c) ∈ l → c ≤ r.1 ∧ (c = r.1 → r.2 ≤ t)).
Proof.
  induction l as [|[time count] l IH] using rev_ind; intros Hpos r; [by left|].
  right. subst r. rewrite foldl_app. simpl.
  assert (0 < count) as Hc by (apply (Hpos time), elem_of_app; right; by left).
  destruct IH as [[-> ->]|(Hm & Hin & Hmax)].
  { intros t c Hin. apply (Hpos t), elem_of_app. by left. }
  - simpl. split; [done|]. split; [by left|].
    intros t c [= -> ->]%list_elem_of_singleton. lia.
  - destruct (foldl _ _ l) as [maxVal maxInd]. simpl in *.
    destruct (Z.eqb_spec maxVal 0) as [?|_]; [lia|]. simpl.
    destruct (Z.gtb_spec count maxVal) as [Hgt|Hle]; simpl.
    { split; [done|]. split; [apply elem_of_app; right; by left|].
      intros t c [Hl|[= -> ->]%list_elem_of_singleton]%elem_of_app; [|lia].
      apply Hmax in Hl. lia. }
    destruct (Z.eqb_spec count maxVal) as [Heq|Hne]; simpl.
    + destruct (Z.ltb_spec time maxInd) as [Hlt|Hge]; simpl.
      * split; [done|]. split; [apply elem_of_app; right; subst; by left|].
        intros t c [Hl|[= -> ->]%list_elem_of_singleton]%elem_of_app; [|lia].
        apply Hmax in Hl. lia.
      * split; [done|]. split; [apply elem_of_app; by left|].
        intros t c [Hl|[= -> ->]%list_elem_of_singleton]%elem_of_app; [|lia].
        by apply Hmax.
    + split; [done|]. split; [apply elem_of_app; by left|].
      intros t c [Hl|[= -> ->]%list_elem_of_singleton]%elem_of_app; [|lia].
      by apply Hmax.
Qed.

Lemma coin_fold (l : list (Z * Z)) :
  (∀ t c, (t, c) ∈ l → 0 < c) →
  let r := foldl (λ acc tc : Z * Z,
                    let '(maxVal, maxInd) := acc in
                    let '(time, count) := tc in
                    if maxVal =? 0 then (count, time)
                    else if time <? maxInd then (maxVal, time)
                    else (maxVal, maxInd)) (0, 0) l in
  (l = [] ∧ r = (0, 0))
  ∨ (0 < r.1 ∧ (∃ c, (r.2, c) ∈ l) ∧ ∀ t c, (t, c) ∈ l → r.2 ≤ t).
Proof.
  induction l as [|[time count] l IH] using rev_ind; intros Hpos r; [by left|].
  right. subst r. rewrite foldl_app. simpl.
  assert (0 < count) as Hc by (apply (Hpos time), elem_of_app; right; by left).
  destruct IH as [[-> ->]|(Hm & [c0 Hin] & Hmin)].
  { intros t c Hin. apply (Hpos t), elem_of_app. by left. }
  - simpl. split; [done|]. split; [exists count; by left|].
    intros t c [= -> ->]%list_elem_of_singleton. lia.
  - destruct (foldl _ _ l) as [maxVal maxInd]. simpl in *.
    destruct (Z.eqb_spec maxVal 0) as [?|_]; [lia|].
    destruct (Z.ltb_spec time maxInd) as [Hlt|Hge]; simpl.
    + split; [done|]. split; [exists count; apply elem_of_app; right; by left|].
      intros t c [Hl|[= -> ->]%list_elem_of_singleton]%elem_of_app; [|lia].
      apply Hmin in Hl. lia.
    + split; [done|]. split; [exists c0; apply elem_of_app; by left|].
      intros t c [Hl|[= -> ->]%list_elem_of_singleton]%elem_of_app; [|lia].
      by eapply Hmin.
Qed.

Lemma range_nil {A : Type} (m : gmap Z A) : range m = [] → m = ∅.
Proof.
  intros Hnil. apply map_empty. intros k.
  destruct (m !! k) as [v|] eqn:Hk; [|done].
  apply range_lookup in Hk. rewrite Hnil in Hk. by apply elem_of_nil in Hk.
Qed.

End Votes.

Lemma majorityVote_max (E : Env) (val : gmap Z Z) :
  map_Forall (λ _ c, 0 < c) val → val ≠ ∅ →
  val !! (@majorityVote E val).2 = Some (@majorityVote E val).1
  ∧ ∀ t c, val !! t = Some c →
           c ≤ (@majorityVote E val).1
           ∧ (c = (@majorityVote E val).1 → (@majorityVote E val).2 ≤ t).
Proof.
  intros Hpos Hne. unfold majorityVote.
  destruct (majority_fold (range val)) as [[Hnil _]|(_ & Hin & Hmax)].
  - intros t c Hin. apply range_lookup in Hin. by apply (Hpos t).
  - by apply range_nil in Hnil.
  - split; [by apply range_lookup|].
    intros t c Hl. apply Hmax. by apply range_lookup.
Qed.

Lemma coinVote_min (E : Env) (val : gmap Z Z) :
  map_Forall (λ _ c, 0 < c) val → val ≠ ∅ →
  is_Some (val !! (@coinVote E val).2)
  ∧ ∀ t, is_Some (val !! t) → (@coinVote E val).2 ≤ t.
Proof.
  intros Hpos Hne. unfold coinVote.
  destruct (coin_fold (range val)) as [[Hnil _]|(_ & [c Hin] & Hmin)].
  - intros t c Hin. apply range_lookup in Hin. by apply (Hpos t).
  - by apply range_nil in Hnil.
  - split; [exists c; by apply range_lookup|].
    intros t [c' Hl]. apply (Hmin t c'). by apply range_lookup.
Qed.

Section VoteOrder.
Context `{E1 : Env}.

(** X7: in a regular round the vote on the times of a clotho, all counted
    at least once, returns the largest count and the least of the times with
    that count, in whatever order Go's [range] visits the map; the result is
    the same for every iteration order. *)
Theorem majorityVote_largest_count (val : gmap Z Z) :
  map_Forall (λ _ c, 0 < c) val →
  (∀ E2 : Env, @majorityVote E2 val = @majorityVote E1 val)
  ∧ (val ≠ ∅ →
     val !! (@majorityVote E1 val).2 = Some (@majorityVote E1 val).1
     ∧ ∀ t c, val !! t = Some c →
              c ≤ (@majorityVote E1 val).1
              ∧ (c = (@majorityVote E1 val).1 → (@majorityVote E1 val).2 ≤ t)).
Proof.
  intros Hpos. split; [|by apply majorityVote_max].
  intros E2. destruct (decide (val = ∅)) as [->|Hne].
  { unfold majorityVote.
    assert (∀ E : Env, @range E Z ∅ = []) as Hr.
    { intros E. apply Permutation_nil_r. rewrite (@range_perm E Z ∅).
      by rewrite map_to_list_empty. }
    by rewrite !Hr. }
  destruct (majorityVote_max E2 val Hpos Hne) as [H2 M2].
  destruct (majorityVote_max E1 val Hpos Hne) as [H1 M1].
  destruct (@majorityVote E2 val) as [m2 t2], (@majorityVote E1 val) as [m1 t1]. simpl in *.
  destruct (M1 _ _ H2) as [A1 B1]. destruct (M2 _ _ H1) as [A2 B2].
  assert (m1 = m2) by lia. assert (t1 = t2) by lia. congruence.
Qed.

(** X8: in a coin round the time taken from the votes on a clotho, all
    counted at least once, is the least time voted, in whatever order Go's
    [range] visits the map. *)
Theorem coinVote_least_time (val : gmap Z Z) :
  map_Forall (λ _ c, 0 < c) val →
  (∀ E2 : Env, (@coinVote E2 val).2 = (@coinVote E1 val).2)
  ∧ (val ≠ ∅ →
     is_Some (val !! (@coinVote E1 val).2)
     ∧ ∀ t, is_Some (val !! t) → (@coinVote E1 val).2 ≤ t).
Proof.
  intros Hpos. split; [|by apply coinVote_min].
  intros E2. destruct (decide (val = ∅)) as [->|Hne].
  { unfold coinVote.
    assert (∀ E : Env, @range E Z ∅ = []) as Hr.
    { intros E. apply Permutation_nil_r. rewrite (@range_perm E Z ∅).
      by rewrite map_to_list_empty. }
    by rewrite !Hr. }
  destruct (coinVote_min E2 val Hpos Hne) as [H2 M2].
  destruct (coinVote_min E1 val Hpos Hne) as [H1 M1].
  specialize (M1 _ H2). specialize (M2 _ H1). lia.
Qed.

End VoteOrder.

(** Two votes for time 7, two for time 5 and one for time 9. *)
Lemma majorityVote_largest_count_witness :
  (∀ E2 : Env, @majorityVote E2 tiedVotes = @majorityVote specEnv tiedVotes)
  ∧ (tiedVotes ≠ ∅ →
     tiedVotes !! (@majorityVote specEnv tiedVotes).2
     = Some (@majorityVote specEnv tiedVotes).1
     ∧ ∀ t c, tiedVotes !! t = Some c →
              c ≤ (@majorityVote specEnv tiedVotes).1
              ∧ (c = (@majorityVote specEnv tiedVotes).1
                 → (@majorityVote specEnv tiedVotes).2 ≤ t)).
Proof.
  apply (@majorityVote_largest_count specEnv tiedVotes).
  unfold tiedVotes. repeat apply map_Forall_insert_2; try lia. apply map_Forall_empty.
Defined.

Lemma coinVote_least_time_witness :
  (∀ E2 : Env, (@coinVote E2 tiedVotes).2 = (@coinVote specEnv tiedVotes).2)
  ∧ (tiedVotes ≠ ∅ →
     is_Some (tiedVotes !! (@coinVote specEnv tiedVotes).2)
     ∧ ∀ t, is_Some (tiedVotes !! t) → (@coinVote specEnv tiedVotes).2 ≤ t).
Proof.
  apply (@coinVote_least_time specEnv tiedVotes).
  unfold tiedVotes. repeat apply map_Forall_insert_2; try lia. apply map_Forall_empty.
Defined.

(** ** The cached Lamport clock *)

Section LamportCache.
Context `{Env}.

Lemma stampsOnly_refl p : stampsOnly p p.
Proof. split; [by destruct p|done]. Qed.

Lemma stampsOnly_trans p1 p2 p3 : stampsOnly p1 p2 → stampsOnly p2 p3 → stampsOnly p1 p3.
Proof.
  intros [E1 S1] [E2 S2]. split; [|by etrans].
  rewrite E2 at 1. rewrite E1. reflexivity.
Qed.

Lemma stampsOnly_Store p p' : stampsOnly p p' → Store p' = Store p.
Proof. intros [-> _]. reflexivity. Qed.

Lemma lamportTimestamp2_stamps (recurse : Poset → Z → Poset * outcome Z) :
  (∀ p x p' r, recurse p x = (p', r) → stampsOnly p p') →
  ∀ p x p' r, lamportTimestamp2 recurse p x = (p', r) → stampsOnly p p'.
Proof.
  intros Hrec p x p' r. unfold lamportTimestamp2.
  destruct (RootsBySelfParent _ !! x); [intros [= <- _]; apply stampsOnly_refl|].
  destruct (GetEventBlock (Store p) x) as [ex [e|]]; [intros [= <- _]; apply stampsOnly_refl|].
  destruct (GetRoot _ _) as [root [e|]]; [intros [= <- _]; apply stampsOnly_refl|].
  set (r1 := if _ =? _ then _ else _).
  assert (stampsOnly p r1.1) as H1.
  { subst r1. destruct (_ =? _); [apply stampsOnly_refl|].
    destruct (recurse p (Event.SelfParent ex)) as [q rq] eqn:Hq. by apply Hrec in Hq. }
  destruct r1 as [p1 [plt|e|]]; simpl in H1; try (intros [= <- _]; exact H1).
  destruct (negb _); [|intros [= <- _]; exact H1].
  set (r2 := match (GetEventBlock (Store p1) _).2 with Some _ => _ | None => _ end).
  assert (stampsOnly p1 r2.1) as H2.
  { subst r2. destruct ((GetEventBlock (Store p1) _).2).
    - destruct (Root.Others root !! x) as [other|]; [|apply stampsOnly_refl].
      destruct (_ =? _); apply stampsOnly_refl.
    - destruct (recurse p1 (Event.OtherParent ex)) as [q rq] eqn:Hq. by apply Hrec in Hq. }
  destruct r2 as [p2 [opLT|e|]]; simpl in H2; intros [= <- _]; by eapply stampsOnly_trans.
Qed.

Lemma lamportTimestamp_stamps (fuel : nat) (p : Poset) (x : Z) (p' : Poset) (r : outcome Z) :
  lamportTimestamp fuel p x = (p', r) →
  stampsOnly p p' ∧ ∀ t, r = Ret t → timestampCache p' !! x = Some t.
Proof.
  revert p x p' r. induction fuel as [|fuel IH]; intros p x p' r; simpl.
  - destruct (timestampCache p !! x) as [c|] eqn:Hc.
    + intros [= <- <-]. split; [apply stampsOnly_refl|]. by intros t [= <-].
    + intros [= <- <-]. split; [apply stampsOnly_refl|done].
  - destruct (timestampCache p !! x) as [c|] eqn:Hc.
    { intros [= <- <-]. split; [apply stampsOnly_refl|]. by intros t [= <-]. }
    destruct (lamportTimestamp2 _ p x) as [p1 r1] eqn:H2.
    apply lamportTimestamp2_stamps in H2; [|intros q y q' rq Hq; by apply IH in Hq as [? _]].
    destruct r1 as [t1|e|]; intros [= <- <-]; try (split; [exact H2|done]).
    split.
    + destruct H2 as [E2 Hsub]. split.
      * rewrite E2. reflexivity.
      * simpl. apply map_subseteq_spec. intros k v Hk.
        destruct (decide (k = x)) as [->|Hne]; [congruence|].
        rewrite lookup_insert_ne by done.
        by apply (lookup_weaken _ _ _ _ Hk).
    + intros t [= <-]. simpl. apply lookup_insert_eq.
Qed.

(** X9: [lamportTimestamp] changes nothing of the poset but the timestamp
    cache, which keeps the entries it had; when it returns a timestamp, the
    cache holds it under the hash of the event, and a second call returns
    the same timestamp from the cache and changes nothing. *)
Theorem lamportTimestamp_memo (fuel : nat) (p : Poset) (x : Z) (p' : Poset) (r : outcome Z) :
  lamportTimestamp fuel p x = (p', r) →
  p' = withTimestampCache p (timestampCache p')
  ∧ timestampCache p ⊆ timestampCache p'
  ∧ ∀ t, r = Ret t →
         timestampCache p' !! x = Some t
         ∧ ∀ fuel', lamportTimestamp fuel' p' x = (p', Ret t).
Proof.
  intros Hrun. apply lamportTimestamp_stamps in Hrun as [[E S] Ht].
  split; [exact E|]. split; [exact S|].
  intros t Hr. specialize (Ht t Hr). split; [exact Ht|].
  intros fuel'. destruct fuel'; simpl; by rewrite Ht.
Qed.

(** X10: the timestamp that [lamportTimestamp] computes for a stored event
    that is no root and not its own parent is one more, in int64, than the
    larger of the timestamps of its parents: for the self-parent the
    timestamp of the creator's root if it is the root's self-parent and the
    timestamp the cache holds after the call otherwise; for an other-parent
    in the store the timestamp the cache holds after the call, and for one
    that is not stored the timestamp the root records for it, or MinInt64. *)
Theorem lamportTimestamp_recurrence (fuel : nat) (p : Poset) (x : Z) (ex : Event.t)
    (p' : Poset) (t : Z) :
  timestampCache p !! x = None →
  RootsBySelfParent (Store p) !! x = None →
  eventCache (Store p) !! x = Some ex →
  Event.SelfParent ex ≠ x →
  Event.OtherParent ex ≠ x →
  lamportTimestamp fuel p x = (p', Ret t) →
  ∃ root plt,
    rootsByParticipant (Store p) !! Event.GetCreator ex = Some root
    ∧ (if Event.SelfParent ex =? RootEvent.Hash (Root.SelfParent root)
       then plt = RootEvent.LamportTimestamp (Root.SelfParent root)
       else timestampCache p' !! Event.SelfParent ex = Some plt)
    ∧ (if Event.OtherParent ex =? 0 then t = int64 (plt + 1)
       else ∃ opLT,
           match eventCache (Store p) !! Event.OtherParent ex with
           | Some _ => timestampCache p' !! Event.OtherParent ex = Some opLT
           | None =>
               opLT = match Root.Others root !! x with
                      | Some other =>
                          if Event.OtherParent ex =? RootEvent.Hash other
                          then RootEvent.LamportTimestamp other
                          else MinInt64
                      | None => MinInt64
                      end
           end
           ∧ t = int64 (Z.max plt opLT + 1)).
Proof.
  intros Hc Hroot Hex Hsp Hop. destruct fuel as [|fuel]; simpl; rewrite Hc; [done|].
  destruct (lamportTimestamp2 _ p x) as [p2 r2] eqn:H2.
  destruct r2 as [t2|e|]; intros [= <- <-]; simpl.
  unfold lamportTimestamp2 in H2. rewrite Hroot in H2.
  unfold GetEventBlock at 1 in H2. rewrite Hex in H2.
  unfold GetRoot in H2. destruct (rootsByParticipant _ !! _) as [root|]; [|done].
  exists root.
  destruct (Z.eqb_spec (Event.SelfParent ex) (RootEvent.Hash (Root.SelfParent root)))
    as [Heq|Hne].
  - (* the self-parent is the root's *)
    exists (RootEvent.LamportTimestamp (Root.SelfParent root)).
    split; [done|]. split; [done|].
    destruct (Event.OtherParent ex =? 0); simpl in H2; [by injection H2 as _ <-|].
    unfold GetEventBlock in H2.
    destruct (eventCache (Store p) !! Event.OtherParent ex) as [eo|]; simpl in H2.
    + destruct (lamportTimestamp fuel p _) as [q [opLT|e|]] eqn:Hq; try done.
      injection H2 as <- <-. exists opLT.
      apply lamportTimestamp_stamps in Hq as [_ Hq]. specialize (Hq _ eq_refl).
      split; [by rewrite lookup_insert_ne|].
      f_equal. destruct (Z.gtb_spec opLT (RootEvent.LamportTimestamp (Root.SelfParent root))); lia.
    + eexists. split; [reflexivity|].
      destruct (Root.Others root !! x) as [other|].
      * destruct (_ =? RootEvent.Hash other); injection H2 as _ <-; f_equal;
          match goal with |- context [?a >? ?b] => destruct (Z.gtb_spec a b) end; lia.
      * injection H2 as _ <-; f_equal;
          match goal with |- context [?a >? ?b] => destruct (Z.gtb_spec a b) end; lia.
  - (* the self-parent is an event *)
    destruct (lamportTimestamp fuel p (Event.SelfParent ex)) as [p1 [plt|e|]] eqn:H1; try done.
    apply lamportTimestamp_stamps in H1 as [S1 H1]. specialize (H1 _ eq_refl).
    exists plt. split; [done|].
    rewrite (stampsOnly_Store _ _ S1) in H2.
    destruct (Event.OtherParent ex =? 0); simpl in H2.
    { injection H2 as <- <-. split; [|done]. by rewrite lookup_insert_ne. }
    unfold GetEventBlock in H2.
    destruct (eventCache (Store p) !! Event.OtherParent ex) as [eo|]; simpl in H2.
    + destruct (lamportTimestamp fuel p1 _) as [q [opLT|e|]] eqn:Hq; try done.
      injection H2 as <- <-.
      apply lamportTimestamp_stamps in Hq as [[_ Sq] Hq]. specialize (Hq _ eq_refl).
      split.
      { rewrite lookup_insert_ne by done. by apply (lookup_weaken _ _ _ _ H1). }
      exists opLT. split; [by rewrite lookup_insert_ne|].
      f_equal. destruct (Z.gtb_spec opLT plt); lia.
    + assert (∀ o, (p1, Ret (int64 ((if o >? plt then o else plt) + 1))) = (p2, Ret t2) →
                   timestampCache (withTimestampCache p2 (<[x:=t2]> (timestampCache p2)))
                     !! Event.SelfParent ex = Some plt
                   ∧ ∃ opLT, opLT = o ∧ t2 = int64 (Z.max plt opLT + 1)) as Hfin.
      { intros o [= <- <-]. split; [simpl; by rewrite lookup_insert_ne|].
        exists o. split; [done|]. f_equal. destruct (Z.gtb_spec o plt); lia. }
      destruct (Root.Others root !! x) as [other|]; [destruct (_ =? RootEvent.Hash other)|];
        apply Hfin in H2; exact H2.
Qed.

End LamportCache.

(** The clotho 400 of C on C's leaf 300 and B's leaf 200. *)
Lemma lamportTimestamp_memo_witness :
  stamped demoPoset 400 = @withTimestampCache specEnv demoPoset (timestampCache (stamped demoPoset 400))
  ∧ timestampCache demoPoset ⊆ timestampCache (stamped demoPoset 400)
  ∧ ∀ t, (Ret 1 : outcome Z) = Ret t →
         timestampCache (stamped demoPoset 400) !! 400 = Some t
         ∧ ∀ fuel', @lamportTimestamp specEnv fuel' (stamped demoPoset 400) 400
                    = (stamped demoPoset 400, Ret t).
Proof.
  apply (@lamportTimestamp_memo specEnv 10 demoPoset 400).
  unfold stamped. apply pair_snd_eq. vm_compute. reflexivity.
Defined.

Lemma lamportTimestamp_recurrence_witness :
  ∃ root plt,
    rootsByParticipant (Store demoPoset) !! Event.GetCreator evC1 = Some root
    ∧ (if Event.SelfParent evC1 =? RootEvent.Hash (Root.SelfParent root)
       then plt = RootEvent.LamportTimestamp (Root.SelfParent root)
       else timestampCache (stamped demoPoset 400) !! Event.SelfParent evC1 = Some plt)
    ∧ (if Event.OtherParent evC1 =? 0 then 1 = int64 (plt + 1)
       else ∃ opLT,
           match eventCache (Store demoPoset) !! Event.OtherParent evC1 with
           | Some _ =>
               timestampCache (stamped demoPoset 400) !! Event.OtherParent evC1 = Some opLT
           | None =>
               opLT = match Root.Others root !! 400 with
                      | Some other =>
                          if Event.OtherParent evC1 =? RootEvent.Hash other
                          then RootEvent.LamportTimestamp other
                          else MinInt64
                      | None => MinInt64
                      end
           end
           ∧ 1 = int64 (Z.max plt opLT + 1)).
Proof.
  apply (@lamportTimestamp_recurrence specEnv 10 demoPoset 400 evC1 (stamped demoPoset 400) 1).
  - vm_compute. reflexivity.
  - vm_compute. reflexivity.
  - vm_compute. reflexivity.
  - vm_compute. discriminate.
  - vm_compute. discriminate.
  - unfold stamped. apply pair_snd_eq. vm_compute. reflexivity.
Defined.

(** ** The cached rounds *)

Section RoundCache.
Context `{Env}.

Lemma roundsOnly_refl p : roundsOnly p p.
Proof. split; [by destruct p|done]. Qed.

Lemma roundsOnly_trans p1 p2 p3 : roundsOnly p1 p2 → roundsOnly p2 p3 → roundsOnly p1 p3.
Proof.
  intros [E1 S1] [E2 S2]. split; [|by etrans].
  rewrite E2 at 1. rewrite E1. reflexivity.
Qed.

Lemma round2_rounds (recurse : Poset → Z → Poset * outcome Z) :
  (∀ p x p' r, recurse p x = (p', r) → roundsOnly p p') →
  ∀ p x p' r, round2 recurse p x = (p', r) → roundsOnly p p'.
Proof.
  intros Hrec p x p' r. unfold round2.
  destruct (RootsBySelfParent _ !! x); [intros [= <- _]; apply roundsOnly_refl|].
  destruct (GetEventBlock (Store p) x) as [ex [e|]]; [intros [= <- _]; apply roundsOnly_refl|].
  destruct (GetRoot _ _) as [root [e|]]; [intros [= <- _]; apply roundsOnly_refl|].
  destruct (_ && _); [intros [= <- _]; apply roundsOnly_refl|].
  destruct (recurse p (Event.SelfParent ex)) as [p1 r1] eqn:H1. apply Hrec in H1.
  destruct r1 as [spRound|e|]; try (intros [= <- _]; exact H1).
  destruct (recurse p1 (Event.OtherParent ex)) as [p2 r2] eqn:H2. apply Hrec in H2.
  pose proof (roundsOnly_trans _ _ _ H1 H2) as H12.
  destruct r2 as [opRound|e|]; try (intros [= <- _]; exact H12).
  destruct (_ =? FrameNIL); [intros [= <- _]; exact H12|].
  destruct (Event.GetFlagTable ex) as [ft err].
  destruct (_ && _); intros [= <- _]; exact H12.
Qed.

Lemma round_rounds (fuel : nat) (p : Poset) (x : Z) (p' : Poset) (r : outcome Z) :
  round fuel p x = (p', r) →
  roundsOnly p p' ∧ ∀ t, r = Ret t → roundCache p' !! x = Some t.
Proof.
  revert p x p' r. induction fuel as [|fuel IH]; intros p x p' r; simpl.
  - destruct (roundCache p !! x) as [c|] eqn:Hc.
    + intros [= <- <-]. split; [apply roundsOnly_refl|]. by intros t [= <-].
    + intros [= <- <-]. split; [apply roundsOnly_refl|done].
  - destruct (roundCache p !! x) as [c|] eqn:Hc.
    { intros [= <- <-]. split; [apply roundsOnly_refl|]. by intros t [= <-]. }
    destruct (round2 _ p x) as [p1 r1] eqn:H2.
    apply round2_rounds in H2; [|intros q y q' rq Hq; by apply IH in Hq as [? _]].
    destruct r1 as [t1|e|]; intros [= <- <-]; try (split; [exact H2|done]).
    split.
    + destruct H2 as [E2 Hsub]. split.
      * rewrite E2. reflexivity.
      * simpl. apply map_subseteq_spec. intros k v Hk.
        destruct (decide (k = x)) as [->|Hne]; [congruence|].
        rewrite lookup_insert_ne by done.
        by apply (lookup_weaken _ _ _ _ Hk).
    + intros t [= <-]. simpl. apply lookup_insert_eq.
Qed.

(** X11: [round] changes nothing of the poset but the round cache, which
    keeps the entries it had; when it returns a round, the cache holds it
    under the hash of the event, and a second call returns the same round
    from the cache and changes nothing. *)
Theorem round_memo (fuel : nat) (p : Poset) (x : Z) (p' : Poset) (r : outcome Z) :
  round fuel p x = (p', r) →
  p' = withRoundCache p (roundCache p')
  ∧ roundCache p ⊆ roundCache p'
  ∧ ∀ t, r = Ret t →
         roundCache p' !! x = Some t
         ∧ ∀ fuel', round fuel' p' x = (p', Ret t).
Proof.
  intros Hrun. apply round_rounds in Hrun as [[E S] Ht].
  split; [exact E|]. split; [exact S|].
  intros t Hr. specialize (Ht t Hr). split; [exact Ht|].
  intros fuel'. destruct fuel'; simpl; by rewrite Ht.
Qed.

(** *** Roots and frames *)

Lemma cachesOnly_refl p : cachesOnly p p.
Proof. split; [by destruct p|done]. Qed.

Lemma cachesOnly_trans p1 p2 p3 : cachesOnly p1 p2 → cachesOnly p2 p3 → cachesOnly p1 p3.
Proof.
  intros (E1 & S1 & T1) (E2 & S2 & T2). split; [|split; by etrans].
  rewrite E2 at 1. rewrite E1. reflexivity.
Qed.

Lemma stampsOnly_caches p p' : stampsOnly p p' → cachesOnly p p'.
Proof.
  intros [E S]. split; [|split; [done|]].
  - rewrite E at 1. rewrite E. by destruct p.
  - rewrite E. done.
Qed.

Lemma roundsOnly_caches p p' : roundsOnly p p' → cachesOnly p p'.
Proof.
  intros [E S]. split; [|split; [|done]].
  - rewrite E at 1. rewrite E. by destruct p.
  - rewrite E. done.
Qed.

Lemma lamportTimestamp_caches fuel p x p' r :
  lamportTimestamp fuel p x = (p', r) → cachesOnly p p'.
Proof. intros Hrun. apply lamportTimestamp_stamps in Hrun as [? _]. by apply stampsOnly_caches. Qed.

Lemma round_caches fuel p x p' r : round fuel p x = (p', r) → cachesOnly p p'.
Proof. intros Hrun. apply round_rounds in Hrun as [? _]. by apply roundsOnly_caches. Qed.

Lemma createSelfParentRootEvent_caches fuel p ev p' r :
  createSelfParentRootEvent fuel p ev = (p', r) → cachesOnly p p'.
Proof.
  unfold createSelfParentRootEvent.
  destruct (lamportTimestamp fuel p _) as [p1 r1] eqn:H1. apply lamportTimestamp_caches in H1.
  destruct r1 as [t|e|]; try (intros [= <- _]; exact H1).
  destruct (round fuel p1 _) as [p2 r2] eqn:H2. apply round_caches in H2.
  pose proof (cachesOnly_trans _ _ _ H1 H2) as H12.
  destruct r2 as [t2|e|]; try (intros [= <- _]; exact H12).
  destruct (Peers.ReadByPubKey _ _); intros [= <- _]; exact H12.
Qed.

Lemma createOtherParentRootEvent_caches fuel p ev p' r :
  createOtherParentRootEvent fuel p ev = (p', r) → cachesOnly p p'.
Proof.
  unfold createOtherParentRootEvent.
  destruct (GetRoot _ _) as [root [e|]]; [intros [= <- _]; apply cachesOnly_refl|].
  destruct (match Root.Others root !! Event.Hash ev with Some _ => _ | None => _ end);
    [intros [= <- _]; apply cachesOnly_refl|].
  destruct (GetEventBlock _ _) as [op [e|]]; [intros [= <- _]; apply cachesOnly_refl|].
  destruct (lamportTimestamp fuel p _) as [p1 r1] eqn:H1. apply lamportTimestamp_caches in H1.
  destruct r1 as [t|e|]; try (intros [= <- _]; exact H1).
  destruct (round fuel p1 _) as [p2 r2] eqn:H2. apply round_caches in H2.
  pose proof (cachesOnly_trans _ _ _ H1 H2) as H12.
  destruct r2 as [t2|e|]; try (intros [= <- _]; exact H12).
  destruct (Peers.ReadByPubKey _ _); intros [= <- _]; exact H12.
Qed.

Lemma createRoot_caches fuel p ev p' r :
  createRoot fuel p ev = (p', r) → cachesOnly p p'.
Proof.
  unfold createRoot.
  destruct (round fuel p _) as [p1 r1] eqn:H1. apply round_caches in H1.
  destruct r1 as [t|e|]; try (intros [= <- _]; exact H1).
  destruct (createSelfParentRootEvent fuel p1 ev) as [p2 r2] eqn:H2.
  apply createSelfParentRootEvent_caches in H2.
  pose proof (cachesOnly_trans _ _ _ H1 H2) as H12.
  destruct r2 as [t2|e|]; try (intros [= <- _]; exact H12).
  destruct (negb _); [|intros [= <- _]; exact H12].
  destruct (createOtherParentRootEvent fuel p2 ev) as [p3 r3] eqn:H3.
  apply createOtherParentRootEvent_caches in H3.
  pose proof (cachesOnly_trans _ _ _ H12 H3) as H123.
  destruct r3 as [t3|e|]; intros [= <- _]; exact H123.
Qed.

Lemma rootOfCreator_caches fuel st ev st' r :
  rootOfCreator fuel st ev = (st', r) → cachesOnly st.1 st'.1.
Proof.
  destruct st as [p roots]. unfold rootOfCreator.
  destruct (roots !! _); [intros [= <- _]; apply cachesOnly_refl|].
  destruct (createRoot fuel p ev) as [p1 r1] eqn:H1. apply createRoot_caches in H1.
  destruct r1 as [t|e|]; intros [= <- _]; exact H1.
Qed.

Lemma rootOfPeer_caches fuel st peer st' r :
  rootOfPeer fuel st peer = (st', r) → cachesOnly st.1 st'.1.
Proof.
  destruct st as [p roots]. unfold rootOfPeer.
  destruct (roots !! _); [intros [= <- _]; apply cachesOnly_refl|].
  destruct (LastConsensusEventFrom _ _) as [[h isR] [e|]];
    [intros [= <- _]; apply cachesOnly_refl|].
  destruct isR; [intros [= <- _]; apply cachesOnly_refl|].
  destruct (GetEventBlock _ _) as [le [e|]]; [intros [= <- _]; apply cachesOnly_refl|].
  destruct (createRoot fuel p le) as [p1 r1] eqn:H1. apply createRoot_caches in H1.
  destruct r1 as [t|e|]; intros [= <- _]; exact H1.
Qed.

Lemma otherOfEvent_caches fuel st ev st' r :
  otherOfEvent fuel st ev = (st', r) → cachesOnly st.1.1 st'.1.1.
Proof.
  destruct st as [[p roots] treated]. unfold otherOfEvent.
  destruct (_ && _); [|intros [= <- _]; apply cachesOnly_refl].
  destruct (createOtherParentRootEvent fuel p ev) as [p1 r1] eqn:H1.
  apply createOtherParentRootEvent_caches in H1.
  destruct r1 as [t|e|]; intros [= <- _]; exact H1.
Qed.

Lemma cachesOnly_Store p p' : cachesOnly p p' → Store p' = Store p.
Proof. intros [-> _]. reflexivity. Qed.

Lemma cachesOnly_Participants p p' : cachesOnly p p' → Participants p' = Participants p.
Proof. intros [-> _]. reflexivity. Qed.

Lemma MakeFrame_stored (fuel : nat) (p p' : Poset) (roundReceived : Z)
    (frame : Frame.t) :
  MakeFrame fuel p roundReceived = (p', Ret frame) →
  0 < roundReceived
  ∧ Frame.Round frame = roundReceived
  ∧ length (Frame.Roots frame) = length (ToPeerSlice (Participants p))
  ∧ (∀ fuel', PosetGetFrame fuel' p' roundReceived = (p', Ret frame))
  ∧ p' = withStore
           (withRoundCache (withTimestampCache p (timestampCache p')) (roundCache p'))
           (withFrameCache (Store p) (<[roundReceived := frame]> (frameCache (Store p)))).
Proof.
  unfold MakeFrame.
  destruct (GetRoundReceived (Store p) roundReceived) as [hashes [e|]] eqn:Hround; [done|].
  destruct (fetchEvents (Store p) hashes) as [fetched|e|] eqn:Hfetch; [|done..].
  destruct (ApplyInternalTransactions p roundReceived _) as [stateHash [e|]] eqn:Happly; [done|].
  assert (0 < roundReceived) as Hpos.
  { revert Happly. unfold ApplyInternalTransactions.
    destruct (Z.leb_spec roundReceived 0); [done|]. intros _. lia. }
  destruct (forEach (rootOfCreator fuel) _ _) as [[p1 roots1] r1] eqn:H1.
  assert (cachesOnly p p1) as C1.
  { revert H1. apply (forEach_rel (λ st st', cachesOnly st.1 st'.1)).
    - intros st. apply cachesOnly_refl.
    - intros s1 s2 s3. apply cachesOnly_trans.
    - intros st ev st' r. apply rootOfCreator_caches. }
  destruct r1 as [[]|e|]; [|done..].
  destruct (forEach (rootOfPeer fuel) _ _) as [[p2 roots2] r2] eqn:H2.
  assert (cachesOnly p1 p2) as C2.
  { revert H2. apply (forEach_rel (λ st st', cachesOnly st.1 st'.1)).
    - intros st. apply cachesOnly_refl.
    - intros s1 s2 s3. apply cachesOnly_trans.
    - intros st ev st' r. apply rootOfPeer_caches. }
  destruct r2 as [[]|e|]; [|done..].
  destruct (forEach (otherOfEvent fuel) _ _) as [[[p3 roots3] treated] r3] eqn:H3.
  assert (cachesOnly p2 p3) as C3.
  { revert H3. apply (forEach_rel (λ st st', cachesOnly st.1.1 st'.1.1)).
    - intros st. apply cachesOnly_refl.
    - intros s1 s2 s3. apply cachesOnly_trans.
    - intros st ev st' r. apply otherOfEvent_caches. }
  destruct r3 as [[]|e|]; [|done..].
  pose proof (cachesOnly_trans _ _ _ (cachesOnly_trans _ _ _ C1 C2) C3) as C.
  unfold SetFrame, GetFrame. simpl.
  destruct (frameCache (Store p3) !! roundReceived) as [f0|] eqn:Hf0; simpl;
    intros [= <- <-]; simpl.
  all: split; [exact Hpos|]; split; [reflexivity|].
  all: split; [rewrite length_map; by rewrite (cachesOnly_Participants _ _ C)|].
  all: split;
    [intros fuel'; unfold PosetGetFrame, GetFrame; simpl; by rewrite lookup_insert_eq|].
  all: destruct C as (-> & _ & _); reflexivity.
Qed.

(** X12: a frame that [MakeFrame] returns is the frame of a round received
    above 0, carries that round and one root for every participant, and is
    in the frame cache of the store afterwards, where [Poset.GetFrame] finds
    it without making it again.  [MakeFrame] writes nothing to the stored
    events, the blocks, the rounds received and the roots of the store, nor
    to the participants, the undetermined events, the anchor and the
    signature pool of the poset.  (What it does to the other frames of the
    frame cache, which is an LRU cache, and to the state database, which is
    outside the sources, is not part of the statement.) *)
Theorem MakeFrame_then_GetFrame (fuel : nat) (p p' : Poset) (roundReceived : Z)
    (frame : Frame.t) :
  MakeFrame fuel p roundReceived = (p', Ret frame) →
  0 < roundReceived
  ∧ Frame.Round frame = roundReceived
  ∧ length (Frame.Roots frame) = length (ToPeerSlice (Participants p))
  ∧ (∀ fuel', PosetGetFrame fuel' p' roundReceived = (p', Ret frame))
  ∧ eventCache (Store p') = eventCache (Store p)
  ∧ blockCache (Store p') = blockCache (Store p)
  ∧ roundReceivedCache (Store p') = roundReceivedCache (Store p)
  ∧ rootsByParticipant (Store p') = rootsByParticipant (Store p)
  ∧ Participants p' = Participants p
  ∧ UndeterminedEvents p' = UndeterminedEvents p
  ∧ AnchorBlock p' = AnchorBlock p
  ∧ SigPool p' = SigPool p.
Proof.
  intros Hrun. apply MakeFrame_stored in Hrun as (H1 & H2 & H3 & H4 & Hp').
  do 4 (split; [done|]). rewrite Hp'. done.
Qed.

End RoundCache.

(** The rounds of the clotho 400 of C and of its parents. *)
Lemma round_memo_witness :
  rounded demoPoset 400
  = @withRoundCache specEnv demoPoset (roundCache (rounded demoPoset 400))
  ∧ roundCache demoPoset ⊆ roundCache (rounded demoPoset 400)
  ∧ ∀ t, (Ret 0 : outcome Z) = Ret t →
         roundCache (rounded demoPoset 400) !! 400 = Some t
         ∧ ∀ fuel', @round specEnv fuel' (rounded demoPoset 400) 400
                    = (rounded demoPoset 400, Ret t).
Proof.
  apply (@round_memo specEnv 10 demoPoset 400).
  unfold rounded. apply pair_snd_eq. vm_compute. reflexivity.
Defined.

(** The frame of round 1 of the three leaves. *)
Lemma MakeFrame_then_GetFrame_witness :
  0 < 1
  ∧ Frame.Round (madeFrame leafPoset 1) = 1
  ∧ length (Frame.Roots (madeFrame leafPoset 1))
    = length (@ToPeerSlice specEnv (Participants leafPoset))
  ∧ (∀ fuel', @PosetGetFrame specEnv fuel' (framed leafPoset 1) 1
              = (framed leafPoset 1, Ret (madeFrame leafPoset 1)))
  ∧ eventCache (Store (framed leafPoset 1)) = eventCache (Store leafPoset)
  ∧ blockCache (Store (framed leafPoset 1)) = blockCache (Store leafPoset)
  ∧ roundReceivedCache (Store (framed leafPoset 1)) = roundReceivedCache (Store leafPoset)
  ∧ rootsByParticipant (Store (framed leafPoset 1)) = rootsByParticipant (Store leafPoset)
  ∧ Participants (framed leafPoset 1) = Participants leafPoset
  ∧ UndeterminedEvents (framed leafPoset 1) = UndeterminedEvents leafPoset
  ∧ AnchorBlock (framed leafPoset 1) = AnchorBlock leafPoset
  ∧ SigPool (framed leafPoset 1) = SigPool leafPoset.
Proof.
  apply (@MakeFrame_then_GetFrame specEnv 10 leafPoset (framed leafPoset 1) 1
           (madeFrame leafPoset 1)).
  unfold framed, madeFrame. apply pair_snd_eq. vm_compute. reflexivity.
Defined.

(** ** Reset from a block and a frame *)

Section ResetFacts.
Context `{Env}.

Lemma int64_add_l (a b : Z) : int64 (int64 a + b) = int64 (a + b).
Proof.
  unfold int64. f_equal.
  replace ((a + 2 ^ 63) mod 2 ^ 64 - 2 ^ 63 + b + 2 ^ 63)
    with ((a + 2 ^ 63) mod 2 ^ 64 + b) by lia.
  rewrite Zplus_mod_idemp_l. f_equal. lia.
Qed.

Lemma InsertEvent_keyed (fuel : nat) (p p' : Poset) (event : Event.t) (wire : bool) :
  storeKeyed (Store p) →
  InsertEvent fuel p event wire = (p', Ret tt) →
  storeKeyed (Store p').
Proof.
  intros [Hk Hkc] Hrun. unfold InsertEvent in Hrun.
  destruct (prepareInsert p event wire) as [p1 [[event3 fa]|e|]] eqn:Hprep; try done.
  pose proof (prepareInsert_Ret _ _ _ _ _ _ Hprep) as Hfacts. simpl in Hfacts.
  destruct Hfacts as (_ & _ & _ & _ & Hsame & Hhash & _).
  destruct Hsame as (_ & HS & _).
  destruct (SetEvent (Store p1) event3) as [s [e|]] eqn:Hset; [done|].
  apply SetEvent_ok in Hset as (Hec & Hcc & Htc).
  unfold SetRoundCreated in Hrun.
  match type of Hrun with finishInsert _ (withStore _ ?s1) _ _ _ = _ => set (s' := s1) in * end.
  assert (Inv (λ _, True) (λ _, True) s') as HI.
  { apply Inv_trivial. split.
    - intros h e. subst s'. unfold_with. rewrite Hec, HS.
      destruct (decide (h = Event.Hash event3)) as [->|Hne].
      + rewrite lookup_insert_eq. by intros [= <-].
      + rewrite lookup_insert_ne by done. apply Hk.
    - intros f h v. subst s'. unfold_with. rewrite Hcc, HS. apply Hkc. }
  pose proof (finishInsert_Good _ _ trivial_closed _ _ _ _ _ _ _ Hrun HI
                (λ _ _ _, I)) as [[Hkeyed _] _].
  exact Hkeyed.
Qed.

(** The insertion of the events of a frame, one after the other. *)
Lemma insertAll_accepted (fuel : nat) (events : list EventMessage.t) (q p' : Poset) :
  storeKeyed (Store q) →
  forEach (λ q ev, InsertEvent fuel q (ToEvent ev) false) events q = (p', Ret tt) →
  UndeterminedEvents p'
  = UndeterminedEvents q ++ map (λ m, Event.Hash (ToEvent m)) events
  ∧ SigPool p'
    = SigPool q ++ concat (map (λ m, Event.BlockSignatures (ToEvent m)) events)
  ∧ topologicalIndex p'
    = (if events is [] then topologicalIndex q
       else int64 (topologicalIndex q + Z.of_nat (length events)))
  ∧ Participants p' = Participants q
  ∧ AnchorBlock p' = AnchorBlock q
  ∧ roundCache p' = roundCache q
  ∧ timestampCache p' = timestampCache q
  ∧ storeOutside (Store q) (Store p').
Proof.
  revert q. induction events as [|m events IH]; intros q Hk.
  - simpl. intros [= <-]. rewrite !app_nil_r.
    do 7 (split; [done|]). apply storeOutside_refl.
  - cbn [forEach].
    destruct (InsertEvent fuel q (ToEvent m) false) as [q1 r1] eqn:Hins.
    destruct r1 as [[]|e|]; [|done..].
    pose proof (InsertEvent_keyed _ _ _ _ _ Hk Hins) as Hk1.
    pose proof (InsertEvent_accepted _ _ _ _ _ Hk Hins) as (A1 & A2 & A3 & _).
    pose proof (InsertEvent_outside _ _ _ _ _ _ Hins) as (B1 & B2 & B3 & B4 & B5).
    intros Hrest. apply (IH q1 Hk1) in Hrest as (C1 & C2 & C3 & C4 & C5 & C6 & C7 & C8).
    rewrite C1, C2, C3, C4, C5, C6, C7, A1, A2, A3, B1, B2, B3, B4.
    cbn [map concat]. rewrite <- !app_assoc. simpl app.
    do 2 (split; [done|]). split.
    { destruct events as [|m' events']; [done|].
      rewrite int64_add_l. f_equal. simpl length. lia. }
    do 4 (split; [done|]). by eapply storeOutside_trans.
Qed.

Lemma StoreReset_keyed (s s' : InmemStore) (roots : gmap string Root.t) err :
  StoreReset s roots = (s', err) → storeKeyed s'.
Proof.
  unfold StoreReset. destruct (pecReset _) as [c e]. intros [= <- _].
  split; simpl; intros *; by rewrite lookup_empty.
Qed.

(** [SetBlock] of the in-memory store always succeeds. *)
Lemma SetBlock_total (s : InmemStore) (b : Block.t) :
  SetBlock s b
  = (withBlocks s (<[Block.Index b := b]> (blockCache s))
       (if Block.Index b >? lastBlock s then Block.Index b else lastBlock s), None).
Proof. unfold SetBlock, GetBlock. by destruct (blockCache s !! Block.Index b). Qed.

(** X13: after a successful [Reset] the undetermined events are the events
    of the frame in the order of the frame, the signature pool has gained
    their block signatures, and the topological index is their number; the
    anchor is forgotten and the round cache is empty, the timestamp cache
    and the participants are kept.  The store has the roots of the frame,
    one for each participant in the order of the participants, no round
    received and the frames it had; [GetBlock] returns the new block for its
    index and, LRU eviction aside, what it returned before for every other
    index; the last block index is the index of the new block, or -1 when
    that index is below 0. *)
Theorem Reset_restarts (fuel : nat) (p p' : Poset) (block : Block.t) (frame : Frame.t) :
  Reset fuel p block frame = (p', Ret tt) →
  UndeterminedEvents p' = map (λ m, Event.Hash (ToEvent m)) (Frame.Events frame)
  ∧ SigPool p'
    = SigPool p ++ concat (map (λ m, Event.BlockSignatures (ToEvent m)) (Frame.Events frame))
  ∧ topologicalIndex p' = int64 (Z.of_nat (length (Frame.Events frame)))
  ∧ AnchorBlock p' = None
  ∧ Participants p' = Participants p
  ∧ roundCache p' = ∅
  ∧ timestampCache p' = timestampCache p
  ∧ rootsByParticipant (Store p')
    = foldl (λ acc pr, <[Peer.PubKeyHex pr.1 := pr.2]> acc) ∅
        (zip (ToPeerSlice (Participants p)) (Frame.Roots frame))
  ∧ roundReceivedCache (Store p') = ∅
  ∧ frameCache (Store p') = frameCache (Store p)
  ∧ GetBlock (Store p') (Block.Index block) = (block, None)
  ∧ (∀ i, i ≠ Block.Index block → GetBlock (Store p') i = GetBlock (Store p) i)
  ∧ lastBlock (Store p') = Z.max (-1) (Block.Index block).
Proof.
  unfold Reset.
  destruct (_ <? _)%nat; [done|].
  destruct (StoreReset _ _) as [s [e|]] eqn:Hreset; [done|].
  pose proof (StoreReset_keyed _ _ _ _ Hreset) as Hk.
  unfold StoreReset in Hreset. destruct (pecReset _) as [c e]. injection Hreset as <- _.
  rewrite SetBlock_total.
  intros Hrun.
  apply insertAll_accepted in Hrun as (C1 & C2 & C3 & C4 & C5 & C6 & C7 & C8).
  2:{ destruct Hk as [K1 K2]. split; simpl; intros *; by rewrite lookup_empty. }
  destruct C8 as (D1 & D2 & D3 & D4 & D5 & D6). simpl in *.
  unfold GetBlock.
  rewrite C1, C2, C4, C5, C6, C7, D1, D2, D3, D4, D5.
  do 2 (split; [done|]). split.
  { rewrite C3. by destruct (Frame.Events frame). }
  do 7 (split; [done|]).
  split; [by rewrite lookup_insert_eq|].
  split; [intros i Hne; by rewrite lookup_insert_ne|].
  destruct (Z.gtb_spec (Block.Index block) (-1)); lia.
Qed.

End ResetFacts.

(** The reset of the poset of the three leaves from the frame of round 1. *)
Lemma Reset_restarts_witness :
  UndeterminedEvents (restarted leafPoset 1)
  = map (λ m, Event.Hash (@ToEvent specEnv m)) (Frame.Events (madeFrame leafPoset 1))
  ∧ SigPool (restarted leafPoset 1)
    = SigPool (framed leafPoset 1)
      ++ concat (map (λ m, Event.BlockSignatures (@ToEvent specEnv m))
                   (Frame.Events (madeFrame leafPoset 1)))
  ∧ topologicalIndex (restarted leafPoset 1)
    = int64 (Z.of_nat (length (Frame.Events (madeFrame leafPoset 1))))
  ∧ AnchorBlock (restarted leafPoset 1) = None
  ∧ Participants (restarted leafPoset 1) = Participants (framed leafPoset 1)
  ∧ roundCache (restarted leafPoset 1) = ∅
  ∧ timestampCache (restarted leafPoset 1) = timestampCache (framed leafPoset 1)
  ∧ rootsByParticipant (Store (restarted leafPoset 1))
    = foldl (λ acc pr, <[Peer.PubKeyHex pr.1 := pr.2]> acc) ∅
        (zip (@ToPeerSlice specEnv (Participants (framed leafPoset 1)))
           (Frame.Roots (madeFrame leafPoset 1)))
  ∧ roundReceivedCache (Store (restarted leafPoset 1)) = ∅
  ∧ frameCache (Store (restarted leafPoset 1)) = frameCache (Store (framed leafPoset 1))
  ∧ @GetBlock specEnv (Store (restarted leafPoset 1)) (Block.Index blockOne)
    = (blockOne, None)
  ∧ (∀ i, i ≠ Block.Index blockOne →
          @GetBlock specEnv (Store (restarted leafPoset 1)) i
          = @GetBlock specEnv (Store (framed leafPoset 1)) i)
  ∧ lastBlock (Store (restarted leafPoset 1)) = Z.max (-1) (Block.Index blockOne).
Proof.
  apply (@Reset_restarts specEnv 10 (framed leafPoset 1) (restarted leafPoset 1) blockOne
           (madeFrame leafPoset 1)).
  unfold restarted. apply pair_snd_eq. vm_compute. reflexivity.
Defined.

(** ** The anchor block and its frame *)

Section AnchorFrame.
Context `{Env}.

(** X14: when [GetAnchorBlockWithFrame] returns a block and a frame, the
    block is the one the store holds under the index of the anchor, and the
    frame is in the frame cache under the round received of that block
    afterwards, made on the way if the store did not have it.  The anchor
    and the blocks are as before, and a second call returns the same block
    and frame and changes nothing. *)
Theorem GetAnchorBlockWithFrame_consistent (fuel : nat) (p p' : Poset) (block : Block.t)
    (frame : Frame.t) :
  GetAnchorBlockWithFrame fuel p = (p', Ret (block, frame)) →
  ∃ a, AnchorBlock p = Some a
       ∧ blockCache (Store p) !! a = Some block
       ∧ frameCache (Store p') !! Block.RoundReceived block = Some frame
       ∧ AnchorBlock p' = AnchorBlock p
       ∧ blockCache (Store p') = blockCache (Store p)
       ∧ ∀ fuel', GetAnchorBlockWithFrame fuel' p' = (p', Ret (block, frame)).
Proof.
  unfold GetAnchorBlockWithFrame.
  destruct (AnchorBlock p) as [a|] eqn:Ha; [|done].
  unfold GetBlock. destruct (blockCache (Store p) !! a) as [b|] eqn:Hb; [|done].
  destruct (PosetGetFrame fuel p (Block.RoundReceived b)) as [p1 r1] eqn:Hget.
  destruct r1 as [f|e|]; [|done..]. intros [= <- <- <-].
  exists a. split; [done|]. split; [done|].
  assert (frameCache (Store p1) !! Block.RoundReceived b = Some f
          ∧ AnchorBlock p1 = AnchorBlock p
          ∧ blockCache (Store p1) = blockCache (Store p)) as (Hf & Hanchor & Hblocks).
  { revert Hget. unfold PosetGetFrame, GetFrame.
    destruct (frameCache (Store p) !! Block.RoundReceived b) as [f0|] eqn:Hf0; simpl.
    - by intros [= <- <-].
    - intros Hmake. apply MakeFrame_stored in Hmake as (_ & _ & _ & _ & ->). simpl.
      split; [apply lookup_insert_eq|done]. }
  split; [done|]. split; [congruence|]. split; [done|].
  intros fuel'. rewrite Hanchor, Ha. unfold GetBlock. rewrite Hblocks, Hb.
  unfold PosetGetFrame, GetFrame. by rewrite Hf.
Qed.

End AnchorFrame.

(** The anchor block of round 1 of the three leaves; its frame is made by
    the call. *)
Lemma GetAnchorBlockWithFrame_consistent_witness :
  ∃ a, AnchorBlock anchoredPoset = Some a
       ∧ blockCache (Store anchoredPoset) !! a = Some blockOne
       ∧ frameCache (Store anchorRead) !! Block.RoundReceived blockOne
         = Some (madeFrame leafPoset 1)
       ∧ AnchorBlock anchorRead = AnchorBlock anchoredPoset
       ∧ blockCache (Store anchorRead) = blockCache (Store anchoredPoset)
       ∧ ∀ fuel', @GetAnchorBlockWithFrame specEnv fuel' anchorRead
                  = (anchorRead, Ret (blockOne, madeFrame leafPoset 1)).
Proof.
  apply (@GetAnchorBlockWithFrame_consistent specEnv 10 anchoredPoset anchorRead blockOne
           (madeFrame leafPoset 1)).
  unfold anchorRead. apply pair_snd_eq. vm_compute. reflexivity.
Defined.

(** ** The clotho check *)

Section ClothoRaise.
Context `{Env}.

Lemma clothosRaised_refl e s : clothosRaised e s s.
Proof.
  split; [|done]. intros h x Hx. exists x. split; [done|by left].
Qed.

Lemma clothosRaised_same e s s' :
  eventCache s' = eventCache s → timeTableCache s' = timeTableCache s →
  clothoCheckCache s' = clothoCheckCache s →
  clothoCheckCreatorCache s' = clothoCheckCreatorCache s →
  clothosRaised e s s'.
Proof.
  intros He Ht Hc Hcc. unfold clothosRaised, entryFor. rewrite He, Ht, Hc, Hcc.
  split; [|done]. intros h x Hx. exists x. split; [done|by left].
Qed.

Lemma clothosRaised_trans e s1 s2 s3 :
  clothosRaised e s1 s2 → clothosRaised e s2 s3 → clothosRaised e s1 s3.
Proof.
  intros (A1 & A2 & A3 & A4 & A5 & A6) (B1 & B2 & B3 & B4 & B5 & B6).
  split; [|split; [|split; [|split; [|split]]]].
  - intros h x Hx. destruct (A1 h x Hx) as (x2 & Hx2 & Hc2).
    destruct (B1 h x2 Hx2) as (x3 & Hx3 & Hc3). exists x3. split; [done|].
    destruct Hc2 as [->|(Hf & -> & Hent)]; [exact Hc3|].
    right. destruct Hc3 as [->|(Hf3 & _)]; [|done].
    split; [done|]. split; [done|]. by apply B4.
  - intros h Hn. by apply B2, A2.
  - intros k Hk. by rewrite B3, A3.
  - intros h Hent. by apply B4, A4.
  - by rewrite B5.
  - by rewrite B6.
Qed.

Lemma AddTimeTable_raised (e : Event.t) (s : InmemStore) (h : Z) :
  clothosRaised e s (AddTimeTable s (Event.Hash e) h (Event.LamportTimestamp e)).1
  ∧ entryFor e (AddTimeTable s (Event.Hash e) h (Event.LamportTimestamp e)).1 h.
Proof.
  unfold AddTimeTable, clothosRaised, entryFor. simpl.
  split; [split; [|split; [|split; [|split; [|split]]]]|].
  - intros k x Hx. exists x. split; [done|by left].
  - done.
  - intros k Hk. by rewrite lookup_insert_ne.
  - intros k (tt & Htt & Hk). rewrite Htt. simpl.
    eexists. split; [apply lookup_insert_eq|].
    destruct (decide (k = h)) as [->|Hne]; [apply lookup_insert_eq|].
    by rewrite lookup_insert_ne.
  - done.
  - done.
  - eexists. split; [apply lookup_insert_eq|]. apply lookup_insert_eq.
Qed.

Lemma ccPromote_raised (superMajority : Z) (e : Event.t) (frame : Z)
    (s s' : InmemStore) (kv : Z * Z) r :
  ccPromote superMajority e frame s kv = (s', r) →
  storeKeyed s →
  storeKeyed s' ∧ clothosRaised e s s'.
Proof.
  destruct kv as [key val]. unfold ccPromote, GetClothoCheck, GetEventBlock.
  intros Hrun [Hk Hkc].
  destruct (uint64 val >=? superMajority);
    [|injection Hrun as <- <-; split; [done|apply clothosRaised_refl]].
  destruct (clothoCheckCache s !! (frame, key)) as [rootKey|] eqn:Hck;
    [|injection Hrun as <- <-; split; [done|apply clothosRaised_refl]].
  destruct (eventCache s !! rootKey) as [root|] eqn:Hroot;
    [|injection Hrun as <- <-; split; [done|apply clothosRaised_refl]].
  assert (Event.Hash root = rootKey) as Hkey by (by apply Hk).
  destruct (Event.Clotho root) eqn:Hcl; simpl in Hrun.
  - injection Hrun as <- <-. split; [|apply AddTimeTable_raised].
    split; [exact Hk|exact Hkc].
  - destruct (SetEvent s (Event.withClotho root true)) as [s1 [e1|]] eqn:Hset.
    + exfalso. revert Hset. unfold SetEvent, GetEventBlock. simpl.
      change (Event.Hash (Event.withClotho root true)) with (Event.Hash root).
      rewrite Hkey, Hroot. done.
    + revert Hset. unfold SetEvent, GetEventBlock.
      change (Event.Hash (Event.withClotho root true)) with (Event.Hash root).
      rewrite Hkey, Hroot. simpl. intros [= <-].
      injection Hrun as <- <-.
      set (s1 := withEventCache s (<[rootKey := Event.withClotho root true]> (eventCache s))).
      change (Event.Hash (Event.withClotho root true)) with (Event.Hash root).
      rewrite Hkey.
      destruct (AddTimeTable_raised e s1 rootKey) as [Hadd Hent].
      split.
      * split; simpl; [|exact Hkc]. intros h x.
        destruct (decide (h = rootKey)) as [->|Hne].
        -- rewrite lookup_insert_eq. by intros [= <-].
        -- rewrite lookup_insert_ne by done. apply Hk.
      * destruct Hadd as (A1 & A2 & A3 & A4 & A5 & A6).
        split; [|split; [|split; [|split; [|split]]]].
        -- intros h x Hx. destruct (decide (h = rootKey)) as [->|Hne].
           ++ exists (Event.withClotho root true). simpl.
              split; [apply lookup_insert_eq|]. right.
              rewrite Hroot in Hx. injection Hx as <-. done.
           ++ exists x. simpl. split; [by rewrite lookup_insert_ne|by left].
        -- intros h Hn. simpl. rewrite lookup_insert_ne; [done|]. congruence.
        -- exact A3.
        -- exact A4.
        -- exact A5.
        -- exact A6.
Qed.

(** X15: [ClothoChecking] for a root [e] loses and adds no event; the one
    thing it changes in a stored event is the clotho flag, which it raises
    and never lowers, and every event it makes a clotho gets the Lamport
    timestamp of [e] in the time table of [e].  The time tables of the other
    events and the clotho-check index stay as they were. *)
Theorem ClothoChecking_raises_flags (p p' : Poset) (e : Event.t) (r : outcome unit) :
  storeKeyed (Store p) →
  ClothoChecking p e = (p', r) →
  p' = withStore p (Store p')
  ∧ (∀ h x, eventCache (Store p) !! h = Some x →
            ∃ x', eventCache (Store p') !! h = Some x'
                  ∧ (x' = x
                     ∨ (Event.Clotho x = false ∧ x' = Event.withClotho x true
                        ∧ entryFor e (Store p') h)))
  ∧ (∀ h, eventCache (Store p) !! h = None → eventCache (Store p') !! h = None)
  ∧ (∀ k, k ≠ Event.Hash e →
          timeTableCache (Store p') !! k = timeTableCache (Store p) !! k)
  ∧ clothoCheckCache (Store p') = clothoCheckCache (Store p)
  ∧ clothoCheckCreatorCache (Store p') = clothoCheckCreatorCache (Store p).
Proof.
  intros Hk Hrun.
  assert (∃ s, p' = withStore p s) as [s0 Hp'] by (by eapply ClothoChecking_store).
  split; [rewrite Hp'; reflexivity|].
  assert (storeKeyed (Store p') ∧ clothosRaised e (Store p) (Store p')) as [_ HR].
  { clear Hp'. revert Hrun. unfold ClothoChecking.
    destruct (Event.GetRootTable e) as [rootTable [e'|]];
      [intros [= <- _]; split; [done|apply clothosRaised_refl]|].
    destruct (forEach (ccLevel1 (Store p)) _ _) as [ccList rc].
    destruct rc as [[]|e'|];
      try (intros [= <- _]; split; [done|apply clothosRaised_refl]).
    destruct (forEach _ (range ccList) (Store p)) as [s r'] eqn:Hloop.
    intros [= <- _]. simpl.
    revert Hloop Hk.
    apply (forEach_rel (λ s s', storeKeyed s → storeKeyed s' ∧ clothosRaised e s s')).
    - intros st Hst. split; [done|apply clothosRaised_refl].
    - intros s1 s2 s3 H12 H23 H1. destruct (H12 H1) as [H2 R12].
      destruct (H23 H2) as [H3 R23]. split; [done|by eapply clothosRaised_trans].
    - intros st fm st' r1.
      apply (forEach_rel (λ s s', storeKeyed s → storeKeyed s' ∧ clothosRaised e s s')).
      + intros st0 Hst. split; [done|apply clothosRaised_refl].
      + intros s1 s2 s3 H12 H23 H1. destruct (H12 H1) as [H2 R12].
        destruct (H23 H2) as [H3 R23]. split; [done|by eapply clothosRaised_trans].
      + intros st1 kv st1' r2 Hstep Hst1. by eapply ccPromote_raised. }
  destruct HR as (A1 & A2 & A3 & _ & A5 & A6). done.
Qed.

End ClothoRaise.

Lemma clothoStore_keyed : @storeKeyed specEnv clothoStore.
Proof.
  split.
  - intros h e. apply (map_Forall_lookup_1 (λ h e, Event.Hash e = h) _ h e).
    apply (bool_decide_eq_true_1 (map_Forall (λ h e, Event.Hash e = h) (eventCache clothoStore))).
    vm_compute. reflexivity.
  - intros f h v.
    apply (map_Forall_lookup_1 (λ k v, v = k.2) _ (f, h) v).
    apply (bool_decide_eq_true_1 (map_Forall (λ k v, v = k.2) (clothoCheckCache clothoStore))).
    vm_compute. reflexivity.
Qed.

(** The clotho check for A's root of frame 4, which sees the three roots of
    frame 1 through the roots of frames 3 and 2. *)
Lemma ClothoChecking_raises_flags_witness :
  checked = @withStore specEnv clothoPoset (Store checked)
  ∧ (∀ h x, eventCache (Store clothoPoset) !! h = Some x →
            ∃ x', eventCache (Store checked) !! h = Some x'
                  ∧ (x' = x
                     ∨ (Event.Clotho x = false ∧ x' = Event.withClotho x true
                        ∧ @entryFor specEnv evA4 (Store checked) h)))
  ∧ (∀ h, eventCache (Store clothoPoset) !! h = None →
          eventCache (Store checked) !! h = None)
  ∧ (∀ k, k ≠ Event.Hash evA4 →
          timeTableCache (Store checked) !! k = timeTableCache (Store clothoPoset) !! k)
  ∧ clothoCheckCache (Store checked) = clothoCheckCache (Store clothoPoset)
  ∧ clothoCheckCreatorCache (Store checked) = clothoCheckCreatorCache (Store clothoPoset).
Proof.
  apply (@ClothoChecking_raises_flags specEnv clothoPoset checked evA4
           (@ClothoChecking specEnv clothoPoset evA4).2 clothoStore_keyed).
  unfold checked. apply surjective_pairing.
Defined.

(** In that check the three roots of frame 1 become clothos, with the
    Lamport timestamp 8 of the checking root in its time table. *)
Example ClothoChecking_scenario :
  (@ClothoChecking specEnv clothoPoset evA4).2 = Ret tt
  ∧ map (λ h, Event.Clotho <$> eventCache (Store clothoPoset) !! h) [11; 12; 13; 21]
    = [Some false; Some false; Some false; Some false]
  ∧ map (λ h, Event.Clotho <$> eventCache (Store checked) !! h) [11; 12; 13; 21]
    = [Some true; Some true; Some true; Some false]
  ∧ timeTableCache (Store checked) !! 41 = Some {[ 11 := 8; 12 := 8; 13 := 8 ]}.
Proof. vm_compute. repeat (split; [reflexivity|]). reflexivity. Qed.

(** ** The errors of the atropos time selection *)

Section SelectionErrors.
Context `{Env}.

Lemma forEach_Fail_inv {S X : Type} (body : S → X → S * outcome unit) (l : list X)
    (s s' : S) (e : error) :
  forEach body l s = (s', Fail e) →
  ∃ x s0, x ∈ l ∧ body s0 x = (s', Fail e).
Proof.
  revert s. induction l as [|x l IH]; intros s; simpl; [done|].
  destruct (body s x) as [s1 [[]|e1|]] eqn:Hb.
  - intros Hrun. destruct (IH _ Hrun) as (y & s0 & Hy & Hb0).
    exists y, s0. split; [by right|done].
  - intros [= <- <-]. exists x, s. split; [by left|done].
  - done.
Qed.

Lemma forEach_collectVotes_ok (s : InmemStore) (l : list (Z * Z)) (cm : gmap Z (gmap Z Z)) :
  (∀ kv, kv ∈ l → is_Some (timeTableCache s !! kv.1)) →
  ∃ cm', forEach (collectVotes s) l cm = (cm', Ret tt).
Proof.
  revert cm. induction l as [|[k v] l IH]; intros cm Hall; simpl; [by eexists|].
  unfold GetTimeTable. destruct (Hall (k, v)) as [tt Htt]; [by left|].
  simpl in Htt. rewrite Htt. apply IH. intros kv Hkv. apply Hall. by right.
Qed.

(** X16: [AtroposTimeSelection] returns an error only before it changes
    anything: the error of reading the root table of [e], or the key-not-found
    error of the time table of a root that the root table names.  When the
    root table is readable and every root it names has a time table, there
    is no error. *)
Theorem AtroposTimeSelection_errors (fuel : nat) (p : Poset) (e : Event.t) :
  (∀ p' err, AtroposTimeSelection fuel p e = (p', Fail err) →
     p' = p
     ∧ ((Event.GetRootTable e).2 = Some err
        ∨ ((Event.GetRootTable e).2 = None
           ∧ err = StoreErr "GetTimeTableCache" KeyNotFound
           ∧ ∃ k, is_Some ((Event.GetRootTable e).1 !! k)
                  ∧ timeTableCache (Store p) !! k = None)))
  ∧ ((Event.GetRootTable e).2 = None →
     (∀ k, is_Some ((Event.GetRootTable e).1 !! k) →
           is_Some (timeTableCache (Store p) !! k)) →
     ∀ p' err, AtroposTimeSelection fuel p e ≠ (p', Fail err)).
Proof.
  split.
  - intros p' err Hrun.
    split; [by eapply AtroposTimeSelection_Fail|].
    revert Hrun. unfold AtroposTimeSelection.
    destruct (Event.GetRootTable e) as [rootTable [e1|]]; simpl; [intros [= _ <-]; by left|].
    destruct (forEach (collectVotes (Store p)) _ _) as [countMap [[]|e2|]] eqn:Hvotes.
    + intros Hrun. exfalso. revert Hrun. apply forEach_noFail.
      intros s kv s' e'. apply atroposStep_noFail.
    + intros [= _ <-]. right. split; [done|].
      apply forEach_Fail_inv in Hvotes as ([k v] & cm & Hin & Hbody).
      apply range_lookup in Hin.
      revert Hbody. unfold collectVotes, GetTimeTable.
      destruct (timeTableCache (Store p) !! k) as [tt|] eqn:Htt; [done|].
      intros [= _ <-]. split; [done|]. exists k. split; [by exists v|done].
    + done.
  - intros Hread Hall p' err. unfold AtroposTimeSelection.
    destruct (Event.GetRootTable e) as [rootTable [e1|]]; simpl in *; [done|].
    destruct (forEach_collectVotes_ok (Store p) (range rootTable) NewCountMap) as [cm ->].
    { intros [k v] Hin. apply range_lookup in Hin. apply Hall. by exists v. }
    apply forEach_noFail. intros s kv s' e'. apply atroposStep_noFail.
Qed.

End SelectionErrors.

(** The root table of [evA8] names the root 504, which has no time table. *)
Example AtroposTimeSelection_missing_table :
  (@AtroposTimeSelection specEnv 10 demoPoset evA8).2
  = Fail (StoreErr "GetTimeTableCache" KeyNotFound).
Proof. vm_compute. reflexivity. Qed.

(** ** The assignment of atropos times *)

Section AssignTimes.
Context `{Env}.

Lemma timed_refl frame x : timed frame x x.
Proof. split; [by destruct x|]. split; by left. Qed.

Lemma timed_trans frame x y z : timed frame x y → timed frame y z → timed frame x z.
Proof.
  intros (E1 & F1 & T1) (E2 & F2 & T2). split; [|split].
  - rewrite E2 at 1. rewrite E1. reflexivity.
  - destruct F1 as [F1|[F1 F1']]; destruct F2 as [F2|[F2 F2']].
    + left. congruence.
    + right. split; congruence.
    + right. split; congruence.
    + right. split; congruence.
  - destruct T1 as [T1|T1]; [|by right].
    destruct T2 as [T2|T2]; [left|right]; congruence.
Qed.

Lemma timesAssigned_refl frame s : timesAssigned frame s s.
Proof.
  split; [|done]. intros h x Hx. exists x. split; [done|apply timed_refl].
Qed.

Lemma timesAssigned_trans frame s1 s2 s3 :
  timesAssigned frame s1 s2 → timesAssigned frame s2 s3 → timesAssigned frame s1 s3.
Proof.
  intros (A1 & A2 & A3 & A4) (B1 & B2 & B3 & B4). split; [|split; [|split]].
  - intros h x Hx. destruct (A1 h x Hx) as (y & Hy & Hxy).
    destruct (B1 h y Hy) as (z & Hz & Hyz). exists z. split; [done|].
    by eapply timed_trans.
  - intros h Hn. by apply B2, A2.
  - by rewrite B3.
  - by rewrite B4.
Qed.

Lemma timesAssigned_same frame s s' :
  eventCache s' = eventCache s → clothoCheckCache s' = clothoCheckCache s →
  timeTableCache s' = timeTableCache s → timesAssigned frame s s'.
Proof.
  intros He Hc Ht. unfold timesAssigned. rewrite He, Hc, Ht.
  split; [|done]. intros h x Hx. exists x. split; [done|apply timed_refl].
Qed.

Lemma accountEvent_events (p p' : Poset) (ev : Event.t) r :
  accountEvent p ev = (p', r) →
  eventCache (Store p') = eventCache (Store p)
  ∧ clothoCheckCache (Store p') = clothoCheckCache (Store p)
  ∧ timeTableCache (Store p') = timeTableCache (Store p).
Proof.
  unfold accountEvent.
  destruct (AddConsensusEvent _ ev) as [s err] eqn:Hadd.
  assert (eventCache s = eventCache (Store p)
          ∧ clothoCheckCache s = clothoCheckCache (Store p)
          ∧ timeTableCache s = timeTableCache (Store p)) as (He & Hc & Ht).
  { unfold AddConsensusEvent in Hadd.
    destruct (riSet _ _ _) as [c [e|]]; injection Hadd as <- <-;
      destruct (IsLoaded ev); done. }
  destruct err as [e|]; intros [= <- _]; done.
Qed.

Lemma timeStep_trans frame s1 s2 s3 :
  timeStep frame s1 s2 → timeStep frame s2 s3 → timeStep frame s1 s3.
Proof. intros [_ A] [K B]. split; [done|by eapply timesAssigned_trans]. Qed.

(** The write back of a parent that was read from the store [s0] into a
    store reached from it. *)
Lemma writeBack_timed (frame : Z) (s0 s : InmemStore) (x x2 : Event.t) :
  timeStep frame s0 s →
  eventCache s0 !! Event.Hash x = Some x →
  timed frame x x2 →
  SetEvent s x2 = (withEventCache s (<[Event.Hash x := x2]> (eventCache s)), None)
  ∧ timeStep frame s0 (withEventCache s (<[Event.Hash x := x2]> (eventCache s))).
Proof.
  intros [[Hk Hkc] (A1 & A2 & A3 & A4)] Hx Ht.
  assert (Event.Hash x2 = Event.Hash x) as Hh by (destruct Ht as [-> _]; done).
  destruct (A1 _ _ Hx) as (xc & Hxc & _).
  split.
  - unfold SetEvent, GetEventBlock. rewrite Hh, Hxc. simpl. reflexivity.
  - split; [split|split; [|split; [|split]]]; simpl.
    + intros h e. destruct (decide (h = Event.Hash x)) as [->|Hne].
      * rewrite lookup_insert_eq. by intros [= <-].
      * rewrite lookup_insert_ne by done. apply Hk.
    + exact Hkc.
    + intros h y Hy. destruct (decide (h = Event.Hash x)) as [->|Hne].
      * exists x2. split; [apply lookup_insert_eq|]. rewrite Hx in Hy. by injection Hy as <-.
      * rewrite lookup_insert_ne by done. by apply A1.
    + intros h Hn. rewrite lookup_insert_ne; [by apply A2|]. congruence.
    + exact A3.
    + exact A4.
Qed.

Lemma followParent_timed (recurse : Poset → Event.t → Z → Poset * outcome Z) (frame : Z) :
  (∀ p e p' r, recurse p e frame = (p', r) → storeKeyed (Store p) →
               timeStep frame (Store p) (Store p')) →
  ∀ p parent p' r,
    followParent recurse p parent frame = (p', r) →
    storeKeyed (Store p) →
    eventCache (Store p) !! Event.Hash parent = Some parent →
    timeStep frame (Store p) (Store p').
Proof.
  intros Hrec p parent p' r Hrun Hk Hparent.
  assert (timeStep frame (Store p) (Store p)) as Hrefl
    by (split; [done|apply timesAssigned_refl]).
  unfold followParent in Hrun.
  set (pf := if Event.FrameReceived parent =? 0
             then (Event.withFrameReceived parent frame, true)
             else (parent, false)) in Hrun.
  assert (timed frame parent pf.1) as Ht1.
  { subst pf. destruct (Z.eqb_spec (Event.FrameReceived parent) 0) as [Hz|Hnz]; simpl.
    - split; [by destruct parent|]. split; [right|left]; done.
    - apply timed_refl. }
  destruct pf as [parent1 follow1]. simpl in Ht1.
  assert (Hwrite : ∀ q parent2 q' r',
             timeStep frame (Store p) (Store q) → timed frame parent parent2 →
             match SetEvent (Store q) parent2 with
             | (s, Some _) => (withStore q s, Abort)
             | (s, None) => (withStore q s, Ret parent2)
             end = (q', r') →
             timeStep frame (Store p) (Store q')).
  { intros q parent2 q' r' HS Ht2 Hset.
    destruct (writeBack_timed frame (Store p) (Store q) parent parent2 HS Hparent Ht2)
      as [Heq HS2].
    rewrite Heq in Hset. injection Hset as <- <-. exact HS2. }
  destruct (Z.eqb_spec (Event.AtroposTimestamp parent1) 0) as [Hat|Hat].
  - destruct (recurse p parent1 frame) as [p1 r1] eqn:Hr1.
    pose proof (Hrec _ _ _ _ Hr1 Hk) as HS1.
    destruct r1 as [atroposTime|e|]; try (injection Hrun as <- <-; exact HS1).
    destruct (accountEvent p1 _) as [p2 r2] eqn:Hacc.
    apply accountEvent_events in Hacc as (He & Hc & Htt).
    assert (timeStep frame (Store p) (Store p2)) as HS2.
    { eapply timeStep_trans; [exact HS1|]. split.
      - destruct HS1 as [[K1 K2] _]. split; [by rewrite He|by rewrite Hc].
      - by apply timesAssigned_same. }
    destruct r2 as [[]|e|]; try (injection Hrun as <- <-; exact HS2).
    eapply Hwrite; [exact HS2 | | exact Hrun].
    eapply timed_trans; [exact Ht1|].
    split; [by destruct parent1|]. split; [by left|by right].
  - destruct follow1.
    + eapply Hwrite; [exact Hrefl | exact Ht1 | exact Hrun].
    + injection Hrun as <- <-. exact Hrefl.
Qed.

Lemma AssignAtroposTime2_timed (fuel : nat) (frame : Z) :
  ∀ p e p' r, AssignAtroposTime2 fuel p e frame = (p', r) → storeKeyed (Store p) →
              timeStep frame (Store p) (Store p').
Proof.
  induction fuel as [|fuel IH]; intros p e p' r Hrun Hk; simpl in Hrun.
  - injection Hrun as <- <-. split; [done|apply timesAssigned_refl].
  - assert (Hsecond : ∀ p1 q r',
       storeKeyed (Store p1) →
       (let '(otherParent, otherErr) := GetEventBlock (Store p1) (Event.OtherParent e) in
        match otherErr with
        | None =>
            match followParent (AssignAtroposTime2 fuel) p1 otherParent frame with
            | (p2, Ret otherParent') => (p2, Ret (Event.LamportTimestamp otherParent'))
            | (p2, Fail e') => (p2, Fail e')
            | (p2, Abort) => (p2, Abort)
            end
        | Some _ => (p1, Ret (Event.LamportTimestamp e))
        end) = (q, r') →
       timeStep frame (Store p1) (Store q)).
    { intros p1 q r' Hk1 Hq. unfold GetEventBlock in Hq.
      destruct (eventCache (Store p1) !! Event.OtherParent e) as [op|] eqn:Hop.
      - destruct (followParent _ p1 op frame) as [q2 rq] eqn:Hf.
        assert (timeStep frame (Store p1) (Store q2)) as HSq.
        { eapply followParent_timed; [exact IH | exact Hf | exact Hk1 |].
          rewrite (proj1 Hk1 _ _ Hop). exact Hop. }
        destruct rq; injection Hq as <- <-; exact HSq.
      - injection Hq as <- <-. split; [done|apply timesAssigned_refl]. }
    unfold GetEventBlock in Hrun at 1.
    destruct (eventCache (Store p) !! Event.SelfParent e) as [sp|] eqn:Hsp.
    + destruct (followParent _ p sp frame) as [q rq] eqn:Hf.
      assert (timeStep frame (Store p) (Store q)) as HSq.
      { eapply followParent_timed; [exact IH | exact Hf | exact Hk |].
        rewrite (proj1 Hk _ _ Hsp). exact Hsp. }
      destruct rq as [x|e1|]; try (injection Hrun as <- <-; exact HSq).
      eapply timeStep_trans; [exact HSq|].
      eapply Hsecond; [apply HSq | exact Hrun].
    + eapply Hsecond; [exact Hk | exact Hrun].
Qed.

(** X17: [AssignAtroposTime2] adds and loses no event and changes nothing
    in a stored event but the frame received and the atropos timestamp: it
    sets a frame received only where it was 0, to its frame argument, and an
    atropos timestamp only where it was 0.  The clotho-check index and the
    time tables stay as they were. *)
Theorem AssignAtroposTime2_sets_unset_times (fuel : nat) (p p' : Poset) (e : Event.t)
    (frame : Z) (r : outcome Z) :
  storeKeyed (Store p) →
  AssignAtroposTime2 fuel p e frame = (p', r) →
  (∀ h x, eventCache (Store p) !! h = Some x →
          ∃ x', eventCache (Store p') !! h = Some x'
                ∧ x' = Event.withAtroposTimestamp
                         (Event.withFrameReceived x (Event.FrameReceived x'))
                         (Event.AtroposTimestamp x')
                ∧ (Event.FrameReceived x' = Event.FrameReceived x
                   ∨ (Event.FrameReceived x = 0 ∧ Event.FrameReceived x' = frame))
                ∧ (Event.AtroposTimestamp x' = Event.AtroposTimestamp x
                   ∨ Event.AtroposTimestamp x = 0))
  ∧ (∀ h, eventCache (Store p) !! h = None → eventCache (Store p') !! h = None)
  ∧ clothoCheckCache (Store p') = clothoCheckCache (Store p)
  ∧ timeTableCache (Store p') = timeTableCache (Store p).
Proof.
  intros Hk Hrun.
  destruct (AssignAtroposTime2_timed _ _ _ _ _ _ Hrun Hk) as [_ HT]. exact HT.
Qed.

End AssignTimes.

(** The parents 300 and 200 of the clotho 400 had no frame received and no
    atropos timestamp. *)
Lemma AssignAtroposTime2_sets_unset_times_witness :
  (∀ h x, eventCache (Store demoPoset) !! h = Some x →
          ∃ x', eventCache (Store timedPoset) !! h = Some x'
                ∧ x' = Event.withAtroposTimestamp
                         (Event.withFrameReceived x (Event.FrameReceived x'))
                         (Event.AtroposTimestamp x')
                ∧ (Event.FrameReceived x' = Event.FrameReceived x
                   ∨ (Event.FrameReceived x = 0 ∧ Event.FrameReceived x' = 1))
                ∧ (Event.AtroposTimestamp x' = Event.AtroposTimestamp x
                   ∨ Event.AtroposTimestamp x = 0))
  ∧ (∀ h, eventCache (Store demoPoset) !! h = None →
          eventCache (Store timedPoset) !! h = None)
  ∧ clothoCheckCache (Store timedPoset) = clothoCheckCache (Store demoPoset)
  ∧ timeTableCache (Store timedPoset) = timeTableCache (Store demoPoset).
Proof.
  apply (@AssignAtroposTime2_sets_unset_times specEnv 10 demoPoset timedPoset evC1 1
           (@AssignAtroposTime2 specEnv 10 demoPoset evC1 1).2 demoStore_keyed).
  unfold timedPoset. apply surjective_pairing.
Defined.

Example AssignAtroposTime2_scenario :
  (@AssignAtroposTime2 specEnv 10 demoPoset evC1 1).2 = Ret 1
  ∧ map (λ h, (λ x, (Event.FrameReceived x, Event.AtroposTimestamp x))
                <$> eventCache (Store demoPoset) !! h) [300; 200; 105]
    = [Some (0, 0); Some (0, 0); Some (0, 0)]
  ∧ map (λ h, (λ x, (Event.FrameReceived x, Event.AtroposTimestamp x))
                <$> eventCache (Store timedPoset) !! h) [300; 200; 105]
    = [Some (1, 1); Some (1, 1); Some (0, 0)].
Proof. vm_compute. repeat (split; [reflexivity|]). reflexivity. Qed.

(** ** The checks before an event is accepted *)

Section Gate.
Context `{Env}.

(** X18: [InsertEvent] accepts an event only if its signature verifies, its
    self-parent is the last known event of its creator, as [LastEventFrom]
    of the store gives it, and its other-parent is empty, or in the store,
    or the other-parent that the root of the creator records for the
    event. *)
Theorem accepted_event_was_checked (fuel : nat) (p p' : Poset) (event : Event.t)
    (wire : bool) :
  InsertEvent fuel p event wire = (p', Ret tt) →
  (Verify event).1 = true
  ∧ (∃ isRoot, LastEventFrom (Store p) (Event.GetCreator event)
               = (Event.SelfParent event, isRoot, None))
  ∧ (Event.OtherParent event = 0
     ∨ is_Some (eventCache (Store p) !! Event.OtherParent event)
     ∨ ∃ root other,
         rootsByParticipant (Store p) !! Event.GetCreator event = Some root
         ∧ Root.Others root !! Event.Hash event = Some other
         ∧ RootEvent.Hash other = Event.OtherParent event).
Proof.
  unfold InsertEvent.
  destruct (prepareInsert p event wire) as [p1 [[event3 fa]|e|]] eqn:Hprep; [|done..].
  intros _. apply prepareInsert_Ret in Hprep. simpl in Hprep.
  destruct Hprep as (Hv & Hsp & Hop & _).
  split; [exact Hv|]. split.
  - revert Hsp. unfold checkSelfParent.
    destruct (LastEventFrom _ _) as [[last isRoot] [e|]]; [done|].
    case_bool_decide as Heq; [|done]. intros _. exists isRoot. by rewrite Heq.
  - revert Hop. unfold checkOtherParent, GetEventBlock, GetRoot.
    destruct (Z.eqb_spec (Event.OtherParent event) 0) as [Hz|Hnz]; simpl; [by left|].
    destruct (eventCache (Store p) !! Event.OtherParent event) as [op|];
      [intros _; right; left; by eexists|].
    destruct (rootsByParticipant (Store p) !! Event.GetCreator event) as [root|]; [|done].
    destruct (Root.Others root !! Event.Hash event) as [other|] eqn:Hother; [|done].
    destruct (Z.eqb_spec (Event.OtherParent event) (RootEvent.Hash other)) as [Heq|]; [|done].
    intros _. right. right. by exists root, other.
Qed.

(** X19: an event with a valid signature and the right self-parent whose
    other-parent is not empty, not in the store and not the other-parent
    that the root of its creator records for it is refused with the error
    "other-parent not known", and the poset is left exactly as it was. *)
Theorem unknown_other_parent_refused (fuel : nat) (p : Poset) (event : Event.t)
    (wire : bool) (root : Root.t) :
  (Verify event).1 = true →
  checkSelfParent p event = None →
  Event.OtherParent event ≠ 0 →
  eventCache (Store p) !! Event.OtherParent event = None →
  rootsByParticipant (Store p) !! Event.GetCreator event = Some root →
  (RootEvent.Hash <$> Root.Others root !! Event.Hash event)
  ≠ Some (Event.OtherParent event) →
  InsertEvent fuel p event wire
  = (p, Fail (Wrapf "CheckOtherParent: %s" (Errorf "other-parent not known"))).
Proof.
  intros Hv Hsp Hnz Hno Hroot Hother.
  unfold InsertEvent, prepareInsert.
  destruct (Verify event) as [[|] verr]; [|done]. rewrite Hsp.
  unfold checkOtherParent, GetEventBlock at 1, GetRoot. rewrite Hno, Hroot.
  destruct (Z.eqb_spec (Event.OtherParent event) 0) as [?|_]; [done|]. simpl.
  destruct (Root.Others root !! Event.Hash event) as [other|]; [|done].
  destruct (Z.eqb_spec (Event.OtherParent event) (RootEvent.Hash other)) as [Heq|]; [|done].
  exfalso. apply Hother. simpl. by rewrite Heq.
Qed.

End Gate.

(** The event 600 is accepted by the demo poset. *)
Lemma accepted_event_was_checked_witness :
  (@Verify specEnv ev600).1 = true
  ∧ (∃ isRoot, @LastEventFrom specEnv (Store demoPoset) (Event.GetCreator ev600)
               = (Event.SelfParent ev600, isRoot, None))
  ∧ (Event.OtherParent ev600 = 0
     ∨ is_Some (eventCache (Store demoPoset) !! Event.OtherParent ev600)
     ∨ ∃ root other,
         rootsByParticipant (Store demoPoset) !! Event.GetCreator ev600 = Some root
         ∧ Root.Others root !! Event.Hash ev600 = Some other
         ∧ RootEvent.Hash other = Event.OtherParent ev600).
Proof.
  apply (@accepted_event_was_checked specEnv 10 demoPoset (inserted demoPoset ev600) ev600
           false).
  unfold inserted. apply pair_snd_eq. vm_compute. reflexivity.
Defined.

(** The event 900 names the other-parent 999, which nobody knows. *)
Lemma unknown_other_parent_refused_witness :
  @InsertEvent specEnv 10 demoPoset ev900 false
  = (demoPoset, Fail (Wrapf "CheckOtherParent: %s" (Errorf "other-parent not known"))).
Proof.
  apply (@unknown_other_parent_refused specEnv 10 demoPoset ev900 false
           (specNewBaseRoot 1)).
  - vm_compute. reflexivity.
  - vm_compute. reflexivity.
  - vm_compute. discriminate.
  - vm_compute. reflexivity.
  - vm_compute. reflexivity.
  - vm_compute. discriminate.
Defined.

(** ** The in-memory store: what is written can be read *)

Section StoreRoundTrips.
Context `{Env}.

(** X20: [SetEvent] can fail only for an event whose hash is new to the
    store, and then the stored events are as before.  When it succeeds,
    [GetEventBlock] returns the event for its hash and what it returned
    before for every other hash; the overwrite of a stored event leaves the
    index of the participants' events alone. *)
Theorem SetEvent_GetEventBlock (s : InmemStore) (event : Event.t) :
  match SetEvent s event with
  | (s', None) =>
      GetEventBlock s' (Event.Hash event) = (event, None)
      ∧ (∀ h, h ≠ Event.Hash event → GetEventBlock s' h = GetEventBlock s h)
      ∧ (is_Some (eventCache s !! Event.Hash event) →
         s' = withEventCache s (<[Event.Hash event := event]> (eventCache s)))
  | (s', Some e) =>
      eventCache s !! Event.Hash event = None
      ∧ eventCache s' = eventCache s
      ∧ (pecSet (participantEventsCache s) (Event.GetCreator event) (Event.Hash event)
           (Event.Index event)).2 = Some e
  end.
Proof.
  unfold SetEvent, GetEventBlock, addParticipantEvent.
  destruct (eventCache s !! Event.Hash event) as [x0|] eqn:Hx; simpl.
  - rewrite lookup_insert_eq. split; [done|]. split; [|done].
    intros h Hne. by rewrite lookup_insert_ne.
  - destruct (pecSet _ _ _ _) as [c [e|]]; simpl.
    + done.
    + rewrite lookup_insert_eq. split; [done|]. split; [|by intros [? ?]].
      intros h Hne. by rewrite lookup_insert_ne.
Qed.

(** X21: [SetBlock] of the in-memory store never fails; afterwards
    [GetBlock] returns the block for its index and what it returned before
    for every other index, and the last block index is the larger of the
    old one and the index of the block. *)
Theorem SetBlock_GetBlock (s : InmemStore) (block : Block.t) :
  (SetBlock s block).2 = None
  ∧ GetBlock (SetBlock s block).1 (Block.Index block) = (block, None)
  ∧ (∀ i, i ≠ Block.Index block →
          GetBlock (SetBlock s block).1 i = GetBlock s i)
  ∧ lastBlock (SetBlock s block).1 = Z.max (lastBlock s) (Block.Index block)
  ∧ eventCache (SetBlock s block).1 = eventCache s
  ∧ frameCache (SetBlock s block).1 = frameCache s.
Proof.
  rewrite SetBlock_total. unfold GetBlock. simpl.
  split; [done|]. rewrite lookup_insert_eq. split; [done|]. split.
  - intros i Hne. by rewrite lookup_insert_ne.
  - split; [|done]. destruct (Z.gtb_spec (Block.Index block) (lastBlock s)); lia.
Qed.

(** X22: [AddTimeTable] adds one vote to the time table of [hashTo] and
    keeps the votes that the table had for the other hashes; a table that
    did not exist is created, and [GetTimeTable] does not fail for [hashTo]
    afterwards.  LRU eviction aside, [GetTimeTable] returns for every other
    hash what it returned before. *)
Theorem AddTimeTable_GetTimeTable (s : InmemStore) (hashTo hashFrom lamportTime : Z) :
  let s' := (AddTimeTable s hashTo hashFrom lamportTime).1 in
  (AddTimeTable s hashTo hashFrom lamportTime).2 = None
  ∧ GetTimeTable s' hashTo = (<[hashFrom := lamportTime]> (GetTimeTable s hashTo).1, None)
  ∧ (∀ k, k ≠ hashTo → GetTimeTable s' k = GetTimeTable s k)
  ∧ eventCache s' = eventCache s.
Proof.
  unfold AddTimeTable, GetTimeTable. simpl.
  split; [done|]. rewrite lookup_insert_eq. split.
  - by destruct (timeTableCache s !! hashTo).
  - split; [|done]. intros k Hne. by rewrite lookup_insert_ne.
Qed.

(** X23: after [AddClothoCheck] both indices find the root: the one by
    frame and hash and the one by frame and creator, where the root replaces
    an earlier root of the creator in that frame.  LRU eviction aside, both
    indices return for every other key what they returned before. *)
Theorem AddClothoCheck_lookup (s : InmemStore) (frame creatorID hash : Z) :
  let s' := (AddClothoCheck s frame creatorID hash).1 in
  (AddClothoCheck s frame creatorID hash).2 = None
  ∧ GetClothoCheck s' frame hash = (hash, None)
  ∧ GetClothoCreatorCheck s' frame creatorID = (hash, None)
  ∧ (∀ f h, (f, h) ≠ (frame, hash) → GetClothoCheck s' f h = GetClothoCheck s f h)
  ∧ (∀ f c, (f, c) ≠ (frame, creatorID) →
            GetClothoCreatorCheck s' f c = GetClothoCreatorCheck s f c)
  ∧ eventCache s' = eventCache s.
Proof.
  unfold AddClothoCheck, GetClothoCheck, GetClothoCreatorCheck. simpl.
  split; [done|]. rewrite !lookup_insert_eq. split; [done|]. split; [done|].
  split; [|split; [|done]].
  - intros f h Hne. by rewrite lookup_insert_ne.
  - intros f c Hne. by rewrite lookup_insert_ne.
Qed.

(** X24: [InmemStore.Reset] empties the events, the rounds, the
    clotho-check index and the time tables and takes the given roots, but it
    keeps the blocks and the frames while it puts the last block index back
    to -1; the last consensus events and their count are kept too. *)
Theorem StoreReset_keeps_blocks (s : InmemStore) (roots : gmap string Root.t) :
  let s' := (StoreReset s roots).1 in
  (∀ h, GetEventBlock s' h = (Event.zero, Some (StoreErr "EventCache" KeyNotFound)))
  ∧ (∀ h, (GetTimeTable s' h).2 = Some (StoreErr "GetTimeTableCache" KeyNotFound))
  ∧ (∀ f h, (GetClothoCheck s' f h).2 = Some (StoreErr "ClothoCheckCache" KeyNotFound))
  ∧ (∀ r, (GetRoundReceived s' r).2 = Some (StoreErr "RoundReceivedCache" KeyNotFound))
  ∧ (∀ k, GetRoot s' k = match roots !! k with
                         | Some r => (r, None)
                         | None => (Root.zero, Some (StoreErr "RootCache" KeyNotFound))
                         end)
  ∧ (∀ i, GetBlock s' i = GetBlock s i)
  ∧ (∀ i, GetFrame s' i = GetFrame s i)
  ∧ lastBlock s' = -1
  ∧ lastRound s' = -1
  ∧ (∀ k, LastConsensusEventFrom s' k
          = match lastConsensusEvents s !! k with
            | Some last => (last, false, None)
            | None =>
                match roots !! k with
                | Some root => (RootEvent.Hash (Root.SelfParent root), true, None)
                | None => (0, false, Some (StoreErr "InmemStore.Roots" NoRoot))
                end
            end)
  ∧ totConsensusEvents s' = totConsensusEvents s.
Proof.
  unfold StoreReset. destruct (pecReset _) as [c err]. simpl.
  unfold GetEventBlock, GetTimeTable, GetClothoCheck, GetRoundReceived, GetRoot, GetBlock,
    GetFrame, LastConsensusEventFrom. simpl.
  repeat split; intros *; by rewrite ?lookup_empty.
Qed.

(** X25: every entry of [RootsBySelfParent] is a root of some participant,
    under the hash of its self-parent; and for every root of a participant
    there is an entry under the hash of its self-parent. *)
Theorem RootsBySelfParent_roots (s : InmemStore) :
  (∀ h r, RootsBySelfParent s !! h = Some r →
          RootEvent.Hash (Root.SelfParent r) = h
          ∧ ∃ k, rootsByParticipant s !! k = Some r)
  ∧ (∀ k r, rootsByParticipant s !! k = Some r →
            is_Some (RootsBySelfParent s !! RootEvent.Hash (Root.SelfParent r))).
Proof.
  unfold RootsBySelfParent.
  assert (∀ l : list (string * Root.t),
            (∀ h r, foldr (λ kr acc, <[RootEvent.Hash (Root.SelfParent kr.2) := kr.2]> acc)
                      (∅ : gmap Z Root.t) l !! h = Some r →
                    RootEvent.Hash (Root.SelfParent r) = h ∧ ∃ k, (k, r) ∈ l)
            ∧ (∀ k r, (k, r) ∈ l →
                      is_Some (foldr (λ kr acc,
                                        <[RootEvent.Hash (Root.SelfParent kr.2) := kr.2]> acc)
                                 (∅ : gmap Z Root.t) l
                               !! RootEvent.Hash (Root.SelfParent r)))) as Hl.
  { induction l as [|[k0 r0] l [IH1 IH2]]; simpl.
    - split; [intros h r; by rewrite lookup_empty|].
      intros k r Hin. by apply elem_of_nil in Hin.
    - split.
      + intros h r.
        destruct (decide (h = RootEvent.Hash (Root.SelfParent r0))) as [->|Hne].
        * rewrite lookup_insert_eq. intros [= <-]. split; [done|]. exists k0. by left.
        * rewrite lookup_insert_ne by done. intros Hr.
          destruct (IH1 _ _ Hr) as [Hh [k Hk]]. split; [done|]. exists k. by right.
      + intros k r [[= -> ->]|Hin]%elem_of_cons.
        * rewrite lookup_insert_eq. by eexists.
        * destruct (decide (RootEvent.Hash (Root.SelfParent r)
                            = RootEvent.Hash (Root.SelfParent r0))) as [->|Hne].
          -- rewrite lookup_insert_eq. by eexists.
          -- rewrite lookup_insert_ne by done. by eapply IH2. }
  destruct (Hl (map_to_list (rootsByParticipant s))) as [H1 H2]. split.
  - intros h r Hr. destruct (H1 _ _ Hr) as [Hh [k Hk]]. split; [done|].
    exists k. by apply elem_of_map_to_list.
  - intros k r Hk. apply (H2 k). by apply elem_of_map_to_list.
Qed.

End StoreRoundTrips.

(** ** The counts of the clotho check *)

Section Counts.

Lemma cell_insert (m : gmap Z (gmap Z Z)) (frame hash v f h : Z) :
  cell (<[frame := <[hash := v]> (default ∅ (m !! frame))]> m) f h
  = if bool_decide ((f, h) = (frame, hash)) then Some v else cell m f h.
Proof.
  unfold cell. case_bool_decide as Heq.
  - injection Heq as -> ->. rewrite lookup_insert_eq. simpl. apply lookup_insert_eq.
  - destruct (decide (f = frame)) as [->|Hf].
    + rewrite lookup_insert_eq. simpl. rewrite lookup_insert_ne by congruence.
      by destruct (m !! frame).
    + by rewrite lookup_insert_ne.
Qed.

(** X26: [updateCcList] keeps the largest value seen for a frame and a
    hash: the entry becomes the larger of the old entry and the value, or the
    value when there was no entry, and no other entry changes. *)
Theorem updateCcList_keeps_largest (ccList : gmap Z (gmap Z Z)) (frame hash val : Z) :
  cell (updateCcList ccList frame hash val) frame hash
  = Some (match cell ccList frame hash with
          | Some cval => Z.max cval val
          | None => val
          end)
  ∧ ∀ f h, (f, h) ≠ (frame, hash) →
           cell (updateCcList ccList frame hash val) f h = cell ccList f h.
Proof.
  unfold updateCcList.
  destruct (default ∅ (ccList !! frame) !! hash) as [cval|] eqn:Hc.
  - assert (cell ccList frame hash = Some cval) as Hcell.
    { unfold cell. destruct (ccList !! frame) as [inner|]; [done|].
      simpl in Hc. by rewrite lookup_empty in Hc. }
    rewrite Hcell. destruct (Z.ltb_spec cval val) as [Hlt|Hge].
    + split.
      * rewrite cell_insert, bool_decide_eq_true_2 by done. f_equal. lia.
      * intros f h Hne. by rewrite cell_insert, bool_decide_eq_false_2.
    + assert (∀ f h, cell (<[frame := default ∅ (ccList !! frame)]> ccList) f h
                     = cell ccList f h) as Hsame.
      { intros f h. unfold cell. destruct (decide (f = frame)) as [->|Hf].
        - rewrite lookup_insert_eq. simpl. destruct (ccList !! frame) as [inner|] eqn:Hi;
            [done|]. simpl in Hc. by rewrite lookup_empty in Hc.
        - by rewrite lookup_insert_ne. }
      split; [rewrite Hsame, Hcell; f_equal; lia|]. intros f h _. apply Hsame.
  - assert (cell ccList frame hash = None) as Hcell.
    { unfold cell. by destruct (ccList !! frame) as [inner|]. }
    rewrite Hcell. split.
    + by rewrite cell_insert, bool_decide_eq_true_2.
    + intros f h Hne. by rewrite cell_insert, bool_decide_eq_false_2.
Qed.

(** X27: [incCcTemp] counts: the entry for the frame and the hash goes up
    by one, in int64, or becomes 1 when there was none, and no other entry
    changes. *)
Theorem incCcTemp_counts (ccTemp : gmap Z (gmap Z Z)) (frame hash : Z) :
  cell (incCcTemp ccTemp frame hash) frame hash
  = Some (match cell ccTemp frame hash with
          | Some v => int64 (v + 1)
          | None => 1
          end)
  ∧ ∀ f h, (f, h) ≠ (frame, hash) →
           cell (incCcTemp ccTemp frame hash) f h = cell ccTemp f h.
Proof.
  unfold incCcTemp.
  destruct (default ∅ (ccTemp !! frame) !! hash) as [v|] eqn:Hc.
  - assert (cell ccTemp frame hash = Some v) as Hcell.
    { unfold cell. destruct (ccTemp !! frame) as [inner|]; [done|].
      simpl in Hc. by rewrite lookup_empty in Hc. }
    rewrite Hcell. split.
    + by rewrite cell_insert, bool_decide_eq_true_2.
    + intros f h Hne. by rewrite cell_insert, bool_decide_eq_false_2.
  - assert (cell ccTemp frame hash = None) as Hcell.
    { unfold cell. by destruct (ccTemp !! frame) as [inner|]. }
    rewrite Hcell. split.
    + by rewrite cell_insert, bool_decide_eq_true_2.
    + intros f h Hne. by rewrite cell_insert, bool_decide_eq_false_2.
Qed.

End Counts.

(** ** The root of an event *)

Section RootOfEvent.
Context `{Env}.

Lemma cachesOnly_stamp p p' x t :
  cachesOnly p p' → timestampCache p !! x = Some t → timestampCache p' !! x = Some t.
Proof. intros (_ & S & _) Hx. by apply (lookup_weaken _ _ _ _ Hx). Qed.

Lemma cachesOnly_round p p' x t :
  cachesOnly p p' → roundCache p !! x = Some t → roundCache p' !! x = Some t.
Proof. intros (_ & _ & S) Hx. by apply (lookup_weaken _ _ _ _ Hx). Qed.

Lemma createOtherParentRootEvent_hash fuel p ev p' other :
  createOtherParentRootEvent fuel p ev = (p', Ret other) →
  RootEvent.Hash other = Event.OtherParent ev.
Proof.
  unfold createOtherParentRootEvent.
  destruct (GetRoot _ _) as [root [e|]]; [done|].
  destruct (Root.Others root !! Event.Hash ev) as [o|].
  - destruct (Z.eqb_spec (Event.OtherParent ev) (RootEvent.Hash o)) as [Heq|Hne].
    + by intros [= _ <-].
    + destruct (GetEventBlock _ _) as [op [e|]]; [done|].
      destruct (lamportTimestamp fuel p _) as [p1 [t|e|]]; [|done..].
      destruct (round fuel p1 _) as [p2 [t2|e|]]; [|done..].
      destruct (Peers.ReadByPubKey _ _); [|done]. by intros [= _ <-].
  - destruct (GetEventBlock _ _) as [op [e|]]; [done|].
    destruct (lamportTimestamp fuel p _) as [p1 [t|e|]]; [|done..].
    destruct (round fuel p1 _) as [p2 [t2|e|]]; [|done..].
    destruct (Peers.ReadByPubKey _ _); [|done]. by intros [= _ <-].
Qed.

(** X28: the root that [createRoot] makes for an event names the
    self-parent of the event, with the Lamport timestamp and the round that
    the caches hold for it afterwards, and carries the round of the event as
    its next round.  In a store that has this root for the creator of the
    event, the event passes [checkOtherParent], and it passes
    [checkSelfParent] when the creator has no event there. *)
Theorem createRoot_readmits_event (fuel : nat) (p p' : Poset) (ev : Event.t)
    (root : Root.t) :
  createRoot fuel p ev = (p', Ret root) →
  RootEvent.Hash (Root.SelfParent root) = Event.SelfParent ev
  ∧ RootEvent.Index (Root.SelfParent root) = int64 (Event.Index ev - 1)
  ∧ timestampCache p' !! Event.SelfParent ev
    = Some (RootEvent.LamportTimestamp (Root.SelfParent root))
  ∧ roundCache p' !! Event.SelfParent ev = Some (RootEvent.Round (Root.SelfParent root))
  ∧ roundCache p' !! Event.Hash ev = Some (Root.NextRound root)
  ∧ (∀ q, rootsByParticipant (Store q) !! Event.GetCreator ev = Some root →
          checkOtherParent q ev = None
          ∧ (Is (pecGetLast (participantEventsCache (Store q)) (Event.GetCreator ev)).2
               Empty = true →
             checkSelfParent q ev = None)).
Proof.
  unfold createRoot.
  destruct (round fuel p _) as [p1 [evRound|e|]] eqn:H1; [|done..].
  apply round_rounds in H1 as [R1 H1]. specialize (H1 _ eq_refl).
  destruct (createSelfParentRootEvent fuel p1 ev) as [p2 [sp|e|]] eqn:H2; [|done..].
  assert (cachesOnly p1 p2
          ∧ RootEvent.Hash sp = Event.SelfParent ev
          ∧ RootEvent.Index sp = int64 (Event.Index ev - 1)
          ∧ timestampCache p2 !! Event.SelfParent ev = Some (RootEvent.LamportTimestamp sp)
          ∧ roundCache p2 !! Event.SelfParent ev = Some (RootEvent.Round sp))
    as (C2 & Hh & Hi & Ht & Hr).
  { pose proof (createSelfParentRootEvent_caches _ _ _ _ _ H2) as C2.
    revert H2. unfold createSelfParentRootEvent.
    destruct (lamportTimestamp fuel p1 _) as [q1 [t|e|]] eqn:Hl; [|done..].
    destruct (round fuel q1 _) as [q2 [t2|e|]] eqn:Hrd; [|done..].
    destruct (Peers.ReadByPubKey _ _); [|done]. intros [= <- <-]. simpl.
    apply lamportTimestamp_stamps in Hl as [_ Hl]. specialize (Hl _ eq_refl).
    pose proof (round_caches _ _ _ _ _ Hrd) as Cq.
    apply round_rounds in Hrd as [_ Hrd]. specialize (Hrd _ eq_refl).
    split; [exact C2|]. split; [done|]. split; [done|].
    split; [by eapply cachesOnly_stamp|done]. }
  assert (roundCache p2 !! Event.Hash ev = Some evRound) as Hev
    by (by eapply cachesOnly_round).
  assert (∀ others q,
            (Event.OtherParent ev = 0
             ∨ ∃ other, others !! Event.Hash ev = Some other
                        ∧ RootEvent.Hash other = Event.OtherParent ev) →
            rootsByParticipant (Store q) !! Event.GetCreator ev
            = Some (Root.mk evRound sp others) →
            checkOtherParent q ev = None
            ∧ (Is (pecGetLast (participantEventsCache (Store q)) (Event.GetCreator ev)).2
                 Empty = true →
               checkSelfParent q ev = None)) as Hchecks.
  { intros others q Hop Hroot. split.
    - unfold checkOtherParent, GetEventBlock, GetRoot. rewrite Hroot.
      destruct (Z.eqb_spec (Event.OtherParent ev) 0) as [Hz|Hnz]; [done|]. simpl.
      destruct (eventCache (Store q) !! Event.OtherParent ev); [done|].
      destruct Hop as [?|(other & -> & Hoh)]; [done|].
      rewrite Hoh. by rewrite Z.eqb_refl.
    - intros Hempty. unfold checkSelfParent, LastEventFrom.
      destruct (pecGetLast _ _) as [last err]. simpl in Hempty.
      destruct err as [e|]; [|done]. rewrite Hempty. simpl.
      rewrite Hroot. simpl. rewrite Hh. by rewrite bool_decide_eq_true_2. }
  destruct (Z.eqb_spec (Event.OtherParent ev) 0) as [Hz|Hnz]; simpl.
  - intros [= <- <-]. simpl. do 5 (split; [done|]).
    intros q. apply Hchecks. by left.
  - destruct (createOtherParentRootEvent fuel p2 ev) as [p3 [opre|e|]] eqn:H3; [|done..].
    pose proof (createOtherParentRootEvent_caches _ _ _ _ _ H3) as C3.
    apply createOtherParentRootEvent_hash in H3.
    intros [= <- <-]. simpl. do 2 (split; [done|]).
    split; [by eapply cachesOnly_stamp|].
    split; [by eapply cachesOnly_round|].
    split; [by eapply cachesOnly_round|].
    intros q. apply Hchecks. right. exists opre. split; [apply lookup_insert_eq|done].
Qed.

End RootOfEvent.

(** The root of the clotho 400 of C, with its other-parent 200. *)
Lemma createRoot_readmits_event_witness :
  RootEvent.Hash (Root.SelfParent (rootOf demoPoset evC1)) = Event.SelfParent evC1
  ∧ RootEvent.Index (Root.SelfParent (rootOf demoPoset evC1)) = int64 (Event.Index evC1 - 1)
  ∧ timestampCache (rooted demoPoset evC1) !! Event.SelfParent evC1
    = Some (RootEvent.LamportTimestamp (Root.SelfParent (rootOf demoPoset evC1)))
  ∧ roundCache (rooted demoPoset evC1) !! Event.SelfParent evC1
    = Some (RootEvent.Round (Root.SelfParent (rootOf demoPoset evC1)))
  ∧ roundCache (rooted demoPoset evC1) !! Event.Hash evC1
    = Some (Root.NextRound (rootOf demoPoset evC1))
  ∧ (∀ q, rootsByParticipant (Store q) !! Event.GetCreator evC1
          = Some (rootOf demoPoset evC1) →
          @checkOtherParent specEnv q evC1 = None
          ∧ (Is (@pecGetLast specEnv (participantEventsCache (Store q))
                   (Event.GetCreator evC1)).2 Empty = true →
             @checkSelfParent specEnv q evC1 = None)).
Proof.
  apply (@createRoot_readmits_event specEnv 10 demoPoset (rooted demoPoset evC1) evC1
           (rootOf demoPoset evC1)).
  unfold rooted. apply pair_snd_eq. vm_compute. reflexivity.
Defined.

(** ** The state hash of a frame *)

Section StateChain.
Context `{Env}.

(** X29: the state hash of a frame that [MakeFrame] returns is what the
    state database commits for the sorted events of the round on top of the
    state of the round before: the state root of the store for round 1, and
    for a later round the state hash of the frame of the round before, which
    must be in the store. *)
Theorem MakeFrame_state_chain (fuel : nat) (p p' : Poset) (roundReceived : Z)
    (frame : Frame.t) :
  MakeFrame fuel p roundReceived = (p', Ret frame) →
  ∃ prevState hashes fetched,
    ((roundReceived = 1 ∧ prevState = StateRoot (Store p))
     ∨ (1 < roundReceived
        ∧ ∃ prev, frameCache (Store p) !! int64 (roundReceived - 1) = Some prev
                  ∧ prevState = Frame.StateHash prev))
    ∧ GetRoundReceived (Store p) roundReceived = (hashes, None)
    ∧ fetchEvents (Store p) hashes = Ret fetched
    ∧ commitState (Participants p) prevState (sortStable fetched)
      = (Frame.StateHash frame, None).
Proof.
  unfold MakeFrame.
  destruct (GetRoundReceived (Store p) roundReceived) as [hashes [e|]] eqn:Hround; [done|].
  destruct (fetchEvents (Store p) hashes) as [fetched|e|] eqn:Hfetch; [|done..].
  destruct (ApplyInternalTransactions p roundReceived _) as [stateHash [e|]] eqn:Happly; [done|].
  destruct (forEach (rootOfCreator fuel) _ _) as [[p1 roots1] [[]|e|]]; [|done..].
  destruct (forEach (rootOfPeer fuel) _ _) as [[p2 roots2] [[]|e|]]; [|done..].
  destruct (forEach (otherOfEvent fuel) _ _) as [[[p3 roots3] treated] [[]|e|]]; [|done..].
  destruct (SetFrame (Store p3) _) as [s [e|]]; [done|].
  intros [= _ <-]. simpl.
  revert Happly. unfold ApplyInternalTransactions.
  destruct (Z.leb_spec roundReceived 0) as [|Hpos]; [done|].
  destruct (Z.eqb_spec roundReceived 1) as [->|Hne].
  - intros Hc. exists (StateRoot (Store p)), hashes, fetched.
    split; [by left|]. done.
  - unfold GetFrame.
    destruct (frameCache (Store p) !! int64 (roundReceived - 1)) as [prev|] eqn:Hprev;
      [|done].
    intros Hc. exists (Frame.StateHash prev), hashes, fetched.
    split; [right; split; [lia|by exists prev]|]. done.
Qed.

(** X30: after [accountEvent] has counted an event, the last consensus
    round is the frame of the event and the first consensus round is kept if
    there was one; the store names the event as the last consensus event of
    its creator and its count of consensus events is up by one; the count of
    consensus transactions is up by the number of transactions of the event,
    and the count of pending loaded events is down by one for a loaded
    event.  [accountEvent] returns no error: it counts the event or it
    stops the program. *)
Theorem accountEvent_counts (p p' : Poset) (ev : Event.t) (r : outcome unit) :
  accountEvent p ev = (p', r) →
  (∀ e, r ≠ Fail e)
  ∧ (r = Ret tt →
     LastConsensusRound p' = Some (Event.Frame ev)
     ∧ FirstConsensusRound p' = Some (default (Event.Frame ev) (FirstConsensusRound p))
     ∧ LastConsensusEventFrom (Store p') (Event.GetCreator ev) = (Event.Hash ev, false, None)
     ∧ totConsensusEvents (Store p') = int64 (totConsensusEvents (Store p) + 1)
     ∧ ConsensusTransactions p'
       = uint64 (ConsensusTransactions p + Z.of_nat (length (Event.Transactions ev)))
     ∧ pendingLoadedEvents p'
       = (if IsLoaded ev then int64 (pendingLoadedEvents p - 1) else pendingLoadedEvents p)
     ∧ UndeterminedEvents p' = UndeterminedEvents p
     ∧ eventCache (Store p') = eventCache (Store p)).
Proof.
  unfold accountEvent, AddConsensusEvent.
  assert (∀ q : Poset, Store (if IsLoaded ev
                              then withPendingLoadedEvents q (int64 (pendingLoadedEvents q - 1))
                              else q) = Store q) as HS by (intros q; by destruct (IsLoaded ev)).
  rewrite !HS. simpl.
  destruct (riSet _ _ _) as [c [e|]]; intros [= <- <-]; (split; [done|]); [done|].
  intros _. unfold LastConsensusEventFrom. simpl. rewrite lookup_insert_eq.
  destruct (IsLoaded ev); simpl; by destruct (FirstConsensusRound p).
Qed.

End StateChain.

(** The frame of round 1 of the three leaves starts from the state root of
    the store. *)
Lemma MakeFrame_state_chain_witness :
  ∃ prevState hashes fetched,
    ((1 = 1 ∧ prevState = @StateRoot specEnv (Store leafPoset))
     ∨ (1 < 1
        ∧ ∃ prev, frameCache (Store leafPoset) !! int64 (1 - 1) = Some prev
                  ∧ prevState = Frame.StateHash prev))
    ∧ @GetRoundReceived specEnv (Store leafPoset) 1 = (hashes, None)
    ∧ @fetchEvents specEnv (Store leafPoset) hashes = Ret fetched
    ∧ @commitState specEnv (Participants leafPoset) prevState (@sortStable specEnv fetched)
      = (Frame.StateHash (madeFrame leafPoset 1), None).
Proof.
  apply (@MakeFrame_state_chain specEnv 10 leafPoset (framed leafPoset 1) 1
           (madeFrame leafPoset 1)).
  unfold framed, madeFrame. apply pair_snd_eq. vm_compute. reflexivity.
Defined.

(** The count of C's clotho 400 in the demo poset. *)
Lemma accountEvent_counts_witness :
  (∀ e, (Ret tt : outcome unit) ≠ Fail e)
  ∧ ((Ret tt : outcome unit) = Ret tt →
     LastConsensusRound (accounted demoPoset evC1) = Some (Event.Frame evC1)
     ∧ FirstConsensusRound (accounted demoPoset evC1)
       = Some (default (Event.Frame evC1) (FirstConsensusRound demoPoset))
     ∧ @LastConsensusEventFrom specEnv (Store (accounted demoPoset evC1))
         (Event.GetCreator evC1) = (Event.Hash evC1, false, None)
     ∧ totConsensusEvents (Store (accounted demoPoset evC1))
       = int64 (totConsensusEvents (Store demoPoset) + 1)
     ∧ ConsensusTransactions (accounted demoPoset evC1)
       = uint64 (ConsensusTransactions demoPoset
                 + Z.of_nat (length (Event.Transactions evC1)))
     ∧ pendingLoadedEvents (accounted demoPoset evC1)
       = (if @IsLoaded specEnv evC1 then int64 (pendingLoadedEvents demoPoset - 1)
          else pendingLoadedEvents demoPoset)
     ∧ UndeterminedEvents (accounted demoPoset evC1) = UndeterminedEvents demoPoset
     ∧ eventCache (Store (accounted demoPoset evC1)) = eventCache (Store demoPoset)).
Proof.
  apply (@accountEvent_counts specEnv demoPoset (accounted demoPoset evC1) evC1 (Ret tt)).
  unfold accounted. apply pair_snd_eq. vm_compute. reflexivity.
Defined.
